(** * aRchIVAL telemetry pipeline: a shallow embedding and its properties

    The development follows the TypeScript sources of the signal, queue and
    dispatch packages:

    - [Js]: the JavaScript values the code manipulates (JSON values, plain
      objects with their property order and their prototype, the text of a
      value in a template literal, completions that may throw);
    - [Otel]: [toAnyValue] and [logsToExportRequest] of the OTLP exporter;
    - [Exporter]: [OtelJsonHttpLogExporter], its [#exportBatch] and the main
      loop of [export], as a step function over the observations of one
      iteration;
    - [Dispatch]: the retry loop of [dispatchPostHandler];
    - [Fns]: the log-function combinators [withProperties], [withDebug],
      [withTimestamps], [withChain] and the logger built by
      [structuredLoggerMiddleware];
    - [Scope]: the cancellation scope ([Context]);
    - [Compose]: the [ComposeHandler] of the end-to-end tests, its command
      line and what it prints.

    The definitions come first, module by module; the lemmas on a module
    [M] follow in a module [MFacts]. *)

From Stdlib Require Import String Ascii List ZArith NArith QArith Qround Bool Lia.
From Stdlib Require Import Permutation DecimalString.
Import ListNotations.
Set Warnings "-register-all".
Close Scope Q_scope.
Local Open Scope string_scope.
Local Open Scope list_scope.

(* ================================================================== *)
(** ** JavaScript values *)
(* ================================================================== *)

Module Js.

(** Values that can sit in a log object at run time.  The declared type
    [JsonValue] is not enforced by JavaScript, so the kinds that [typeof]
    can report for a data value are all present: [undefined], symbols and
    bigints next to the JSON kinds.  A number is the rational it denotes
    (finite binary64 values are rationals; JSON has no NaN or infinity). *)
Inductive JsonValue : Type :=
| JNull
| JUndefined
| JSymbol (description : string)
| JBigInt (n : Z)
| JString (s : string)
| JBool (b : bool)
| JNumber (x : Q)
| JArray (items : list JsonValue)
| JObject (props : list (string * JsonValue)).

Definition JsonObject : Type := list (string * JsonValue).

(** The result of the [typeof] operator. *)
Inductive TypeOf : Type :=
| TyString | TyBoolean | TyNumber | TyObject | TyUndefined | TySymbol | TyBigint.

Definition typeof (v : JsonValue) : TypeOf :=
  match v with
  | JNull => TyObject
  | JUndefined => TyUndefined
  | JSymbol _ => TySymbol
  | JBigInt _ => TyBigint
  | JString _ => TyString
  | JBool _ => TyBoolean
  | JNumber _ => TyNumber
  | JArray _ => TyObject
  | JObject _ => TyObject
  end.

(** [Number.isInteger]. *)
Definition Number_isInteger (x : Q) : bool :=
  Qeq_bool x (inject_Z (Qfloor x)).

(** [v === n] for a number literal [n]. *)
Definition strict_eq_number (v : JsonValue) (n : Q) : bool :=
  match v with
  | JNumber x => Qeq_bool x n
  | _ => false
  end.

(** [v ?? d] keeps [v] unless it is [null] or [undefined]. *)
Definition nullish (v : JsonValue) : bool :=
  match v with
  | JNull | JUndefined => true
  | _ => false
  end.

Definition coalesce (v d : JsonValue) : JsonValue :=
  if nullish v then d else v.

(** Modelled from the spec: the error value of [@archival/core/error], whose
    source is not at hand.  The spec gives an error a name, a message, a
    context of JSON values, an optional cause and a flag that tells a
    programmer-invariant violation from an expected failure. *)
Inductive SimpleError : Type :=
| MkError (name : string) (message : string) (bug : bool)
          (context : list (string * JsonValue)) (cause : option SimpleError).

Definition newSimpleError (message : string)
  (context : list (string * JsonValue)) (cause : option SimpleError) : SimpleError :=
  MkError "SimpleError" message false context cause.

Definition newNamedError (name message : string) : SimpleError :=
  MkError name message false [] None.

Definition newSimpleBug (message : string)
  (context : list (string * JsonValue)) : SimpleError :=
  MkError "SimpleError" message true context None.

(** What a [throw] carries in the code at hand. *)
Inductive Thrown : Type :=
| TypeError (message : string)
| ThrownBug (e : SimpleError)
| HTTPException (status : Z) (cause : SimpleError).

(** A call either returns or throws. *)
Inductive Completion (A : Type) : Type :=
| Normal (a : A)
| Throw (t : Thrown).
Arguments Normal {A} a.
Arguments Throw {A} t.

Definition bind {A B : Type} (c : Completion A) (k : A -> Completion B) : Completion B :=
  match c with
  | Normal a => k a
  | Throw t => Throw t
  end.

Notation "x <- c ;; k" := (bind c (fun x => k))
  (at level 61, c at next level, right associativity).

(** [Result<T>]: exactly one of [ok] and [err]. *)
Inductive Result (A : Type) : Type :=
| Ok (ok : A)
| Err (err : SimpleError).
Arguments Ok {A} ok.
Arguments Err {A} err.

(** The [TypeError] that [Object.keys(null)] raises.  The text names the
    cause; the wording of the engine's message varies. *)
Definition null_to_object : Thrown :=
  TypeError "Object.keys called on null".

(** *** Plain objects

    An object is the list of its own properties in enumeration order:
    array-index keys first, ascending, then the other string keys in the
    order of their creation.  The own properties are writable data
    properties; the prototype of an object is held apart (see
    [Prototype]). *)

Definition digit_of (c : ascii) : option N :=
  let n := N_of_ascii c in
  if ((48 <=? n) && (n <=? 57))%N then Some (n - 48)%N else None.

Fixpoint digits_value (s : string) (acc : N) : option N :=
  match s with
  | EmptyString => Some acc
  | String c rest =>
      match digit_of c with
      | Some d => digits_value rest (10 * acc + d)%N
      | None => None
      end
  end.

(** A key is an array index when it is the canonical decimal form of an
    integer between 0 and 2^32 - 2. *)
Definition array_index (k : string) : option N :=
  match k with
  | EmptyString => None
  | String c rest =>
      match digits_value k 0%N with
      | Some n =>
          let canonical :=
            match rest with
            | EmptyString => true
            | String _ _ => negb (Ascii.eqb c "0"%char)
            end in
          if canonical && (n <=? 4294967294)%N then Some n else None
      | None => None
      end
  end.

Section Objects.
Context {V : Type}.

Fixpoint obj_lookup (o : list (string * V)) (k : string) : option V :=
  match o with
  | [] => None
  | (k', v) :: rest => if String.eqb k' k then Some v else obj_lookup rest k
  end.

Fixpoint obj_replace (o : list (string * V)) (k : string) (v : V) : list (string * V) :=
  match o with
  | [] => []
  | (k', v') :: rest =>
      if String.eqb k' k then (k', v) :: rest else (k', v') :: obj_replace rest k v
  end.

Fixpoint obj_insert_index (o : list (string * V)) (n : N) (k : string) (v : V)
  : list (string * V) :=
  match o with
  | [] => [(k, v)]
  | (k', v') :: rest =>
      match array_index k' with
      | Some m =>
          if (m <? n)%N then (k', v') :: obj_insert_index rest n k v
          else (k, v) :: o
      | None => (k, v) :: o
      end
  end.

(** [o[k] = v] on a plain object: an existing property keeps its place, a new
    array-index key goes among the array indices, any other new key goes
    last. *)
Definition obj_set (o : list (string * V)) (k : string) (v : V) : list (string * V) :=
  match obj_lookup o k with
  | Some _ => obj_replace o k v
  | None =>
      match array_index k with
      | Some n => obj_insert_index o n k v
      | None => o ++ [(k, v)]
      end
  end.

(** [Object.keys(o)], also the order of [for (const key in o)]. *)
Definition obj_keys (o : list (string * V)) : list string := map fst o.

End Objects.

(** [o[k]]: a missing property reads as [undefined]. *)
Definition js_get (o : JsonObject) (k : string) : JsonValue :=
  match obj_lookup o k with
  | Some v => v
  | None => JUndefined
  end.

(** *** Prototypes

    The prototype of an object that holds data: [Object.prototype] for an
    object literal and for what [JSON.parse] builds, [null], or a data value
    (a plain object or an array, whose own prototype is the built-in one)
    once the setter [__proto__] of [Object.prototype] has replaced it.  The
    properties of [Object.prototype] and [Array.prototype] themselves are
    functions and the accessor [__proto__]; no key that the code reads names
    one of them, so a read that reaches them gives [undefined] here. *)
Inductive Prototype : Type :=
| ProtoObject
| ProtoNull
| ProtoPlain (props : JsonObject)
| ProtoArray (items : list JsonValue).

(** [k] read on the prototype chain above an object. *)
Definition proto_get (p : Prototype) (k : string) : JsonValue :=
  match p with
  | ProtoObject | ProtoNull => JUndefined
  | ProtoPlain props => js_get props k
  | ProtoArray items =>
      match array_index k with
      | Some n => nth (N.to_nat n) items JUndefined
      | None =>
          if String.eqb k "length" then JNumber (inject_Z (Z.of_nat (length items)))
          else JUndefined
      end
  end.

(** [o[k]] on an object with own properties [own] and prototype [p]. *)
Definition get (own : JsonObject) (p : Prototype) (k : string) : JsonValue :=
  match obj_lookup own k with
  | Some v => v
  | None => proto_get p k
  end.

(** Whether a write of [__proto__] to an object without such an own property
    ends in the setter of [Object.prototype]: not when the chain stops at
    [null] before, and not when a data property of that name sits on the
    chain. *)
Definition reaches_setter (p : Prototype) : bool :=
  match p with
  | ProtoObject => true
  | ProtoNull => false
  | ProtoPlain props =>
      match obj_lookup props "__proto__" with
      | Some _ => false
      | None => true
      end
  | ProtoArray _ => true
  end.

(** The setter [__proto__] of [Object.prototype]: an object or [null]
    becomes the prototype, any other value is ignored. *)
Definition set_prototype (p : Prototype) (v : JsonValue) : Prototype :=
  match v with
  | JNull => ProtoNull
  | JObject props => ProtoPlain props
  | JArray items => ProtoArray items
  | _ => p
  end.

(** [target[k] = v] as [Object.assign] does it (the internal method [Set]):
    an own property takes the value; without one, the key [__proto__] runs
    the setter when the chain reaches it, and creates no property; any other
    write creates the own property. *)
Definition assign_key (target : JsonObject * Prototype) (k : string) (v : JsonValue)
  : JsonObject * Prototype :=
  let (own, p) := target in
  match obj_lookup own k with
  | Some _ => (obj_set own k v, p)
  | None =>
      if String.eqb k "__proto__" && reaches_setter p
      then (own, set_prototype p v)
      else (obj_set own k v, p)
  end.

(** [Object.assign(target, source)]: every own key of [source], in order, is
    read from [source] and written to [target], an object with own
    properties [own] and prototype [p]. *)
Definition Object_assign (own : JsonObject) (p : Prototype) (source : JsonObject)
  : JsonObject * Prototype :=
  fold_left (fun t k => assign_key t k (js_get source k)) (obj_keys source) (own, p).

(** *** Texts

    The text that a template literal gives a value (the abstract operation
    [ToString]).  [number_text] is the text of a number, whose algorithm is
    not modelled.  A symbol has no text; an array is the join of its
    elements; a plain object is ["[object Object]"] unless an own property
    [toString] hides the method of [Object.prototype]: a data value cannot
    be called, and [valueOf] gives no primitive either. *)
Definition symbol_to_text : Thrown :=
  TypeError "a Symbol value cannot be converted to a string".

Definition object_to_primitive : Thrown :=
  TypeError "the object cannot be converted to a primitive value".

(** The decimal text of a bigint. *)
Definition bigint_text (n : Z) : string := NilZero.string_of_int (Z.to_int n).

Section Texts.
Variable text : JsonValue -> Completion string.

(** The loop of [Array.prototype.join] with the separator [","]: an
    element that is [undefined] or [null] adds nothing. *)
Fixpoint join_loop (items : list JsonValue) (first : bool) (R : string)
  : Completion string :=
  match items with
  | [] => Normal R
  | element :: rest =>
      let R := if first then R else (R ++ ",")%string in
      next <- (if nullish element then Normal EmptyString else text element) ;;
      join_loop rest false (R ++ next)%string
  end.

End Texts.

Fixpoint ToString (number_text : Q -> string) (v : JsonValue) : Completion string :=
  match v with
  | JNull => Normal "null"
  | JUndefined => Normal "undefined"
  | JSymbol _ => Throw symbol_to_text
  | JBigInt n => Normal (bigint_text n)
  | JString s => Normal s
  | JBool b => Normal (if b then "true" else "false")
  | JNumber x => Normal (number_text x)
  | JArray items => join_loop (ToString number_text) items true EmptyString
  | JObject props =>
      match obj_lookup props "toString" with
      | Some _ => Throw object_to_primitive
      | None => Normal "[object Object]"
      end
  end.

(** The values that have a text. *)
Fixpoint has_text (v : JsonValue) : bool :=
  match v with
  | JSymbol _ => false
  | JArray items => forallb (fun x => nullish x || has_text x) items
  | JObject props =>
      match obj_lookup props "toString" with
      | Some _ => false
      | None => true
      end
  | _ => true
  end.

(** The line feed, written ["\n"] in the sources. *)
Definition LF : ascii := ascii_of_nat 10.

(** [s.split("\n")]: the segments between line feeds. *)
Fixpoint split_lines (s : string) : list string :=
  match s with
  | EmptyString => [EmptyString]
  | String c rest =>
      if Ascii.eqb c LF then EmptyString :: split_lines rest
      else
        match split_lines rest with
        | [] => [String c EmptyString]
        | seg :: segs => String c seg :: segs
        end
  end.

(** [s.split("\n", limit)] keeps the first [limit] segments. *)
Definition split_lines_limit (s : string) (limit : nat) : list string :=
  firstn limit (split_lines s).

End Js.

(* ================================================================== *)
(** ** The OTLP mapper (logs/exporters/otel.ts) *)
(* ================================================================== *)

Module Otel.
Import Js.

(** [LogKey] (logs/kvs.ts). *)
Module LogKey.
Definition Message := "message".
Definition TraceId := "traceId".
Definition SpanId := "spanId".
Definition SeverityText := "severityText".
Definition SeverityNumber := "severityNumber".
Definition TimestampUnixNano := "timeUnixNano".
Definition ServiceName := "service.name".
Definition ServiceVersion := "service.version".
Definition Error := "error".
Definition Url := "url.full".
Definition CodeComponent := "code.component.name".
End LogKey.

(** [LogValue] (logs/kvs.ts). *)
Module LogValue.
Definition SeverityTextDebug := "debug".
Definition SeverityTextWarn := "warn".
Definition SeverityTextFatal := "fatal".
Definition SeverityNumberDebug : Z := 5.
Definition SeverityNumberWarn : Z := 13.
Definition SeverityNumberFatal : Z := 21.
End LogValue.

(** A log is a flat object of JSON-compatible values. *)
Definition Log : Type := JsonObject.

Inductive AnyValue : Type :=
| stringValue (s : string)
| boolValue (b : bool)
| intValue (x : Q)
| doubleValue (x : Q)
| arrayValue (values : list AnyValue)
| kvlistValue (values : list (string * AnyValue)).

Definition KeyValue : Type := (string * AnyValue)%type.

Definition typeof_name (t : TypeOf) : string :=
  match t with
  | TyString => "string"
  | TyBoolean => "boolean"
  | TyNumber => "number"
  | TyObject => "object"
  | TyUndefined => "undefined"
  | TySymbol => "symbol"
  | TyBigint => "bigint"
  end.

Definition unknown_type_bug (v : JsonValue) : SimpleError :=
  newSimpleBug "unable to convert to AnyType, known type"
    [("typeof", JString (typeof_name (typeof v))); ("given", v)].

(** The loop of the array branch: [for (const value of v)], with the
    conversion of an element as [convert]. *)
Section ConversionLoops.
Variable convert : JsonValue -> Completion (Result AnyValue).

Fixpoint array_loop (v : JsonValue) (rest : list JsonValue) (values : list AnyValue)
  : Completion (Result AnyValue) :=
  match rest with
  | [] => Normal (Ok (arrayValue values))
  | value :: rest' =>
      match convert value with
      | Throw t => Throw t
      | Normal (Err e) =>
          Normal (Err (newSimpleError "unable to convert value in array"
                         [("array", v); ("value", value)] (Some e)))
      | Normal (Ok a) => array_loop v rest' (values ++ [a])
      end
  end.

(** The loop of the object branch: [for (const key of Object.keys(vAsObj))],
    the properties visited as (key, value) pairs. *)
Fixpoint kvlist_loop (v : JsonValue) (rest : list (string * JsonValue))
  (kvs : list (string * AnyValue)) : Completion (Result AnyValue) :=
  match rest with
  | [] => Normal (Ok (kvlistValue kvs))
  | kv :: rest' =>
      match convert (snd kv) with
      | Throw t => Throw t
      | Normal (Err e) =>
          Normal (Err (newSimpleError "unable to convert value to kvlist"
                         [("obj", v); ("key", JString (fst kv)); ("value", snd kv)]
                         (Some e)))
      | Normal (Ok a) => kvlist_loop v rest' (kvs ++ [(fst kv, a)])
      end
  end.

End ConversionLoops.

(** [toAnyValue].  The branches follow [switch (typeof v)]: a string, a
    boolean and a number convert directly; the ["object"] branch handles an
    array, then treats everything else as an object and calls [Object.keys]
    on it, which throws on [null]; the [default] branch returns an error. *)
Fixpoint toAnyValue (v : JsonValue) : Completion (Result AnyValue) :=
  match v with
  | JString s => Normal (Ok (stringValue s))
  | JBool b => Normal (Ok (boolValue b))
  | JNumber x =>
      if Number_isInteger x then Normal (Ok (intValue x))
      else Normal (Ok (doubleValue x))
  | JArray items => array_loop toAnyValue v items []
  | JNull => Throw null_to_object
  | JObject props => kvlist_loop toAnyValue v props []
  | JUndefined | JSymbol _ | JBigInt _ => Normal (Err (unknown_type_bug v))
  end.

(** No [null] anywhere inside the value. *)
Fixpoint null_free (v : JsonValue) : bool :=
  match v with
  | JNull => false
  | JArray items => forallb null_free items
  | JObject props => forallb (fun kv => null_free (snd kv)) props
  | _ => true
  end.

Record InstrumentationScope : Type := {
  scope_name : string;
  scope_version : string
}.

Record LogRecord : Type := {
  timeUnixNano : JsonValue;
  observedTimeUnixNano : Q;
  severityNumber : JsonValue;
  severityText : JsonValue;
  traceId : JsonValue;
  spanId : JsonValue;
  droppedAttributesCount : Z;
  body : AnyValue
}.

Definition schema_1_30_0 := "https://opentelemetry.io/schemas/1.30.0".

Record ScopeLogs : Type := {
  scope : InstrumentationScope;
  logRecords : list LogRecord;
  scope_schemaUrl : string
}.

Record Resource : Type := { attributes : list KeyValue }.

Record ResourceLogs : Type := {
  resource : Resource;
  scopeLogs : list ScopeLogs;
  schemaUrl : string
}.

Record ExportLogsServiceRequest : Type := { resourceLogs : list ResourceLogs }.

Record ExportLogsPartialSuccess : Type := {
  rejectedLogsRecords : Z;
  errorMessage : string
}.

Record ExportLogsServiceResponse : Type := {
  partialSuccess : option ExportLogsPartialSuccess
}.

(** One call of a [StructuredLogFunction] with an object literal: the two
    severity keys, the message and the remaining properties in the order
    of the literal. *)
Inductive Field : Type :=
| FValue (key : string) (v : JsonValue)
| FError (e : SimpleError)
| FRequest (r : ExportLogsServiceRequest)
| FResponse (r : ExportLogsServiceResponse).

Record LogCall : Type := {
  call_severityText : string;
  call_severityNumber : Z;
  call_message : string;
  call_fields : list Field
}.

Definition fatal_call (message : string) (fields : list Field) : LogCall :=
  {| call_severityText := LogValue.SeverityTextFatal;
     call_severityNumber := LogValue.SeverityNumberFatal;
     call_message := message; call_fields := fields |}.

Definition warn_call (message : string) (fields : list Field) : LogCall :=
  {| call_severityText := LogValue.SeverityTextWarn;
     call_severityNumber := LogValue.SeverityNumberWarn;
     call_message := message; call_fields := fields |}.

Definition debug_call (message : string) (fields : list Field) : LogCall :=
  {| call_severityText := LogValue.SeverityTextDebug;
     call_severityNumber := LogValue.SeverityNumberDebug;
     call_message := message; call_fields := fields |}.

(** What the mapper takes from its surroundings: the two constants of the
    build module, whose source is not at hand, and the text of a number in
    a template literal. *)
Record Host : Type := {
  PACKAGE_NAME : string;
  BUILD_VERSION : string;
  number_text : Q -> string
}.

(** [`${serviceName}`] for [serviceName = log[LogKey.ServiceName] ?? "unknown"]:
    the declared type is [string], the value can be of any kind. *)
Definition serviceName_of (h : Host) (log : Log) : Completion string :=
  ToString (number_text h) (coalesce (js_get log LogKey.ServiceName) (JString "unknown")).

Definition serviceVersion_of (h : Host) (log : Log) : Completion string :=
  ToString (number_text h)
    (coalesce (js_get log LogKey.ServiceVersion) (JString "0.0.0-unknown")).

(** The two texts with a line feed between them. *)
Definition join_key (serviceName serviceVersion : string) : string :=
  (serviceName ++ String LF serviceVersion)%string.

(** [`${serviceName}\n${serviceVersion}`] *)
Definition resourceKey_of (h : Host) (log : Log) : Completion string :=
  serviceName <- serviceName_of h log ;;
  serviceVersion <- serviceVersion_of h log ;;
  Normal (join_key serviceName serviceVersion).

(** The keys that the [switch (key)] of the body loop skips. *)
Definition skipped_key (key : string) : bool :=
  String.eqb key LogKey.TimestampUnixNano
  || String.eqb key LogKey.SeverityNumber
  || String.eqb key LogKey.SeverityText
  || String.eqb key LogKey.TraceId
  || String.eqb key LogKey.SpanId
  || String.eqb key LogKey.ServiceName
  || String.eqb key LogKey.ServiceVersion.

(** State of the loop [for (const key in log)]. *)
Record BodyState : Type := {
  dropped : Z;
  kvs : list KeyValue;
  sunk : list LogCall
}.

Definition dropped_attribute_call (log : Log) (key : string) (value : JsonValue)
  (e : SimpleError) : LogCall :=
  fatal_call "Unable to export attribute in log"
    [FValue "givenLog" (JObject log); FValue "key" (JString key);
     FValue "value" value; FError e].

Definition body_step (log : Log) (st : BodyState) (kv : string * JsonValue)
  : Completion BodyState :=
  let (key, value) := kv in
  if skipped_key key then Normal st
  else
    result <- toAnyValue value ;;
    match result with
    | Err e =>
        Normal {| dropped := dropped st + 1;
                  kvs := kvs st;
                  sunk := sunk st ++ [dropped_attribute_call log key value e] |}
    | Ok a =>
        Normal {| dropped := dropped st; kvs := kvs st ++ [(key, a)]; sunk := sunk st |}
    end.

Fixpoint body_loop (log : Log) (props : list (string * JsonValue)) (st : BodyState)
  : Completion BodyState :=
  match props with
  | [] => Normal st
  | kv :: rest => st' <- body_step log st kv ;; body_loop log rest st'
  end.

(** The record built for one log, with the calls made to [localLogFn].
    [localLogFn] is an argument of the mapper; it is taken to return, and
    its calls are recorded in order. *)
Definition log_record (now_nanos : Q) (log : Log) : Completion (LogRecord * list LogCall) :=
  st <- body_loop log log {| dropped := 0; kvs := []; sunk := [] |} ;;
  Normal ({| timeUnixNano := js_get log LogKey.TimestampUnixNano;
             severityNumber := js_get log LogKey.SeverityNumber;
             severityText := js_get log LogKey.SeverityText;
             traceId := js_get log LogKey.TraceId;
             spanId := js_get log LogKey.SpanId;
             observedTimeUnixNano := now_nanos;
             droppedAttributesCount := dropped st;
             body := kvlistValue (kvs st) |}, sunk st).

Definition ByResource : Type := list (string * list LogRecord).

(** One turn of [for (const log of logs)]: the key is built, the group of
    the key is created when missing, the record is built, then pushed to the
    group.
    [observed i] is the value of [Date.now() * 1_000_000] computed for the
    log at position [i]. *)
Definition group_step (h : Host) (observed : nat -> Q) (i : nat) (log : Log)
  (st : ByResource * list LogCall) : Completion (ByResource * list LogCall) :=
  let (requestsByResource, calls) := st in
  resourceKey <- resourceKey_of h log ;;
  let requestsByResource :=
    match obj_lookup requestsByResource resourceKey with
    | None => obj_set requestsByResource resourceKey []
    | Some _ => requestsByResource
    end in
  rc <- log_record (observed i) log ;;
  let (record, calls') := rc in
  match obj_lookup requestsByResource resourceKey with
  | Some records =>
      Normal (obj_set requestsByResource resourceKey (records ++ [record]),
              calls ++ calls')
  | None => Throw (TypeError "push called on undefined")
  end.

Fixpoint group_loop (h : Host) (observed : nat -> Q) (i : nat) (logs : list Log)
  (st : ByResource * list LogCall) : Completion (ByResource * list LogCall) :=
  match logs with
  | [] => Normal st
  | log :: rest =>
      st' <- group_step h observed i log st ;;
      group_loop h observed (S i) rest st'
  end.

(** The entry built for one key: [key.split("\n", 2)] gives the two resource
    attributes.  A key holds a line feed, so both parts exist. *)
Definition resource_log (h : Host) (key : string) (records : list LogRecord)
  : ResourceLogs :=
  let parts := split_lines_limit key 2 in
  let serviceName := nth 0 parts EmptyString in
  let serviceVersion := nth 1 parts EmptyString in
  {| schemaUrl := schema_1_30_0;
     resource :=
       {| attributes := [("service.name", stringValue serviceName);
                         ("service.version", stringValue serviceVersion)] |};
     scopeLogs :=
       [{| scope_schemaUrl := schema_1_30_0;
           scope := {| scope_name := PACKAGE_NAME h; scope_version := BUILD_VERSION h |};
           logRecords := records |}] |}.

(** The second loop, [for (const key of Object.keys(requestsByResource))],
    over the properties as (key, records) pairs. *)
Fixpoint emit_loop (h : Host) (groups : ByResource) : list ResourceLogs :=
  match groups with
  | [] => []
  | (key, records) :: rest =>
      if Nat.eqb (length records) 0 then emit_loop h rest
      else resource_log h key records :: emit_loop h rest
  end.

(** [logsToExportRequest(localLogFn, ...logs)]: the request and the calls
    made to [localLogFn], in order. *)
Definition logsToExportRequest (h : Host) (observed : nat -> Q) (logs : list Log)
  : Completion (ExportLogsServiceRequest * list LogCall) :=
  st <- group_loop h observed 0 logs ([], []) ;;
  let (requestsByResource, calls) := st in
  Normal ({| resourceLogs := emit_loop h requestsByResource |}, calls).

(** *** Vocabulary for the statements *)

(** What one property of a log contributes to the body. *)
Definition body_entry (kv : string * JsonValue) : list KeyValue :=
  if skipped_key (fst kv) then []
  else match toAnyValue (snd kv) with
       | Normal (Ok a) => [(fst kv, a)]
       | _ => []
       end.

Definition body_of (log : Log) : list KeyValue := flat_map body_entry log.

(** The call to [localLogFn] that one property of a log causes. *)
Definition dropped_entry (log : Log) (kv : string * JsonValue) : list LogCall :=
  if skipped_key (fst kv) then []
  else match toAnyValue (snd kv) with
       | Normal (Err e) => [dropped_attribute_call log (fst kv) (snd kv) e]
       | _ => []
       end.

Definition dropped_calls (log : Log) (props : list (string * JsonValue)) : list LogCall :=
  flat_map (dropped_entry log) props.

(** The conversion of this property of a log throws [t]. *)
Definition throws (t : Thrown) (kv : string * JsonValue) : Prop :=
  skipped_key (fst kv) = false /\ toAnyValue (snd kv) = Throw t.

Definition null_free_log (log : Log) : bool :=
  forallb (fun kv => null_free (snd kv)) log.

(** The record of a log whose conversions all return. *)
Definition record_of (now_nanos : Q) (log : Log) : LogRecord :=
  {| timeUnixNano := js_get log LogKey.TimestampUnixNano;
     severityNumber := js_get log LogKey.SeverityNumber;
     severityText := js_get log LogKey.SeverityText;
     traceId := js_get log LogKey.TraceId;
     spanId := js_get log LogKey.SpanId;
     observedTimeUnixNano := now_nanos;
     droppedAttributesCount := Z.of_nat (length (dropped_calls log log));
     body := kvlistValue (body_of log) |}.

(** What a call returned, with a default for a call that threw. *)
Definition returned {A : Type} (default : A) (c : Completion A) : A :=
  match c with
  | Normal a => a
  | Throw _ => default
  end.

(** The service name and the service version of a log as texts, and its
    grouping key, for a log whose two values have a text. *)
Definition name_text (h : Host) (log : Log) : string :=
  returned EmptyString (serviceName_of h log).

Definition version_text (h : Host) (log : Log) : string :=
  returned EmptyString (serviceVersion_of h log).

Definition key_text (h : Host) (log : Log) : string :=
  join_key (name_text h log) (version_text h log).

(** The two service values of the log have a text. *)
Definition coerces (log : Log) : bool :=
  has_text (coalesce (js_get log LogKey.ServiceName) (JString "unknown"))
  && has_text (coalesce (js_get log LogKey.ServiceVersion) (JString "0.0.0-unknown")).

(** No conversion of a property of the log throws. *)
Definition converts (log : Log) : bool :=
  forallb (fun kv => skipped_key (fst kv)
                     || match toAnyValue (snd kv) with
                        | Throw _ => false
                        | Normal _ => true
                        end) log.

(** The mapper gets through the log. *)
Definition mappable (log : Log) : bool := coerces log && converts log.

(** The records of a batch, each with its grouping key, in input order. *)
Fixpoint keyed (h : Host) (observed : nat -> Q) (i : nat) (logs : list Log)
  : list (string * LogRecord) :=
  match logs with
  | [] => []
  | log :: rest =>
      (key_text h log, record_of (observed i) log) :: keyed h observed (S i) rest
  end.

(** The records filed under key [k], in the order of [m]. *)
Definition grouped (m : list (string * LogRecord)) (k : string) : list LogRecord :=
  map snd (filter (fun p => String.eqb (fst p) k) m).

(** Filing one more record under [k]. *)
Definition add_record (g : ByResource) (p : string * LogRecord) : ByResource :=
  match obj_lookup g (fst p) with
  | Some records => obj_replace g (fst p) (records ++ [snd p])
  | None => g ++ [(fst p, [snd p])]
  end.

Definition groups_of (m : list (string * LogRecord)) : ByResource :=
  fold_left add_record m [].

(** The state of [requestsByResource] after the records [m] were filed. *)
Definition groups_inv (g : ByResource) (m : list (string * LogRecord)) : Prop :=
  NoDup (obj_keys g)
  /\ (forall k, In k (obj_keys g) <-> In k (map fst m))
  /\ (forall k records, obj_lookup g k = Some records -> records = grouped m k).

(** No line feed in the string. *)
Fixpoint no_LF (s : string) : bool :=
  match s with
  | EmptyString => true
  | String c rest => negb (Ascii.eqb c LF) && no_LF rest
  end.


(** A host for the examples: the name and version that the functional test
    of the exporter reads back from Loki.  Its text of a number is the
    decimal text of the integer part, which is the text JavaScript gives an
    integer below 10^21 in magnitude; the examples use no other number as a
    service name or version. *)
Definition signal_host : Host :=
  {| PACKAGE_NAME := "@archival/signal";
     BUILD_VERSION := "unknown";
     number_text := fun x => bigint_text (Qfloor x) |}.

Definition epoch : nat -> Q := fun _ => 0%Q.

(** All the records of a request, group after group. *)
Definition request_records (req : ExportLogsServiceRequest) : list LogRecord :=
  flat_map (fun rl => flat_map logRecords (scopeLogs rl)) (resourceLogs req).

(** The keys of a body. *)
Definition body_keys (r : LogRecord) : list string :=
  match body r with
  | kvlistValue values => map fst values
  | _ => []
  end.

(** *** More vocabulary: supported values, order of first occurrence *)

(** The kinds with a mapping: strings, booleans, numbers, and arrays and
    objects made of them. *)
Fixpoint supported (v : JsonValue) : bool :=
  match v with
  | JString _ | JBool _ | JNumber _ => true
  | JArray items => forallb supported items
  | JObject props => forallb (fun kv => supported (snd kv)) props
  | _ => false
  end.

(** The value that an [AnyValue] stands for. *)
Fixpoint fromAnyValue (a : AnyValue) : JsonValue :=
  match a with
  | stringValue s => JString s
  | boolValue b => JBool b
  | intValue x => JNumber x
  | doubleValue x => JNumber x
  | arrayValue values => JArray (map fromAnyValue values)
  | kvlistValue values => JObject (map (fun kv => (fst kv, fromAnyValue (snd kv))) values)
  end.

(** The distinct elements of [l] that are not in [seen], each at its first
    occurrence. *)
Fixpoint first_seen (seen l : list string) : list string :=
  match l with
  | [] => []
  | k :: rest =>
      if existsb (String.eqb k) seen then first_seen seen rest
      else k :: first_seen (k :: seen) rest
  end.

(** The properties of a log that the body loop converts. *)
Definition converted_props (log : Log) : list (string * JsonValue) :=
  filter (fun kv => negb (skipped_key (fst kv))) log.

(** Every property that the body loop converts holds a supported value. *)
Definition fully_supported (log : Log) : bool :=
  forallb (fun kv => supported (snd kv)) (converted_props log).

(** The records built for the logs of a batch, in input order. *)
Fixpoint records_of (observed : nat -> Q) (i : nat) (logs : list Log) : list LogRecord :=
  match logs with
  | [] => []
  | log :: rest => record_of (observed i) log :: records_of observed (S i) rest
  end.

(** The two resource attributes of an entry: the first two lines of its
    key. *)
Definition key_attributes (key : string) : list KeyValue :=
  [("service.name", stringValue (nth 0 (split_lines_limit key 2) EmptyString));
   ("service.version", stringValue (nth 1 (split_lines_limit key 2) EmptyString))].

(** What an entry holds: its resource attributes and the records of each of
    its scopes. *)
Definition entry_view (rl : ResourceLogs) : list KeyValue * list (list LogRecord) :=
  (attributes (resource rl), map logRecords (scopeLogs rl)).

(** *** Vocabulary for grouping by pairs *)

(** The pair of texts that the entries are meant to stand for. *)
Definition pair_text (h : Host) (log : Log) : string * string :=
  (name_text h log, version_text h log).

Definition pair_eqb (p q : string * string) : bool :=
  String.eqb (fst p) (fst q) && String.eqb (snd p) (snd q).

(** The distinct pairs of [l] that are not in [seen], each at its first
    occurrence. *)
Fixpoint first_pairs (seen l : list (string * string)) : list (string * string) :=
  match l with
  | [] => []
  | p :: rest =>
      if existsb (pair_eqb p) seen then first_pairs seen rest
      else p :: first_pairs (p :: seen) rest
  end.

(** The records of the logs whose pair is [p], in input order. *)
Fixpoint records_with_pair (h : Host) (observed : nat -> Q) (i : nat) (logs : list Log)
  (p : string * string) : list LogRecord :=
  match logs with
  | [] => []
  | log :: rest =>
      if pair_eqb (pair_text h log) p
      then record_of (observed i) log :: records_with_pair h observed (S i) rest p
      else records_with_pair h observed (S i) rest p
  end.

(** Neither the service name nor the service version of the log holds a line
    feed. *)
Definition single_line (h : Host) (log : Log) : bool :=
  no_LF (name_text h log) && no_LF (version_text h log).

End Otel.

(* ================================================================== *)
(** ** The batching exporter (logs/exporters/otel.ts) *)
(* ================================================================== *)

Module Exporter.
Import Js Otel.

(** The error of a queue call.  [ContextCancelledError] is a sentinel that
    the code compares by identity. *)
Inductive QueueError : Type :=
| ContextCancelledError
| QueueFailure (e : SimpleError).

(** Modelled from the spec: the sentinel as a value that a log can carry
    (its source, [@archival/core/context], is not at hand). *)
Definition cancelled_error : SimpleError :=
  newNamedError "ContextCancelledError" "context cancelled".

(** What [await queue.receive(ctx)] yields: a [Result] with [ok], with
    [err], or with neither. *)
Inductive Received : Type :=
| RecvOk (log : Log)
| RecvErr (e : QueueError)
| RecvNeither.

(** What [await ofetch(...)] does: it resolves with the parsed response
    (or [undefined]), rejects with a [FetchError], or rejects with anything
    else. *)
Inductive FetchOutcome : Type :=
| Resolved (response : option ExportLogsServiceResponse)
| RejectedFetchError (e : SimpleError) (data statusCode : JsonValue)
| RejectedOther (e : SimpleError).

(** A context is named by a number. *)
Definition ContextId : Type := nat.

(** The calls that the exporter and the dispatch handler make on their
    collaborators, in the order of a run.  [Sleep ms] is
    [await new Promise((resolve) => setTimeout(resolve, ms))]. *)
Inductive Action : Type :=
| CallLogger (c : LogCall)
| HttpPost (request : ExportLogsServiceRequest) (outcome : FetchOutcome)
| NewContext (parent : option ContextId)
| SetTimeout (ms : Z)
| QueueReceive (result : Received)
| QueueSend (message : JsonObject)
| Sleep (ms : Z)
| ObserveDone (b : bool)
| CallExportBatch (batch : list Log).

Record Options : Type := {
  batchSize : Z;
  fullBatchTimeout : Z;
  receiveTimeout : Z;
  softStop : bool
}.

Definition ErrorNameOtelExportLogsServicePartialSuccess :=
  "OtelExportLogsServicePartialSuccess".

(** The logger calls that follow the request, by outcome. *)
Definition after_fetch (request : ExportLogsServiceRequest) (outcome : FetchOutcome)
  : list Action :=
  match outcome with
  | RejectedOther e =>
      [CallLogger (fatal_call "got unexpected error while sending otel log request"
                     [FError e; FRequest request])]
  | RejectedFetchError e data statusCode =>
      [CallLogger (fatal_call "unable to send otel log request"
                     [FError e; FRequest request; FValue "responseBody" data;
                      FValue "responseCode" statusCode])]
  | Resolved None =>
      [CallLogger (debug_call "received full success while exporting batch"
                     [FRequest request])]
  | Resolved (Some response) =>
      match partialSuccess response with
      | None =>
          [CallLogger (debug_call "received full success while exporting batch"
                         [FRequest request])]
      | Some partial =>
          if (rejectedLogsRecords partial >? 0)%Z then
            [CallLogger (fatal_call "received partial success while exporting batch"
                           [FError (newNamedError ErrorNameOtelExportLogsServicePartialSuccess
                                      (errorMessage partial));
                            FRequest request; FResponse response])]
          else
            [CallLogger (warn_call "received warning from otel endpoint while exporting batch"
                           [FError (newNamedError ErrorNameOtelExportLogsServicePartialSuccess
                                      (errorMessage partial));
                            FRequest request; FResponse response])]
      end
  end.

(** [#exportBatch(batch)]: the mapper, one logger call, one POST, one more
    logger call.  The mapper may throw; the actions of a call that throws
    are not kept. *)
Definition exportBatch (h : Host) (observed : nat -> Q) (outcome : FetchOutcome)
  (batch : list Log) : Completion (list Action) :=
  mapped <- logsToExportRequest h observed batch ;;
  let (request, calls) := mapped in
  Normal (map CallLogger calls
          ++ [CallLogger (debug_call "sending batch of logs to otel endpoint"
                            [FValue "batchSize" (JNumber (inject_Z (Z.of_nat (length batch))));
                             FRequest request])]
          ++ [HttpPost request outcome]
          ++ after_fetch request outcome).

(** What one iteration of the loop of [export] observes: the two readings of
    [ctx.done()], the two readings of [Date.now()], what a flush meets and
    what the queue returns. *)
Record Tick : Type := {
  done_at_head : bool;
  now_at_check : Z;
  observed_nanos : nat -> Q;
  fetch_outcome : FetchOutcome;
  now_after_flush : Z;
  received : Received;
  done_after_cancel : bool
}.

Inductive LoopState : Type :=
| Looping (batch : list Log) (lastSendUnix : Z)
| Exited (batch : list Log)
| Aborted (t : Thrown).

(** [batch.length >= batchSize || Date.now() - lastSendUnix > fullBatchTimeout] *)
Definition flush_due (o : Options) (batch : list Log) (lastSendUnix : Z) (t : Tick) : bool :=
  (Z.of_nat (length batch) >=? batchSize o)%Z
  || (now_at_check t - lastSendUnix >? fullBatchTimeout o)%Z.

(** [this.#softStop ? new Context() : new Context(ctx)] *)
Definition timeout_parent (o : Options) (ctx : ContextId) : option ContextId :=
  if softStop o then None else Some ctx.

(** One evaluation of the condition and the body of
    [while (this.#softStop || !ctx.done())]. *)
Definition iteration (h : Host) (o : Options) (ctx : ContextId)
  (batch : list Log) (lastSendUnix : Z) (t : Tick) : LoopState * list Action :=
  if negb (softStop o) && done_at_head t then (Exited batch, [ObserveDone true])
  else
    let head := if softStop o then [] else [ObserveDone false] in
    if flush_due o batch lastSendUnix t then
      match exportBatch h (observed_nanos t) (fetch_outcome t) batch with
      | Normal acts => (Looping [] (now_after_flush t), head ++ CallExportBatch batch :: acts)
      | Throw e => (Aborted e, head ++ [CallExportBatch batch])
      end
    else
      let pre := head ++ [NewContext (timeout_parent o ctx);
                          SetTimeout (receiveTimeout o);
                          QueueReceive (received t)] in
      match received t with
      | RecvErr ContextCancelledError =>
          if done_after_cancel t then (Exited batch, pre ++ [ObserveDone true])
          else (Looping batch lastSendUnix, pre ++ [ObserveDone false])
      | RecvErr (QueueFailure e) =>
          (Looping batch lastSendUnix,
           pre ++ [CallLogger (warn_call "error occurred while receiving new item from the queue"
                                 [FError e])])
      | RecvNeither =>
          (Aborted (ThrownBug (newSimpleBug "expected message or an error, instead got neither"
                                 [("received", JObject [])])),
           pre)
      | RecvOk log => (Looping (batch ++ [log]) lastSendUnix, pre)
      end.

(** The loop, over the observations of its successive iterations.  When the
    observations run out the loop is still running. *)
Fixpoint run (h : Host) (o : Options) (ctx : ContextId) (ticks : list Tick)
  (batch : list Log) (lastSendUnix : Z) : LoopState * list Action :=
  match ticks with
  | [] => (Looping batch lastSendUnix, [])
  | t :: rest =>
      match iteration h o ctx batch lastSendUnix t with
      | (Looping batch' last', acts) =>
          let (st, acts') := run h o ctx rest batch' last' in (st, acts ++ acts')
      | (st, acts) => (st, acts)
      end
  end.

(** [export(ctx)]: the loop from an empty batch, the last flush, the last
    logger call.  [None] when the loop has not ended within [ticks]. *)
Definition export (h : Host) (o : Options) (ctx : ContextId) (started : Z)
  (ticks : list Tick) (last_observed : nat -> Q) (last_outcome : FetchOutcome)
  : option (Completion (Result unit) * list Action) :=
  match run h o ctx ticks [] started with
  | (Looping _ _, _) => None
  | (Aborted e, acts) => Some (Throw e, acts)
  | (Exited batch, acts) =>
      let stop := [CallLogger (debug_call "stopping exporter, context cancelled"
                                 [FError cancelled_error])] in
      if (0 <? length batch)%nat then
        match exportBatch h last_observed last_outcome batch with
        | Normal acts' =>
            Some (Normal (Ok tt), acts ++ CallExportBatch batch :: acts' ++ stop)
        | Throw e => Some (Throw e, acts ++ [CallExportBatch batch])
        end
      else Some (Normal (Ok tt), acts ++ stop)
  end.

(** *** Vocabulary for the statements *)

Definition is_logger_call (a : Action) : bool :=
  match a with CallLogger _ => true | _ => false end.

Definition is_queue_send (a : Action) : bool :=
  match a with QueueSend _ => true | _ => false end.

Definition is_post (a : Action) : bool :=
  match a with HttpPost _ _ => true | _ => false end.

Definition is_flush (a : Action) : bool :=
  match a with CallExportBatch _ => true | _ => false end.

(** The logs that the queue handed over, in order. *)
Definition received_logs (acts : list Action) : list Log :=
  flat_map (fun a => match a with QueueReceive (RecvOk log) => [log] | _ => [] end) acts.

(** The batches given to [#exportBatch], joined in order. *)
Definition flushed_logs (acts : list Action) : list Log :=
  flat_map (fun a => match a with CallExportBatch batch => batch | _ => [] end) acts.

(** The batch that a state still holds. *)
Definition held (st : LoopState) : list Log :=
  match st with
  | Looping batch _ => batch
  | Exited batch => batch
  | Aborted _ => []
  end.

Definition has_exited (st : LoopState) : Prop := exists batch, st = Exited batch.

Definition is_aborted (st : LoopState) : bool :=
  match st with Aborted _ => true | _ => false end.

(** The largest batch that the loop can hold. *)
Definition batch_bound (o : Options) : Z := Z.max 0 (batchSize o).

End Exporter.

(* ================================================================== *)
(** ** The dispatch handler (dispatch/src/index.ts) *)
(* ================================================================== *)

Module Dispatch.
Import Js Otel Exporter.

Definition logKeyFetchRequest := "fetchRequest".
Definition logKeyFetchPushAttempts := "attempt".
Definition responseUnknownContentType := "unable to dispatch URL, unknown content type".

Record Response : Type := { status : Z }.

(** [{ url: url, contentType: inspectResult.contentType }] *)
Definition fetchRequest_of (url contentType : string) : JsonObject :=
  [("url", JString url); ("contentType", JString contentType)].

Definition attempt_number (attempt : nat) : JsonValue :=
  JNumber (inject_Z (Z.of_nat (attempt + 1))).

(** The loop [for (attempt = 0; attempt < 5; attempt++)].  [send i] is what
    the call of [queue.send] made with [attempt = i] resolves to.  The
    result is the trace with how the loop ended: normally, with the value of
    [attempt], or by a [throw].  [None] when [fuel] iterations did not
    suffice. *)
Fixpoint send_loop (fuel : nat) (attempt : nat) (send : nat -> Result unit)
  (fetchRequest : JsonObject) : option (list Action * Completion nat) :=
  if (attempt <? 5)%nat then
    match fuel with
    | O => None
    | S fuel' =>
        let pre :=
          [CallLogger (debug_call "sending FetchRequest to queue"
                         [FValue logKeyFetchRequest (JObject fetchRequest)]);
           QueueSend fetchRequest] in
        match send attempt with
        | Ok _ => Some (pre, Normal attempt)
        | Err err =>
            if (attempt =? 4)%nat then
              Some (pre ++ [CallLogger
                              (fatal_call "unable to publish new fetch request to queue"
                                 [FError err;
                                  FValue logKeyFetchRequest (JObject fetchRequest);
                                  FValue logKeyFetchPushAttempts (attempt_number attempt)])],
                    Throw (HTTPException 500 err))
            else
              match send_loop fuel' (S attempt) send fetchRequest with
              | None => None
              | Some (acts, res) =>
                  Some (pre ++ [CallLogger
                                  (warn_call "error while publishing new fetch request to queue"
                                     [FError err;
                                      FValue logKeyFetchRequest (JObject fetchRequest);
                                      FValue logKeyFetchPushAttempts (attempt_number attempt)]);
                                Sleep 500] ++ acts,
                        res)
              end
        end
    end
  else Some ([], Normal attempt).

(** [dispatchPostHandler].  [contentType] is what [inspectUrl(url)] found;
    the inspector is not part of the sources at hand. *)
Definition dispatchPostHandler (url : string) (contentType : option string)
  (send : nat -> Result unit) : option (list Action * Completion Response) :=
  match contentType with
  | None =>
      Some ([], Throw (HTTPException 400
                         (newSimpleError responseUnknownContentType
                            [("url", JString url)] None)))
  | Some ct =>
      let fetchRequest := fetchRequest_of url ct in
      match send_loop 5 0 send fetchRequest with
      | None => None
      | Some (acts, Throw t) => Some (acts, Throw t)
      | Some (acts, Normal attempt) =>
          Some (acts ++ [CallLogger
                           (debug_call "published new fetch request to queue"
                              [FValue logKeyFetchRequest (JObject fetchRequest);
                               FValue logKeyFetchPushAttempts (attempt_number attempt)])],
                Normal {| status := 200 |})
      end
  end.

(** *** Vocabulary for the statements *)

(** The sends and the sleeps of a trace, in order. *)
Definition pacing (acts : list Action) : list Action :=
  filter (fun a => match a with QueueSend _ | Sleep _ => true | _ => false end) acts.

(** [n] sends of [message] with a sleep of [ms] between two of them. *)
Fixpoint paced_sends (n : nat) (message : JsonObject) (ms : Z) : list Action :=
  match n with
  | O => []
  | S O => [QueueSend message]
  | S n' => QueueSend message :: Sleep ms :: paced_sends n' message ms
  end.

Definition failed (r : Result unit) : Prop := exists err, r = Err err.





End Dispatch.

(* ================================================================== *)
(** ** Log functions (logs/fns.ts) and the middleware (logs/middleware.ts) *)
(* ================================================================== *)

Module Fns.
Import Js Otel.

(** A log function receives a reference to a log object and may change the
    object.  The world holds the objects by reference, each with its own
    properties ([heap]) and its prototype ([prototypes]), and what the sinks
    have seen: the arguments of [console.log(JSON.stringify(obj))], the
    arguments of [queue.send], and the calls recorded by a test double
    ([mock] of bun:test). *)
Definition Ref : Type := nat.

Record World : Type := {
  heap : Ref -> Log;
  prototypes : Ref -> Prototype;
  console : list Log;
  sent : list (nat * Log);
  mock_calls : list (Ref * Log)
}.

Definition StructuredLogFunction : Type := Ref -> World -> Completion World.

Definition store (w : World) (r : Ref) (o : JsonObject * Prototype) : World :=
  {| heap := fun r' => if Nat.eqb r' r then fst o else heap w r';
     prototypes := fun r' => if Nat.eqb r' r then snd o else prototypes w r';
     console := console w; sent := sent w; mock_calls := mock_calls w |}.

(** [givenLog[key]]: the own property, or what the prototype chain gives. *)
Definition read (w : World) (r : Ref) (key : string) : JsonValue :=
  get (heap w r) (prototypes w r) key.

(** [withProperties(injected, logfn)]: [Object.assign(givenLog, injected)],
    then [logfn(givenLog)].  [injected] is the object that the closure
    captured, read when the returned function is called. *)
Definition withProperties (injected : Ref) (logfn : StructuredLogFunction)
  : StructuredLogFunction :=
  fun givenLog w =>
    logfn givenLog
      (store w givenLog
         (Object_assign (heap w givenLog) (prototypes w givenLog) (heap w injected))).

(** [givenLog[LogKey.SeverityNumber] !== LogValue.SeverityNumberDebug] fails. *)
Definition is_debug (w : World) (givenLog : Ref) : bool :=
  strict_eq_number (read w givenLog LogKey.SeverityNumber)
    (inject_Z LogValue.SeverityNumberDebug).

(** [withDebug(debugEnabled, logfn)] *)
Definition withDebug (debugEnabled : bool) (logfn : StructuredLogFunction)
  : StructuredLogFunction :=
  if debugEnabled then logfn
  else fun givenLog w =>
         if negb (is_debug w givenLog) then logfn givenLog w else Normal w.

(** [withChain(...logfns)]: the functions in order; a throw breaks the chain. *)
Fixpoint withChain (logfns : list StructuredLogFunction) : StructuredLogFunction :=
  fun givenLog w =>
    match logfns with
    | [] => Normal w
    | logfn :: rest => w' <- logfn givenLog w ;; withChain rest givenLog w'
    end.

(** [JSON.stringify] throws a [TypeError] on a bigint. *)
Fixpoint has_bigint (v : JsonValue) : bool :=
  match v with
  | JBigInt _ => true
  | JArray items => existsb has_bigint items
  | JObject props => existsb (fun kv => has_bigint (snd kv)) props
  | _ => false
  end.

(** [consoleLogger(obj)]: [JSON.stringify] writes the own properties. *)
Definition consoleLogger : StructuredLogFunction :=
  fun obj w =>
    if has_bigint (JObject (heap w obj)) then
      Throw (TypeError "JSON.stringify called on a bigint")
    else
      Normal {| heap := heap w; prototypes := prototypes w;
                console := console w ++ [heap w obj];
                sent := sent w; mock_calls := mock_calls w |}.

(** [queueLogger(queue, promiseArray)]: [promiseArray.push(queue.send(givenObj))] *)
Definition queueLogger (queue : nat) : StructuredLogFunction :=
  fun givenObj w =>
    Normal {| heap := heap w; prototypes := prototypes w; console := console w;
              sent := sent w ++ [(queue, heap w givenObj)];
              mock_calls := mock_calls w |}.

(** [mock((_: Log) => undefined)] of the unit tests: it records its call. *)
Definition mock : StructuredLogFunction :=
  fun givenLog w =>
    Normal {| heap := heap w; prototypes := prototypes w; console := console w;
              sent := sent w;
              mock_calls := mock_calls w ++ [(givenLog, heap w givenLog)] |}.

(** [SignalLogsBindings] *)
Record SignalLogsBindings : Type := {
  LOG_QUEUE : option nat;
  LOG_DEBUG : option bool
}.

(** [c.env.LOG_DEBUG === true] *)
Definition debug_enabled (env : SignalLogsBindings) : bool :=
  match LOG_DEBUG env with
  | Some true => true
  | _ => false
  end.

Definition baseLogger (env : SignalLogsBindings) : StructuredLogFunction :=
  withDebug (debug_enabled env) consoleLogger.

(** The logger that [structuredLoggerMiddleware] sets for a request. *)
Definition request_logger (env : SignalLogsBindings) : StructuredLogFunction :=
  match LOG_QUEUE env with
  | Some queue => withChain [baseLogger env; queueLogger queue]
  | None => baseLogger env
  end.

(** [withTimestamps(logfn)]: a log whose [timeUnixNano] reads [undefined]
    gets [Object.assign(givenLog, { timeUnixNano: Date.now() * 1_000_000 })].
    [now_nanos] is the value of that product at the call. *)
Definition withTimestamps (now_nanos : Q) (logfn : StructuredLogFunction)
  : StructuredLogFunction :=
  fun givenLog w =>
    match read w givenLog LogKey.TimestampUnixNano with
    | JUndefined =>
        logfn givenLog
          (store w givenLog
             (Object_assign (heap w givenLog) (prototypes w givenLog)
                [(LogKey.TimestampUnixNano, JNumber now_nanos)]))
    | _ => logfn givenLog w
    end.

(** Whether the base logger of the middleware hands the log to the console. *)
Definition reaches_console (env : SignalLogsBindings) (w : World) (givenLog : Ref)
  : bool :=
  debug_enabled env || negb (is_debug w givenLog).

End Fns.

(* ================================================================== *)
(** ** The cancellation scope (core/src/context.ts) *)
(* ================================================================== *)

Module Scope.

(** Modelled from the spec: the class [Context], of which only the unit test
    is at hand.  The spec's words: a scope is a node in a forest with a
    cancelled flag, an ordered collection of child scopes and an optional
    parent; [new(parent?)] creates a scope, registers it with its parent and
    creates it cancelled when the parent is already cancelled; [cancel()]
    marks this scope and walks the subtree below it; [done()] polls the
    flag.  A scope is named by its index in the store. *)
Record Node : Type := {
  cancelled : bool;
  children : list nat;
  parent : option nat
}.

Definition Store : Type := list Node.

Definition children_of (st : Store) (id : nat) : list nat :=
  match nth_error st id with
  | Some n => children n
  | None => []
  end.

Definition parent_of (st : Store) (id : nat) : option nat :=
  match nth_error st id with
  | Some n => parent n
  | None => None
  end.

(** [done()] *)
Definition done (st : Store) (id : nat) : bool :=
  match nth_error st id with
  | Some n => cancelled n
  | None => false
  end.

Fixpoint update (st : Store) (id : nat) (f : Node -> Node) : Store :=
  match st, id with
  | [], _ => []
  | n :: rest, O => f n :: rest
  | n :: rest, S id' => n :: update rest id' f
  end.

Definition set_cancelled (n : Node) : Node :=
  {| cancelled := true; children := children n; parent := parent n |}.

Definition add_child (c : nat) (n : Node) : Node :=
  {| cancelled := cancelled n; children := children n ++ [c]; parent := parent n |}.

Definition mark (st : Store) (id : nat) : Store := update st id set_cancelled.

Definition register (st : Store) (p c : nat) : Store := update st p (add_child c).

(** [new(parent?)]: the new store and the new scope.  [None] when the
    parent named is not a scope of the store. *)
Definition new (st : Store) (parent : option nat) : option (Store * nat) :=
  match parent with
  | None =>
      Some (st ++ [{| cancelled := false; children := []; parent := None |}], length st)
  | Some p =>
      if (p <? length st)%nat then
        Some (register st p (length st)
                ++ [{| cancelled := done st p; children := []; parent := Some p |}],
              length st)
      else None
  end.

(** The walk of [cancel()]: mark the scope, then walk each child in turn.
    [fuel] bounds the depth of the walk. *)
Fixpoint cancel_walk (fuel : nat) (st : Store) (id : nat) : Store :=
  match fuel with
  | O => st
  | S fuel' => fold_left (cancel_walk fuel') (children_of st id) (mark st id)
  end.

(** [cancel()].  A child is created after its parent, so no path below a
    scope is longer than the store. *)
Definition cancel (st : Store) (id : nat) : Store := cancel_walk (length st) st id.

(** *** Runs *)

Inductive Op : Type :=
| OpNew (parent : option nat)
| OpCancel (id : nat).

Definition step (st : Store) (op : Op) : Store :=
  match op with
  | OpNew parent =>
      match new st parent with
      | Some (st', _) => st'
      | None => st
      end
  | OpCancel id => cancel st id
  end.

(** The store after the operations [ops], from the empty store. *)
Definition replay (ops : list Op) : Store := fold_left step ops [].

(** [descendant st s d]: [d] is a transitive descendant of [s]. *)
Inductive descendant (st : Store) (s : nat) : nat -> Prop :=
| descendant_child d : parent_of st d = Some s -> descendant st s d
| descendant_more d p : parent_of st d = Some p -> descendant st s p -> descendant st s d.

(** [d] is [s] or is below [s] by the lists of children. *)
Inductive reach (st : Store) : nat -> nat -> Prop :=
| reach_self s : reach st s s
| reach_child s c d : In c (children_of st s) -> reach st c d -> reach st s d.

(** The stores that [new] and [cancel] build. *)
Record well_formed (st : Store) : Prop := {
  wf_child : forall p c, In c (children_of st p) -> p < c;
  wf_parent : forall p c, In c (children_of st p) -> parent_of st c = Some p;
  wf_registered : forall i p, parent_of st i = Some p -> In i (children_of st p);
  wf_closed : forall i p, parent_of st i = Some p -> done st p = true -> done st i = true
}.

(** [st'] has the shape of [st] and every flag set in [st]. *)
Record marks (st st' : Store) : Prop := {
  marks_length : length st' = length st;
  marks_children : forall i, children_of st' i = children_of st i;
  marks_parent : forall i, parent_of st' i = parent_of st i;
  marks_done : forall i, done st i = true -> done st' i = true
}.

End Scope.

(* ================================================================== *)
(** ** The compose handler of the end-to-end tests (compose.ts) *)
(* ================================================================== *)

Module Compose.

(** [s.split(sep)] for a separator of one character. *)
Fixpoint split_on (sep : ascii) (s : string) : list string :=
  match s with
  | EmptyString => [EmptyString]
  | String c rest =>
      if Ascii.eqb c sep then EmptyString :: split_on sep rest
      else
        match split_on sep rest with
        | [] => [String c EmptyString]
        | seg :: segs => String c seg :: segs
        end
  end.

(** [items.join(sep)] *)
Fixpoint join (sep : string) (items : list string) : string :=
  match items with
  | [] => EmptyString
  | [x] => x
  | x :: rest => (x ++ sep ++ join sep rest)%string
  end.

Definition SPACE : ascii := " "%char.

(** [process.env.COMPOSE_COMMAND ?? "podman compose"] *)
Definition DefaultComposeCommand (env_COMPOSE_COMMAND : option string) : string :=
  match env_COMPOSE_COMMAND with
  | Some command => command
  | None => "podman compose"
  end.

Record ComposeHandlerOpts : Type := {
  testName : string;
  composeCommand : option string;
  composeFile : option string
}.

Record ComposeHandler : Type := {
  h_composeCommand : string;
  h_composeFile : string;
  h_id : string;
  h_testName : string;
  h_prefix : list string;
  h_cmd : string
}.

(** The text that the constructor splits:
    [`${this.#composeCommand} -p ${this.#id} -f ${this.#composeFile}`]. *)
Definition command_line (command id file : string) : string :=
  (command ++ " -p " ++ id ++ " -f " ++ file)%string.

(** [new ComposeHandler(opts)].  [nanoid] is what [faker.string.nanoid(8)]
    returns.  [prefix[0]] and [prefix.slice(1)] are the head and the tail of
    the split, which is never empty. *)
Definition new_ComposeHandler (env_COMPOSE_COMMAND : option string) (nanoid : string)
  (opts : ComposeHandlerOpts) : ComposeHandler :=
  let command := match composeCommand opts with
                 | Some c => c
                 | None => DefaultComposeCommand env_COMPOSE_COMMAND
                 end in
  let file := match composeFile opts with
              | Some f => f
              | None => "./compose.yaml"
              end in
  let id := (testName opts ++ "-" ++ nanoid)%string in
  let prefix := split_on SPACE (command_line command id file) in
  {| h_composeCommand := command;
     h_composeFile := file;
     h_id := id;
     h_testName := testName opts;
     h_prefix := tl prefix;
     h_cmd := hd EmptyString prefix |}.

(** A substitution of a shell template: a text or an array of texts. *)
Inductive ShellExpression : Type :=
| Text (s : string)
| Items (items : list string).

(** [toAdd] for [expressions[idx] ?? ""]. *)
Definition toAdd (nextExpression : option ShellExpression) : string :=
  match nextExpression with
  | None => EmptyString
  | Some (Text s) => s
  | Some (Items items) => join " " items
  end.

(** [strings.reduce((previous, current, idx) => previous + current + toAdd, "")],
    from index [idx] on. *)
Fixpoint reduce_strings (strings : list string) (expressions : list ShellExpression)
  (idx : nat) (previous : string) : string :=
  match strings with
  | [] => previous
  | current :: rest =>
      reduce_strings rest expressions (S idx)
        (previous ++ current ++ toAdd (nth_error expressions idx))%string
  end.

(** [#printCommand(strings, ...expressions)] *)
Definition printCommand (strings : list string) (expressions : list ShellExpression)
  : string :=
  (" + " ++ reduce_strings strings expressions 0 EmptyString)%string.

(** What [up], [down] and [saveLogs] print: the template of each with its
    substitutions. *)
Definition printed_up (h : ComposeHandler) (services : list string) : string :=
  printCommand [""; " "; " up -d "; ""]
    [Text (h_cmd h); Items (h_prefix h); Items services].

Definition printed_down (h : ComposeHandler) (services : list string) : string :=
  printCommand [""; " "; " down "; ""]
    [Text (h_cmd h); Items (h_prefix h); Items services].

Definition printed_saveLogs (h : ComposeHandler) (services : list string) : string :=
  printCommand [""; " "; " logs -t -n "; " &> "; ".log"]
    [Text (h_cmd h); Items (h_prefix h); Items services; Text (h_id h)].

(** No occurrence of the character in the string. *)
Fixpoint lacks (sep : ascii) (s : string) : bool :=
  match s with
  | EmptyString => true
  | String c rest => negb (Ascii.eqb c sep) && lacks sep rest
  end.

End Compose.

(* ================================================================== *)
(** ** Facts on JavaScript values *)
(* ================================================================== *)

Module JsFacts.
Import Js.

(** *** Facts on keys and objects *)

Lemma digits_value_LF (s1 s2 : string) (acc : N) :
  digits_value (s1 ++ String LF s2)%string acc = None.
Proof.
  revert acc; induction s1 as [|c s1 IH]; intros acc; simpl.
  - reflexivity.
  - destruct (digit_of c); [apply IH | reflexivity].
Qed.

(** A key that contains a line feed is not an array index. *)
Lemma array_index_LF (s1 s2 : string) :
  array_index (s1 ++ String LF s2)%string = None.
Proof.
  unfold array_index.
  destruct (s1 ++ String LF s2)%string as [|c rest] eqn:E; [reflexivity|].
  rewrite <- E, digits_value_LF. reflexivity.
Qed.

Section ObjectFacts.
Context {V : Type}.
Implicit Types (o : list (string * V)) (k : string) (v : V).

Lemma obj_lookup_app o1 o2 k :
  obj_lookup (o1 ++ o2) k =
  match obj_lookup o1 k with Some v => Some v | None => obj_lookup o2 k end.
Proof.
  induction o1 as [|[k' v'] o1 IH]; simpl; [reflexivity|].
  destruct (String.eqb k' k); [reflexivity | apply IH].
Qed.

Lemma obj_lookup_None o k : obj_lookup o k = None <-> ~ In k (obj_keys o).
Proof.
  induction o as [|[k' v'] o IH]; simpl.
  - tauto.
  - destruct (String.eqb_spec k' k) as [->|Hne].
    + split; [discriminate | intros H; exfalso; apply H; now left].
    + rewrite IH. split; [intros H [?|?]; [congruence | tauto] | tauto].
Qed.

Lemma obj_lookup_In o k v : obj_lookup o k = Some v -> In (k, v) o.
Proof.
  induction o as [|[k' v'] o IH]; simpl; [discriminate|].
  destruct (String.eqb_spec k' k) as [->|Hne].
  - intros [= ->]. now left.
  - intros H. right. now apply IH.
Qed.

Lemma In_obj_lookup o k v :
  NoDup (obj_keys o) -> In (k, v) o -> obj_lookup o k = Some v.
Proof.
  induction o as [|[k' v'] o IH]; simpl; [tauto|].
  intros Hnd [[= -> ->]|Hin].
  - now rewrite String.eqb_refl.
  - inversion Hnd as [|? ? Hnotin Hnd']; subst.
    destruct (String.eqb_spec k' k) as [->|Hne].
    + exfalso. apply Hnotin. apply (in_map fst) in Hin. exact Hin.
    + now apply IH.
Qed.

Lemma obj_keys_replace o k v : obj_keys (obj_replace o k v) = obj_keys o.
Proof.
  induction o as [|[k' v'] o IH]; simpl; [reflexivity|].
  destruct (String.eqb k' k); simpl; [reflexivity | now rewrite IH].
Qed.

Lemma obj_lookup_replace_same o k v w :
  obj_lookup o k = Some w -> obj_lookup (obj_replace o k v) k = Some v.
Proof.
  induction o as [|[k' v'] o IH]; simpl; [discriminate|].
  destruct (String.eqb k' k) eqn:E; simpl; rewrite E; [reflexivity | exact IH].
Qed.

Lemma obj_lookup_replace_other o k k' v :
  k <> k' -> obj_lookup (obj_replace o k v) k' = obj_lookup o k'.
Proof.
  intros Hne. induction o as [|[k0 v0] o IH]; simpl; [reflexivity|].
  destruct (String.eqb_spec k0 k) as [->|Hne0]; simpl.
  - destruct (String.eqb_spec k k'); [contradiction | reflexivity].
  - destruct (String.eqb k0 k'); [reflexivity | exact IH].
Qed.

Lemma obj_replace_absent o k v : obj_lookup o k = None -> obj_replace o k v = o.
Proof.
  induction o as [|[k' v'] o IH]; simpl; [reflexivity|].
  destruct (String.eqb k' k); [discriminate | intros H; now rewrite IH].
Qed.

Lemma obj_replace_app_new o k v w :
  obj_lookup o k = None -> obj_replace (o ++ [(k, w)]) k v = o ++ [(k, v)].
Proof.
  induction o as [|[k' v'] o IH]; simpl.
  - now rewrite String.eqb_refl.
  - destruct (String.eqb k' k); [discriminate | intros H; now rewrite IH].
Qed.

Lemma obj_lookup_insert_index_same o n k v :
  obj_lookup o k = None -> obj_lookup (obj_insert_index o n k v) k = Some v.
Proof.
  induction o as [|[k' v'] o IH]; simpl.
  - now rewrite String.eqb_refl.
  - destruct (String.eqb k' k) eqn:E; [discriminate|]. intros H.
    destruct (array_index k') as [m|]; [destruct (m <? n)%N|]; simpl;
      rewrite ?E, ?String.eqb_refl; auto.
Qed.

Lemma obj_lookup_insert_index_other o n k k' v :
  k <> k' -> obj_lookup (obj_insert_index o n k v) k' = obj_lookup o k'.
Proof.
  intros Hne. apply String.eqb_neq in Hne.
  induction o as [|[k0 v0] o IH]; simpl.
  - now rewrite Hne.
  - destruct (array_index k0) as [m|]; [destruct (m <? n)%N|]; simpl;
      rewrite ?Hne; try reflexivity.
    destruct (String.eqb k0 k'); [reflexivity | exact IH].
Qed.

(** Reading back the property just written. *)
Lemma obj_lookup_set_same o k v : obj_lookup (obj_set o k v) k = Some v.
Proof.
  unfold obj_set. destruct (obj_lookup o k) as [w|] eqn:E.
  - now apply obj_lookup_replace_same with w.
  - destruct (array_index k) as [n|].
    + now apply obj_lookup_insert_index_same.
    + rewrite obj_lookup_app, E. simpl. now rewrite String.eqb_refl.
Qed.

(** Writing a property leaves the others as they were. *)
Lemma obj_lookup_set_other o k k' v :
  k <> k' -> obj_lookup (obj_set o k v) k' = obj_lookup o k'.
Proof.
  intros Hne. unfold obj_set. destruct (obj_lookup o k) as [w|] eqn:E.
  - now apply obj_lookup_replace_other.
  - destruct (array_index k) as [n|].
    + now apply obj_lookup_insert_index_other.
    + rewrite obj_lookup_app. simpl.
      apply String.eqb_neq in Hne. rewrite Hne.
      now destruct (obj_lookup o k').
Qed.

End ObjectFacts.

Lemma split_lines_nonempty (s : string) : split_lines s <> [].
Proof.
  destruct s as [|c s]; simpl; [discriminate|].
  destruct (Ascii.eqb c LF); [discriminate|].
  destruct (split_lines s); discriminate.
Qed.

End JsFacts.

(* ================================================================== *)
(** ** Properties of the OTLP mapper *)
(* ================================================================== *)

Module OtelFacts.
Import Js JsFacts Otel.

(** *** The conversion of values *)

Lemma JsonValue_nested_ind (P : JsonValue -> Prop) :
  P JNull -> P JUndefined -> (forall d, P (JSymbol d)) -> (forall n, P (JBigInt n)) ->
  (forall s, P (JString s)) -> (forall b, P (JBool b)) -> (forall x, P (JNumber x)) ->
  (forall items, Forall P items -> P (JArray items)) ->
  (forall props, Forall (fun kv => P (snd kv)) props -> P (JObject props)) ->
  forall v, P v.
Proof.
  intros HN HU HS HB HStr HBool HNum HA HO.
  fix IH 1.
  intros [ | | d | n | s | b | x | items | props ];
    [exact HN | exact HU | apply HS | apply HB | apply HStr | apply HBool | apply HNum | | ].
  - apply HA. induction items as [|i items IHi]; constructor; [apply IH | exact IHi].
  - apply HO. induction props as [|kv props IHp]; constructor; [apply IH | exact IHp].
Qed.




(** The only exception that a conversion throws is the [TypeError] of
    [Object.keys(null)]. *)
Lemma array_loop_throws convert v rest values t :
  array_loop convert v rest values = Throw t ->
  Exists (fun x => convert x = Throw t) rest.
Proof.
  revert values; induction rest as [|x rest IH]; intros values; simpl; [discriminate|].
  destruct (convert x) as [[a|e]|t'] eqn:E.
  - intros H. right. eapply IH; eauto.
  - discriminate.
  - intros [= ->]. now left.
Qed.

Lemma kvlist_loop_throws convert v rest kvs0 t :
  kvlist_loop convert v rest kvs0 = Throw t ->
  Exists (fun kv => convert (snd kv) = Throw t) rest.
Proof.
  revert kvs0; induction rest as [|x rest IH]; intros kvs0; simpl; [discriminate|].
  destruct (convert (snd x)) as [[a|e]|t'] eqn:E.
  - intros H. right. eapply IH; eauto.
  - discriminate.
  - intros [= ->]. now left.
Qed.

Lemma toAnyValue_throws (v : JsonValue) (t : Thrown) :
  toAnyValue v = Throw t -> t = null_to_object /\ null_free v = false.
Proof.
  induction v as [ | | d | n | s | b | x | items IH | props IH ]
    using JsonValue_nested_ind; simpl; try discriminate.
  - intros [= <-]. auto.
  - destruct (Number_isInteger x); discriminate.
  - intros H. apply array_loop_throws in H. rewrite Exists_exists in H.
    destruct H as [y [Hy Ht]]. rewrite Forall_forall in IH.
    destruct (IH y Hy Ht) as [-> Hnf]. split; [reflexivity|].
    destruct (forallb null_free items) eqn:E; [|reflexivity].
    rewrite forallb_forall in E. rewrite (E y Hy) in Hnf. discriminate.
  - intros H. apply kvlist_loop_throws in H. rewrite Exists_exists in H.
    destruct H as [y [Hy Ht]]. rewrite Forall_forall in IH.
    destruct (IH y Hy Ht) as [-> Hnf]. split; [reflexivity|].
    destruct (forallb (fun kv => null_free (snd kv)) props) eqn:E; [|reflexivity].
    rewrite forallb_forall in E. rewrite (E y Hy) in Hnf. discriminate.
Qed.

(** *** The body loop *)

Lemma body_step_spec (log : Log) (st : BodyState) (kv : string * JsonValue) :
  match body_step log st kv with
  | Normal st' =>
      kvs st' = kvs st ++ body_entry kv
      /\ sunk st' = sunk st ++ dropped_entry log kv
      /\ dropped st' = (dropped st + Z.of_nat (length (dropped_entry log kv)))%Z
  | Throw t => throws t kv
  end.
Proof.
  destruct kv as [key value].
  unfold body_step, body_entry, dropped_entry, throws; cbn [fst snd].
  destruct (skipped_key key).
  - rewrite !app_nil_r. cbn [length]. repeat split; lia.
  - destruct (toAnyValue value) as [[a|e]|t]; cbn [bind kvs sunk dropped length];
      rewrite ?app_nil_r; repeat split; lia.
Qed.

Lemma body_loop_spec (log : Log) (props : list (string * JsonValue)) (st : BodyState) :
  match body_loop log props st with
  | Normal st' =>
      kvs st' = kvs st ++ flat_map body_entry props
      /\ sunk st' = sunk st ++ dropped_calls log props
      /\ dropped st' = (dropped st + Z.of_nat (length (dropped_calls log props)))%Z
  | Throw t => Exists (throws t) props
  end.
Proof.
  revert st; induction props as [|kv rest IH]; intros st.
  - simpl. rewrite !app_nil_r. repeat split; lia.
  - cbn [body_loop]. pose proof (body_step_spec log st kv) as Hstep.
    destruct (body_step log st kv) as [st1|t]; cbn [bind].
    + specialize (IH st1). destruct (body_loop log rest st1) as [st'|t].
      * destruct Hstep as (Hk & Hs & Hd). destruct IH as (-> & -> & ->).
        rewrite Hk, Hs, Hd. unfold dropped_calls. cbn [flat_map].
        rewrite <- !app_assoc, length_app. repeat split; lia.
      * now right.
    + now left.
Qed.

Lemma log_record_spec (now_nanos : Q) (log : Log) :
  log_record now_nanos log = Normal (record_of now_nanos log, dropped_calls log log)
  \/ exists t, log_record now_nanos log = Throw t /\ Exists (throws t) log.
Proof.
  unfold log_record.
  pose proof (body_loop_spec log log {| dropped := 0; kvs := []; sunk := [] |}) as H.
  destruct (body_loop log log _) as [st'|t]; cbn [bind].
  - left. cbn [kvs sunk dropped] in H. destruct H as (Hk & Hs & Hd).
    unfold record_of, body_of. cbn [app] in Hk, Hs. rewrite Hk, Hs, Hd. reflexivity.
  - right. eauto.
Qed.

(** *** Which values convert, and to what *)

Lemma array_loop_ok convert v rest :
  forall values a,
  array_loop convert v rest values = Normal (Ok a) ->
  exists more, a = arrayValue (values ++ more)
               /\ Forall2 (fun x y => convert x = Normal (Ok y)) rest more.
Proof.
  induction rest as [|x rest IH]; intros values a; simpl.
  - intros [= <-]. exists []. rewrite app_nil_r. auto.
  - destruct (convert x) as [[y|e]|t] eqn:E; try discriminate.
    intros H. destruct (IH _ _ H) as [more [-> HF]].
    exists (y :: more). rewrite <- app_assoc. auto.
Qed.

Lemma kvlist_loop_ok convert v rest :
  forall kvs0 a,
  kvlist_loop convert v rest kvs0 = Normal (Ok a) ->
  exists more, a = kvlistValue (kvs0 ++ more)
               /\ Forall2 (fun kv ka => fst ka = fst kv
                                        /\ convert (snd kv) = Normal (Ok (snd ka)))
                          rest more.
Proof.
  induction rest as [|x rest IH]; intros kvs0 a; simpl.
  - intros [= <-]. exists []. rewrite app_nil_r. auto.
  - destruct (convert (snd x)) as [[y|e]|t] eqn:E; try discriminate.
    intros H. destruct (IH _ _ H) as [more [-> HF]].
    exists ((fst x, y) :: more). rewrite <- app_assoc. auto.
Qed.

Lemma array_loop_all_ok convert v rest :
  Forall (fun x => exists y, convert x = Normal (Ok y)) rest ->
  forall values, exists a, array_loop convert v rest values = Normal (Ok a).
Proof.
  induction 1 as [|x rest [y Hy] _ IH]; intros values; simpl; [eauto|].
  rewrite Hy. apply IH.
Qed.

Lemma kvlist_loop_all_ok convert v rest :
  Forall (fun kv => exists y, convert (snd kv) = Normal (Ok y)) rest ->
  forall kvs0, exists a, kvlist_loop convert v rest kvs0 = Normal (Ok a).
Proof.
  induction 1 as [|x rest [y Hy] _ IH]; intros kvs0; simpl; [eauto|].
  rewrite Hy. apply IH.
Qed.

Lemma toAnyValue_left_inverse (v : JsonValue) :
  forall a, toAnyValue v = Normal (Ok a) -> fromAnyValue a = v.
Proof.
  induction v as [ | | d | n | s | b | x | items IH | props IH ]
    using JsonValue_nested_ind; simpl; intros a; try discriminate.
  - now intros [= <-].
  - now intros [= <-].
  - destruct (Number_isInteger x); now intros [= <-].
  - intros H. apply array_loop_ok in H. destruct H as [more [-> HF]].
    cbn [app fromAnyValue]. f_equal.
    induction HF as [|x y rest more Hxy _ IHF]; [reflexivity|].
    inversion IH as [|? ? Hx Hrest]; subst. cbn [map].
    rewrite (Hx _ Hxy), (IHF Hrest). reflexivity.
  - intros H. apply kvlist_loop_ok in H. destruct H as [more [-> HF]].
    cbn [app fromAnyValue]. f_equal.
    induction HF as [|x y rest more [Hk Hxy] _ IHF]; [reflexivity|].
    inversion IH as [|? ? Hx Hrest]; subst. cbn [map].
    rewrite (Hx _ Hxy), (IHF Hrest), Hk. now destruct x.
Qed.

(** X2: [toAnyValue] loses nothing: two values that convert to the same
    [AnyValue] are the same value (same kinds, same numbers, same keys in
    the same order). *)
Theorem toAnyValue_injective (v1 v2 : JsonValue) (a : AnyValue) :
  toAnyValue v1 = Normal (Ok a) -> toAnyValue v2 = Normal (Ok a) -> v1 = v2.
Proof.
  intros H1 H2. rewrite <- (toAnyValue_left_inverse _ _ H1).
  now apply toAnyValue_left_inverse.
Qed.

Lemma toAnyValue_injective_witness :
  let v := JArray [JNumber 1; JObject [("k", JString "a")]] in
  let a := arrayValue [intValue 1; kvlistValue [("k", stringValue "a")]] in
  toAnyValue v = Normal (Ok a) /\ v = v.
Proof.
  cbv zeta. split; [reflexivity|].
  apply (toAnyValue_injective
           (JArray [JNumber 1; JObject [("k", JString "a")]])
           (JArray [JNumber 1; JObject [("k", JString "a")]])
           (arrayValue [intValue 1; kvlistValue [("k", stringValue "a")]]));
    reflexivity.
Defined.

(** X1: [toAnyValue] returns an [AnyValue] exactly for the supported values:
    strings, booleans, numbers, and the arrays and objects whose members are
    all supported.  For every other value it returns an error or throws. *)
Theorem toAnyValue_ok_iff_supported (v : JsonValue) :
  (exists a, toAnyValue v = Normal (Ok a)) <-> supported v = true.
Proof.
  induction v as [ | | d | n | s | b | x | items IH | props IH ]
    using JsonValue_nested_ind; simpl.
  - split; [intros [a H]|]; discriminate.
  - split; [intros [a H]|]; discriminate.
  - split; [intros [a H]|]; discriminate.
  - split; [intros [a H]|]; discriminate.
  - split; eauto.
  - split; eauto.
  - split; [auto|]. intros _. destruct (Number_isInteger x); eauto.
  - rewrite forallb_forall. rewrite Forall_forall in IH. split.
    + intros [a H] x Hx. apply array_loop_ok in H. destruct H as [more [_ HF]].
      apply IH; [exact Hx|].
      clear IH. induction HF as [|x0 y rest more Hxy _ IHF]; [destruct Hx|].
      destruct Hx as [->|Hx]; eauto.
    + intros H. apply array_loop_all_ok. apply Forall_forall.
      intros x Hx. apply IH; auto.
  - rewrite forallb_forall. rewrite Forall_forall in IH. split.
    + intros [a H] x Hx. apply kvlist_loop_ok in H. destruct H as [more [_ HF]].
      apply IH; [exact Hx|].
      clear IH. induction HF as [|x0 y rest more [_ Hxy] _ IHF]; [destruct Hx|].
      destruct Hx as [->|Hx]; eauto.
    + intros H. apply kvlist_loop_all_ok. apply Forall_forall.
      intros x Hx. apply IH; auto.
Qed.

(** *** Texts *)

Lemma join_loop_spec (text : JsonValue -> Completion string) (items : list JsonValue) :
  Forall (fun x => if has_text x then exists s, text x = Normal s
                   else exists t, text x = Throw t) items ->
  forall (first : bool) (R : string),
  if forallb (fun x => nullish x || has_text x) items
  then exists s, join_loop text items first R = Normal s
  else exists t, join_loop text items first R = Throw t.
Proof.
  induction 1 as [|x rest Hx _ IH]; intros first R; cbn [forallb join_loop].
  - eauto.
  - destruct (nullish x) eqn:Hn; cbn [orb andb bind].
    + apply IH.
    + destruct (has_text x); cbn [andb].
      * destruct Hx as [s ->]. cbn [bind]. apply IH.
      * destruct Hx as [t ->]. cbn [bind]. eauto.
Qed.

(** [ToString] returns exactly on the values that have a text. *)
Lemma ToString_spec (number_text : Q -> string) (v : JsonValue) :
  if has_text v then exists s, ToString number_text v = Normal s
  else exists t, ToString number_text v = Throw t.
Proof.
  induction v as [ | | d | n | s | b | x | items IH | props IH ]
    using JsonValue_nested_ind; cbn [has_text ToString]; eauto.
  - now apply join_loop_spec.
  - destruct (obj_lookup props "toString"); eauto.
Qed.

Lemma resourceKey_of_spec (h : Host) (log : Log) :
  if coerces log then resourceKey_of h log = Normal (key_text h log)
  else exists t, resourceKey_of h log = Throw t.
Proof.
  unfold coerces, resourceKey_of, key_text, name_text, version_text,
    serviceName_of, serviceVersion_of.
  pose proof (ToString_spec (number_text h)
                (coalesce (js_get log LogKey.ServiceName) (JString "unknown"))) as Hn.
  pose proof (ToString_spec (number_text h)
                (coalesce (js_get log LogKey.ServiceVersion) (JString "0.0.0-unknown")))
    as Hv.
  destruct (has_text (coalesce (js_get log LogKey.ServiceName) (JString "unknown")));
    cbn [andb].
  - destruct Hn as [a ->]. cbn [bind returned].
    destruct (has_text (coalesce (js_get log LogKey.ServiceVersion)
                          (JString "0.0.0-unknown"))).
    + destruct Hv as [b ->]. reflexivity.
    + destruct Hv as [t ->]. cbn [bind]. eauto.
  - destruct Hn as [t ->]. cbn [bind]. eauto.
Qed.

Lemma resourceKey_of_joined (h : Host) (log : Log) (key : string) :
  resourceKey_of h log = Normal key -> key = key_text h log /\ coerces log = true.
Proof.
  intros H. pose proof (resourceKey_of_spec h log) as Hs.
  destruct (coerces log); [|destruct Hs as [t Ht]; congruence].
  split; [congruence | reflexivity].
Qed.

(** *** Grouping *)

Lemma key_text_not_index (h : Host) (log : Log) :
  array_index (key_text h log) = None.
Proof. apply array_index_LF. Qed.

(** One turn of the first loop files the record of the log under its key,
    unless the key has no text or a conversion throws. *)
Lemma group_step_spec (h : Host) (observed : nat -> Q) (i : nat) (log : Log)
  (g : ByResource) (calls : list LogCall) :
  group_step h observed i log (g, calls) =
  match resourceKey_of h log with
  | Throw t => Throw t
  | Normal _ =>
      match log_record (observed i) log with
      | Normal (r, calls') => Normal (add_record g (key_text h log, r), calls ++ calls')
      | Throw t => Throw t
      end
  end.
Proof.
  unfold group_step, add_record; cbn [fst snd].
  destruct (resourceKey_of h log) as [key|t] eqn:K; cbn [bind]; [|reflexivity].
  apply resourceKey_of_joined in K. destruct K as [-> _].
  destruct (log_record (observed i) log) as [[r calls']|t]; cbn [bind]; [|reflexivity].
  destruct (obj_lookup g (key_text h log)) as [records|] eqn:E.
  - unfold obj_set. now rewrite E.
  - assert (Hnew : obj_set g (key_text h log) ([] : list LogRecord)
                   = g ++ [(key_text h log, [])]).
    { unfold obj_set. now rewrite E, key_text_not_index. }
    rewrite Hnew.
    assert (Hl : obj_lookup (g ++ [(key_text h log, [])]) (key_text h log)
                 = Some ([] : list LogRecord)).
    { rewrite obj_lookup_app, E. cbn [obj_lookup]. now rewrite String.eqb_refl. }
    rewrite Hl. unfold obj_set. rewrite Hl. cbn [app].
    now rewrite obj_replace_app_new.
Qed.

Lemma body_loop_no_throw (log : Log) (props : list (string * JsonValue)) :
  forall st st', body_loop log props st = Normal st' ->
  Forall (fun kv => forall t, ~ throws t kv) props.
Proof.
  induction props as [|kv rest IH]; intros st st' H; [constructor|].
  cbn [body_loop] in H.
  pose proof (body_step_spec log st kv) as Hstep.
  destruct (body_step log st kv) as [st1|t] eqn:E; cbn [bind] in H; [|discriminate].
  constructor; [|eapply IH; eauto].
  intros t [Hs Ht]. unfold body_step in E. destruct kv as [k v]; cbn [fst snd] in *.
  rewrite Hs, Ht in E. discriminate.
Qed.

(** The record of a log is built exactly when no conversion throws. *)
Lemma log_record_cases (now_nanos : Q) (log : Log) :
  (converts log = true
   /\ log_record now_nanos log = Normal (record_of now_nanos log, dropped_calls log log))
  \/ (converts log = false /\ exists t, log_record now_nanos log = Throw t).
Proof.
  destruct (log_record_spec now_nanos log) as [H | [t [H Hex]]].
  - left. split; [|exact H].
    assert (Hnt : Forall (fun kv => forall t, ~ throws t kv) log).
    { unfold log_record in H.
      destruct (body_loop log log {| dropped := 0; kvs := []; sunk := [] |}) as [st'|t] eqn:E;
        [|discriminate].
      eapply body_loop_no_throw; eauto. }
    unfold converts. apply forallb_forall. intros kv Hkv.
    rewrite Forall_forall in Hnt. specialize (Hnt kv Hkv).
    destruct (skipped_key (fst kv)) eqn:Hs; [reflexivity|]. cbn [orb].
    destruct (toAnyValue (snd kv)) as [r|t] eqn:Hv; [reflexivity|].
    exfalso. apply (Hnt t). split; assumption.
  - right. split; [|eauto].
    rewrite Exists_exists in Hex. destruct Hex as [kv [Hkv [Hs Ht]]].
    unfold converts. destruct (forallb _ log) eqn:E; [|reflexivity].
    rewrite forallb_forall in E. specialize (E kv Hkv).
    rewrite Hs, Ht in E. discriminate.
Qed.

(** The first loop gets through the batch exactly when every log has its
    key and its record. *)
Lemma group_loop_spec (h : Host) (observed : nat -> Q) (logs : list Log) :
  forall (i : nat) (g : ByResource) (calls : list LogCall),
  (forallb mappable logs = true
   /\ group_loop h observed i logs (g, calls) =
      Normal (fold_left add_record (keyed h observed i logs) g,
              calls ++ flat_map (fun l => dropped_calls l l) logs))
  \/ (forallb mappable logs = false
      /\ exists t, group_loop h observed i logs (g, calls) = Throw t).
Proof.
  induction logs as [|log rest IH]; intros i g calls.
  - left. simpl. now rewrite app_nil_r.
  - cbn [group_loop forallb]. rewrite group_step_spec. unfold mappable at 1 3.
    pose proof (resourceKey_of_spec h log) as Hk.
    destruct (coerces log); cbn [andb].
    + rewrite Hk.
      destruct (log_record_cases (observed i) log) as [[Hc Hr] | [Hc [t Hr]]];
        rewrite Hc, Hr; cbn [bind andb].
      * destruct (IH (S i) (add_record g (key_text h log, record_of (observed i) log))
                    (calls ++ dropped_calls log log)) as [[Hm Hn] | [Hm [t Ht]]].
        -- left. split; [exact Hm|]. rewrite Hn. cbn [keyed fold_left flat_map].
           now rewrite <- app_assoc.
        -- right. split; [exact Hm | eauto].
      * right. split; [reflexivity | eauto].
    + destruct Hk as [t ->]. cbn [bind]. right. split; [reflexivity | eauto].
Qed.

Lemma keyed_keys (h : Host) (observed : nat -> Q) (logs : list Log) (i : nat) :
  map fst (keyed h observed i logs) = map (key_text h) logs.
Proof.
  revert i; induction logs as [|log rest IH]; intros i; simpl; [reflexivity|].
  now rewrite IH.
Qed.

Lemma grouped_snoc (m : list (string * LogRecord)) (p : string * LogRecord) (k : string) :
  grouped (m ++ [p]) k =
  if String.eqb (fst p) k then grouped m k ++ [snd p] else grouped m k.
Proof.
  unfold grouped. rewrite filter_app, map_app. cbn [filter].
  destruct (String.eqb (fst p) k); cbn [map]; [reflexivity | now rewrite app_nil_r].
Qed.

Lemma grouped_nonempty (m : list (string * LogRecord)) (k : string) :
  In k (map fst m) -> grouped m k <> [].
Proof.
  unfold grouped. induction m as [|[k' r] m IH]; simpl; [tauto|].
  intros [->|Hin].
  - now rewrite String.eqb_refl.
  - destruct (String.eqb k' k); [discriminate | now apply IH].
Qed.

Lemma add_record_inv (g : ByResource) (m : list (string * LogRecord))
  (p : string * LogRecord) :
  groups_inv g m -> groups_inv (add_record g p) (m ++ [p]).
Proof.
  intros (Hnd & Hkeys & Hrec). destruct p as [k r]. unfold add_record; cbn [fst snd].
  destruct (obj_lookup g k) as [records|] eqn:E.
  - assert (Hin : In k (obj_keys g)).
    { apply obj_lookup_In in E. apply (in_map fst) in E. exact E. }
    repeat split.
    + now rewrite obj_keys_replace.
    + rewrite obj_keys_replace, map_app, in_app_iff, Hkeys. tauto.
    + rewrite obj_keys_replace, map_app, in_app_iff, Hkeys. simpl.
      intros [?|[<-|[]]]; [assumption | now apply Hkeys].
    + intros k' records' Hl. rewrite grouped_snoc; cbn [fst snd].
      destruct (String.eqb_spec k k') as [<-|Hne].
      * rewrite (obj_lookup_replace_same _ _ _ _ E) in Hl. injection Hl as <-.
        now rewrite (Hrec _ _ E).
      * rewrite obj_lookup_replace_other in Hl by assumption. now apply Hrec.
  - assert (Hnotin : ~ In k (obj_keys g)) by now apply obj_lookup_None.
    repeat split.
    + unfold obj_keys. rewrite map_app. cbn [map fst].
      apply NoDup_app; [exact Hnd | repeat constructor; simpl; tauto |].
      intros x Hx [<-|[]]. contradiction.
    + unfold obj_keys. rewrite !map_app, !in_app_iff. cbn [map fst].
      intros [?|?]; [left; now apply Hkeys | now right].
    + unfold obj_keys. rewrite !map_app, !in_app_iff. cbn [map fst].
      intros [?|?]; [left; now apply Hkeys | now right].
    + intros k' records' Hl. rewrite grouped_snoc; cbn [fst snd].
      rewrite obj_lookup_app in Hl.
      destruct (String.eqb_spec k k') as [<-|Hne].
      * rewrite E in Hl. cbn [obj_lookup] in Hl. rewrite String.eqb_refl in Hl.
        injection Hl as <-.
        assert (Hg : grouped m k = []).
        { unfold grouped. clear - Hnotin Hkeys.
          assert (Hm : ~ In k (map fst m)) by (intros H; now apply Hnotin, Hkeys).
          clear Hnotin Hkeys. induction m as [|[k0 r0] m IH]; simpl in *; [reflexivity|].
          destruct (String.eqb_spec k0 k); [exfalso; apply Hm; now left|].
          apply IH. tauto. }
        now rewrite Hg.
      * destruct (obj_lookup g k') as [x|] eqn:E'.
        -- injection Hl as <-. now apply Hrec.
        -- cbn [obj_lookup] in Hl. apply String.eqb_neq in Hne. rewrite Hne in Hl.
           discriminate.
Qed.

Lemma fold_add_record_inv (m' : list (string * LogRecord)) :
  forall (g : ByResource) (m : list (string * LogRecord)),
  groups_inv g m -> groups_inv (fold_left add_record m' g) (m ++ m').
Proof.
  induction m' as [|p m' IH]; intros g m H; simpl.
  - now rewrite app_nil_r.
  - replace (m ++ p :: m') with ((m ++ [p]) ++ m') by now rewrite <- app_assoc.
    apply IH. now apply add_record_inv.
Qed.

Lemma groups_of_inv (m : list (string * LogRecord)) : groups_inv (groups_of m) m.
Proof.
  apply (fold_add_record_inv m [] []). repeat split; simpl; try tauto.
  - constructor.
  - discriminate.
Qed.

Lemma lookup_closed_form {V : Type} (f : string -> V) (g : list (string * V)) :
  NoDup (obj_keys g) ->
  (forall k v, obj_lookup g k = Some v -> v = f k) ->
  g = map (fun k => (k, f k)) (obj_keys g).
Proof.
  induction g as [|[k0 v0] g IH]; intros Hnd Hf; simpl; [reflexivity|].
  inversion Hnd as [|? ? Hnotin Hnd']; subst.
  f_equal.
  - f_equal. apply Hf. simpl. now rewrite String.eqb_refl.
  - apply IH; [exact Hnd'|]. intros k v Hl. apply Hf. simpl.
    destruct (String.eqb_spec k0 k) as [->|Hne]; [|exact Hl].
    exfalso. apply Hnotin. apply obj_lookup_In in Hl. apply (in_map fst) in Hl. exact Hl.
Qed.

Lemma emit_loop_keys (h : Host) (f : string -> list LogRecord) (keys : list string) :
  (forall k, In k keys -> f k <> []) ->
  emit_loop h (map (fun k => (k, f k)) keys) = map (fun k => resource_log h k (f k)) keys.
Proof.
  induction keys as [|k keys IH]; intros H; simpl; [reflexivity|].
  destruct (f k) as [|r rs] eqn:E.
  - exfalso. apply (H k); [now left | exact E].
  - simpl. rewrite <- E. f_equal. apply IH. intros k' Hk'. apply H. now right.
Qed.

Lemma first_seen_ext (l : list string) :
  forall s1 s2, (forall x, In x s1 <-> In x s2) -> first_seen s1 l = first_seen s2 l.
Proof.
  induction l as [|k l IH]; intros s1 s2 H; simpl; [reflexivity|].
  assert (E : existsb (String.eqb k) s1 = existsb (String.eqb k) s2).
  { apply eq_true_iff_eq. rewrite !existsb_exists.
    split; intros [x [Hx Hk]]; exists x; (split; [now apply H | exact Hk]). }
  rewrite E. destruct (existsb (String.eqb k) s2).
  - now apply IH.
  - f_equal. apply IH. intros x. simpl. rewrite H. tauto.
Qed.

Lemma existsb_eqb_In (k : string) (l : list string) :
  existsb (String.eqb k) l = true <-> In k l.
Proof.
  rewrite existsb_exists. split.
  - intros [x [Hx E]]. apply String.eqb_eq in E. now subst.
  - intros H. exists k. split; [exact H | apply String.eqb_refl].
Qed.

Lemma groups_keys_order (m : list (string * LogRecord)) :
  forall g : ByResource,
  obj_keys (fold_left add_record m g) = obj_keys g ++ first_seen (obj_keys g) (map fst m).
Proof.
  induction m as [|p m IH]; intros g; simpl.
  - now rewrite app_nil_r.
  - rewrite IH. unfold add_record.
    destruct (obj_lookup g (fst p)) as [records|] eqn:E.
    + rewrite obj_keys_replace.
      assert (Hin : existsb (String.eqb (fst p)) (obj_keys g) = true).
      { apply existsb_eqb_In. apply obj_lookup_In in E. apply (in_map fst) in E. exact E. }
      now rewrite Hin.
    + assert (Hnot : existsb (String.eqb (fst p)) (obj_keys g) = false).
      { destruct (existsb (String.eqb (fst p)) (obj_keys g)) eqn:X; [|reflexivity].
        apply existsb_eqb_In in X. apply obj_lookup_None in E. contradiction. }
      rewrite Hnot. unfold obj_keys at 1 2. rewrite map_app. cbn [map fst].
      rewrite <- app_assoc. cbn [app]. do 2 f_equal.
      apply first_seen_ext. intros x. rewrite in_app_iff. simpl. unfold obj_keys. tauto.
Qed.

Lemma first_seen_spec (l : list string) :
  forall seen,
  NoDup (first_seen seen l)
  /\ forall k, In k (first_seen seen l) <-> In k l /\ ~ In k seen.
Proof.
  induction l as [|x l IH]; intros seen; simpl.
  - split; [constructor | tauto].
  - destruct (existsb (String.eqb x) seen) eqn:E.
    + destruct (IH seen) as [Hnd Hin]. split; [exact Hnd|].
      apply existsb_eqb_In in E. intros k. rewrite Hin.
      split; [tauto|]. intros [[<-|H] Hn]; [contradiction | tauto].
    + destruct (IH (x :: seen)) as [Hnd Hin]. split.
      * constructor; [|exact Hnd]. rewrite Hin. simpl. tauto.
      * assert (Hx : ~ In x seen).
        { intros H. apply existsb_eqb_In in H. congruence. }
        intros k. simpl. rewrite Hin. simpl.
        destruct (string_dec x k) as [->|Hne]; tauto.
Qed.

(** The whole mapper: either some log has no key or no record, or the
    request has one entry for each grouping key of the batch, in the order
    in which the keys first occur, holding the records of that key in input
    order. *)
Lemma logsToExportRequest_spec (h : Host) (observed : nat -> Q) (logs : list Log) :
  (forallb mappable logs = true
   /\ logsToExportRequest h observed logs =
      Normal ({| resourceLogs :=
                   map (fun k => resource_log h k (grouped (keyed h observed 0 logs) k))
                       (first_seen [] (map (key_text h) logs)) |},
              flat_map (fun l => dropped_calls l l) logs))
  \/ (forallb mappable logs = false
      /\ exists t, logsToExportRequest h observed logs = Throw t).
Proof.
  unfold logsToExportRequest.
  destruct (group_loop_spec h observed logs 0 [] []) as [[Hm Hn] | [Hm [t Ht]]];
    unfold ByResource in *.
  - left. split; [exact Hm|]. rewrite Hn. cbn [bind app]. do 3 f_equal.
    set (m := keyed h observed 0 logs).
    destruct (groups_of_inv m) as (Hnd & Hkeys & Hrec).
    change (fold_left add_record m []) with (groups_of m).
    pose proof (lookup_closed_form (grouped m) (groups_of m) Hnd Hrec) as Hcf.
    rewrite Hcf at 1. rewrite emit_loop_keys.
    + unfold groups_of. rewrite groups_keys_order. cbn [obj_keys map app].
      unfold m. now rewrite keyed_keys.
    + intros k Hk. apply grouped_nonempty. now apply Hkeys.
  - right. split; [exact Hm|]. exists t. now rewrite Ht.
Qed.

(** The keys of the entries: each key of the batch once. *)
Lemma first_keys_spec (h : Host) (logs : list Log) :
  NoDup (first_seen [] (map (key_text h) logs))
  /\ forall k, In k (first_seen [] (map (key_text h) logs))
               <-> In k (map (key_text h) logs).
Proof.
  destruct (first_seen_spec (map (key_text h) logs) []) as [Hnd Hin].
  split; [exact Hnd|]. intros k. rewrite Hin. simpl. tauto.
Qed.

(** *** When the mapper gets through a batch *)

Lemma supported_converts (v : JsonValue) :
  supported v = true -> exists a, toAnyValue v = Normal (Ok a).
Proof.
  induction v as [ | | d | n | s | b | x | items IH | props IH ]
    using JsonValue_nested_ind; simpl; try discriminate; eauto.
  - intros _. destruct (Number_isInteger x); eauto.
  - rewrite forallb_forall. rewrite Forall_forall in IH. intros H.
    apply array_loop_all_ok. apply Forall_forall. intros x Hx. apply IH; auto.
  - rewrite forallb_forall. rewrite Forall_forall in IH. intros H.
    apply kvlist_loop_all_ok. apply Forall_forall. intros x Hx. apply IH; auto.
Qed.

(** A log whose converted properties are all supported has its record, and
    the record is built without a call to [localLogFn]. *)
Lemma fully_supported_converts (log : Log) :
  fully_supported log = true -> converts log = true /\ dropped_calls log log = [].
Proof.
  unfold fully_supported, converted_props, converts, dropped_calls. intros H.
  rewrite forallb_forall in H. split.
  - apply forallb_forall. intros kv Hkv.
    destruct (skipped_key (fst kv)) eqn:Hs; [reflexivity|]. cbn [orb].
    destruct (supported_converts (snd kv)) as [a ->]; [|reflexivity].
    apply H. apply filter_In. split; [exact Hkv | now rewrite Hs].
  - assert (Hall : forall props, (forall kv, In kv props -> In kv log) ->
                                 flat_map (dropped_entry log) props = []).
    { induction props as [|kv props IHp]; intros Hsub; [reflexivity|].
      cbn [flat_map]. rewrite IHp by (intros kv' Hkv'; apply Hsub; now right).
      rewrite app_nil_r. unfold dropped_entry.
      destruct (skipped_key (fst kv)) eqn:Hs; [reflexivity|].
      destruct (supported_converts (snd kv)) as [a ->]; [|reflexivity].
      apply H. apply filter_In. split; [apply Hsub; now left | now rewrite Hs]. }
    apply Hall. auto.
Qed.


(** When the mapper throws, some log of the batch has a service value
    without a text, or a property whose value is not supported. *)
Lemma mapper_throw_cause (h : Host) (observed : nat -> Q) (logs : list Log) (t : Thrown) :
  logsToExportRequest h observed logs = Throw t ->
  forallb (fun log => coerces log && fully_supported log) logs = false.
Proof.
  intros Ht.
  destruct (logsToExportRequest_spec h observed logs) as [[_ Hn] | [Hm _]];
    [congruence|].
  destruct (forallb (fun log => coerces log && fully_supported log) logs) eqn:E;
    [|reflexivity].
  rewrite forallb_forall in E.
  assert (Hall : forallb mappable logs = true).
  { apply forallb_forall. intros log Hlog. specialize (E log Hlog).
    apply andb_true_iff in E. destruct E as [Hc Hf].
    unfold mappable. rewrite Hc. cbn [andb]. now apply fully_supported_converts. }
  congruence.
Qed.

(** Without a line feed in the service name, the key determines the pair. *)
Lemma join_key_injective (a b a' b' : string) :
  no_LF a = true -> no_LF a' = true ->
  join_key a b = join_key a' b' -> a = a' /\ b = b'.
Proof.
  unfold join_key. revert a'; induction a as [|c a IH]; intros [|c' a']; simpl.
  - intros _ _ [= ->]. auto.
  - intros _ H [= <- _]. rewrite Ascii.eqb_refl in H. discriminate.
  - intros H _ [= -> _]. rewrite Ascii.eqb_refl in H. discriminate.
  - intros H H' [= -> Heq].
    apply andb_prop in H, H'. destruct H as [_ H], H' as [_ H'].
    destruct (IH a' H H' Heq) as [-> ->]. auto.
Qed.

Lemma body_of_In (log : Log) (k : string) (a : AnyValue) :
  In (k, a) (body_of log) <->
  exists v, In (k, v) log /\ skipped_key k = false /\ toAnyValue v = Normal (Ok a).
Proof.
  unfold body_of. rewrite in_flat_map. split.
  - intros [[k' v] [Hin Hb]]. unfold body_entry in Hb; cbn [fst snd] in Hb.
    destruct (skipped_key k') eqn:Hs; [destruct Hb|].
    destruct (toAnyValue v) as [[a'|e]|t] eqn:Hv; try destruct Hb as [].
    + injection H as -> ->. eauto.
    + destruct H.
  - intros [v (Hin & Hs & Hv)]. exists (k, v). split; [exact Hin|].
    unfold body_entry; cbn [fst snd]. rewrite Hs, Hv. now left.
Qed.



Lemma request_records_groups (h : Host) (f : string -> list LogRecord) (keys : list string) :
  request_records {| resourceLogs := map (fun k => resource_log h k (f k)) keys |}
  = flat_map f keys.
Proof.
  unfold request_records; cbn [resourceLogs].
  induction keys as [|k keys IH]; simpl; [reflexivity|].
  rewrite IH, app_nil_r. reflexivity.
Qed.

Lemma split_lines_no_LF (s : string) : no_LF s = true -> split_lines s = [s].
Proof.
  induction s as [|c s IH]; simpl; [reflexivity|].
  intros H. apply andb_prop in H. destruct H as [Hc Hs].
  apply negb_true_iff in Hc. rewrite Hc, (IH Hs). reflexivity.
Qed.

Lemma split_lines_join_key (a b : string) :
  no_LF a = true -> split_lines (join_key a b) = a :: split_lines b.
Proof.
  unfold join_key. induction a as [|c a IH]; simpl; intros H.
  - reflexivity.
  - apply andb_prop in H. destruct H as [Hc Ha].
    apply negb_true_iff in Hc. rewrite Hc, (IH Ha). reflexivity.
Qed.

(** Without a line feed in the name and in the version, the entry of a key
    carries the pair that was joined. *)
Lemma resource_log_attributes (h : Host) (a b : string) (records : list LogRecord) :
  no_LF a = true -> no_LF b = true ->
  attributes (resource (resource_log h (join_key a b) records))
  = [("service.name", stringValue a); ("service.version", stringValue b)].
Proof.
  intros Ha Hb. unfold resource_log, split_lines_limit.
  rewrite (split_lines_join_key a b Ha), (split_lines_no_LF b Hb). reflexivity.
Qed.

(** A key always splits in two parts at least, so the destructuring of
    [key.split("\n", 2)] finds both. *)
Lemma resource_key_two_parts (a b : string) :
  length (split_lines_limit (join_key a b) 2) = 2.
Proof.
  unfold split_lines_limit, join_key.
  assert (H : 2 <= length (split_lines (a ++ String LF b)%string)).
  { induction a as [|c a IH]; simpl.
    - pose proof (split_lines_nonempty b).
      destruct (split_lines b); [contradiction | simpl; lia].
    - destruct (Ascii.eqb c LF); [simpl; lia|].
      destruct (split_lines (a ++ String LF b)%string) as [|seg segs];
        simpl in *; lia. }
  destruct (split_lines (a ++ String LF b)%string) as [|x [|y l]]; simpl in *; lia.
Qed.

(** *** The claims on the mapper *)

(** C1 (the code departs from the claim): two logs whose pairs of service
    name and service version differ are filed in one group when a line feed
    sits in the service name, since both pairs join to the same key; the
    single resource entry then carries the name ["a"] and the version ["b"],
    which is the pair of neither log. *)
Theorem line_feed_merges_distinct_pairs :
  let log1 : Log := [("service.name", JString ("a" ++ String LF "b"));
                     ("service.version", JString "c")] in
  let log2 : Log := [("service.name", JString "a");
                     ("service.version", JString ("b" ++ String LF "c"))] in
  (serviceName_of signal_host log1, serviceVersion_of signal_host log1)
    <> (serviceName_of signal_host log2, serviceVersion_of signal_host log2)
  /\ resourceKey_of signal_host log1 = resourceKey_of signal_host log2
  /\ exists req calls,
       logsToExportRequest signal_host epoch [log1; log2] = Normal (req, calls)
       /\ map (fun rl => attributes (resource rl)) (resourceLogs req)
          = [[("service.name", stringValue "a"); ("service.version", stringValue "b")]]
       /\ request_records req = [record_of 0 log1; record_of 0 log2].
Proof.
  cbv zeta. split; [intros H; vm_compute in H; discriminate|]. split; [reflexivity|].
  eexists; eexists. split; [reflexivity|]. split; reflexivity.
Qed.

(** C2 (the code departs from the claim): a log with a [null] attribute is
    not mapped with a dropped attribute; the conversion throws the
    [TypeError] of [Object.keys(null)] and the mapper returns no request. *)
Theorem null_attribute_throws :
  toAnyValue JNull = Throw null_to_object
  /\ logsToExportRequest signal_host epoch [[("a", JNull)]] = Throw null_to_object.
Proof. split; reflexivity. Qed.

(** C4 (the code departs from the claim): two logs that differ in their
    service name and in their service version, so two distinct grouping
    keys in the sense of the claim, give a request with one [resourceLogs]
    entry, which holds the records of both. *)
Theorem entries_fewer_than_pairs :
  let log1 : Log := [("service.name", JString ("api" ++ String LF "1"));
                     ("service.version", JString "2");
                     ("message", JString "first")] in
  let log2 : Log := [("service.name", JString "api");
                     ("service.version", JString ("1" ++ String LF "2"));
                     ("message", JString "second")] in
  js_get log1 "service.name" <> js_get log2 "service.name"
  /\ js_get log1 "service.version" <> js_get log2 "service.version"
  /\ exists req calls,
       logsToExportRequest signal_host epoch [log1; log2] = Normal (req, calls)
       /\ length (resourceLogs req) = 1
       /\ map (fun rl => map body (flat_map logRecords (scopeLogs rl))) (resourceLogs req)
          = [[kvlistValue [("message", stringValue "first")];
              kvlistValue [("message", stringValue "second")]]].
Proof.
  cbv zeta. split; [intros H; vm_compute in H; discriminate|].
  split; [intros H; vm_compute in H; discriminate|].
  eexists; eexists. split; [reflexivity|]. split; reflexivity.
Qed.




(** The grouping scenario of the spec: two logs of service [a], one of
    service [b]; two entries, of two records and of one, in input order. *)
Example mapper_grouping_scenario :
  let log (name : string) (k : Z) : Log :=
    [("service.name", JString name); ("service.version", JString "1");
     ("k", JNumber (inject_Z k))] in
  exists req calls,
    logsToExportRequest signal_host epoch [log "a" 1%Z; log "a" 2%Z; log "b" 3%Z]
    = Normal (req, calls)
    /\ map (fun rl => map body (flat_map logRecords (scopeLogs rl))) (resourceLogs req)
       = [[kvlistValue [("k", intValue 1)]; kvlistValue [("k", intValue 2)]];
          [kvlistValue [("k", intValue 3)]]].
Proof. cbv zeta. eexists; eexists. split; reflexivity. Qed.

(** A symbol has no text: a log with a symbol as service name makes the
    template literal throw, and the mapper returns no request. *)
Example symbol_service_name_throws :
  logsToExportRequest signal_host epoch
    [[("service.name", JSymbol "s"); ("message", JString "hi")]]
  = Throw symbol_to_text.
Proof. reflexivity. Qed.

(** *** Records are neither lost nor repeated *)

Lemma filter_split_permutation {A : Type} (f : A -> bool) (l : list A) :
  Permutation (filter f l ++ filter (fun x => negb (f x)) l) l.
Proof.
  induction l as [|x l IH]; simpl; [constructor|].
  destruct (f x); simpl.
  - now constructor.
  - apply Permutation_sym, Permutation_cons_app, Permutation_sym, IH.
Qed.

Lemma grouped_filter_other (m : list (string * LogRecord)) (k k' : string) :
  k' <> k ->
  grouped (filter (fun p => negb (String.eqb (fst p) k)) m) k' = grouped m k'.
Proof.
  intros Hne. unfold grouped. f_equal.
  induction m as [|p m IH]; simpl; [reflexivity|].
  destruct (String.eqb_spec (fst p) k) as [E|E]; simpl.
  - destruct (String.eqb_spec (fst p) k'); [congruence | exact IH].
  - destruct (String.eqb (fst p) k'); [now rewrite IH | exact IH].
Qed.

Lemma flat_map_same_on {A B : Type} (f g : A -> list B) (l : list A) :
  (forall a, In a l -> f a = g a) -> flat_map f l = flat_map g l.
Proof.
  induction l as [|x l IH]; intros H; simpl; [reflexivity|].
  rewrite (H x (or_introl eq_refl)), IH; [reflexivity|].
  intros a Ha. apply H. now right.
Qed.

Lemma groups_partition (keys : list string) :
  forall m : list (string * LogRecord),
  NoDup keys -> (forall p, In p m -> In (fst p) keys) ->
  Permutation (flat_map (grouped m) keys) (map snd m).
Proof.
  induction keys as [|k keys IH]; intros m Hnd Hcov.
  - destruct m as [|p m]; [constructor|]. destruct (Hcov p (or_introl eq_refl)).
  - inversion Hnd as [|? ? Hnotin Hnd']; subst. cbn [flat_map].
    set (rest := filter (fun p => negb (String.eqb (fst p) k)) m).
    assert (Hsame : flat_map (grouped m) keys = flat_map (grouped rest) keys).
    { apply flat_map_same_on. intros k' Hk'. symmetry. apply grouped_filter_other.
      intros ->. contradiction. }
    rewrite Hsame.
    apply Permutation_trans with (map snd (filter (fun p => String.eqb (fst p) k) m)
                                  ++ map snd rest).
    + apply Permutation_app_head. apply IH; [exact Hnd'|].
      intros p Hp. apply filter_In in Hp. destruct Hp as [Hp Hne].
      destruct (Hcov p Hp) as [E|Hin]; [|exact Hin].
      rewrite E, String.eqb_refl in Hne. discriminate.
    + rewrite <- map_app. apply Permutation_map. apply filter_split_permutation.
Qed.

Lemma keyed_length (h : Host) (observed : nat -> Q) (logs : list Log) (i : nat) :
  length (keyed h observed i logs) = length logs.
Proof. rewrite <- (length_map fst), keyed_keys. apply length_map. Qed.

Lemma keyed_records (h : Host) (observed : nat -> Q) (logs : list Log) :
  forall i, map snd (keyed h observed i logs) = records_of observed i logs.
Proof.
  induction logs as [|log rest IH]; intros i; simpl; [reflexivity|]. now rewrite IH.
Qed.

Lemma mapper_keeps_records (h : Host) (observed : nat -> Q) (logs : list Log)
  (req : ExportLogsServiceRequest) (calls : list LogCall) :
  logsToExportRequest h observed logs = Normal (req, calls) ->
  Permutation (request_records req) (records_of observed 0 logs).
Proof.
  intros H.
  destruct (logsToExportRequest_spec h observed logs) as [[_ Heq] | [_ [t Ht]]];
    [|congruence].
  rewrite Heq in H. injection H as <- _. rewrite request_records_groups.
  rewrite <- (keyed_records h). destruct (first_keys_spec h logs) as [Hnd Hkeys].
  apply groups_partition; [exact Hnd|]. intros p Hp. apply Hkeys.
  rewrite <- (keyed_keys h observed logs 0). now apply in_map.
Qed.

Lemma records_of_length (observed : nat -> Q) (logs : list Log) :
  forall i, length (records_of observed i logs) = length logs.
Proof.
  induction logs as [|log rest IH]; intros i; simpl; [reflexivity|]. now rewrite IH.
Qed.

Lemma mapper_record_count (h : Host) (observed : nat -> Q) (logs : list Log)
  (req : ExportLogsServiceRequest) (calls : list LogCall) :
  logsToExportRequest h observed logs = Normal (req, calls) ->
  length (request_records req) = length logs.
Proof.
  intros H. rewrite (Permutation_length (mapper_keeps_records _ _ _ _ _ H)).
  apply records_of_length.
Qed.


(** *** The order of the entries *)

Lemma resource_log_view (h : Host) (key : string) (records : list LogRecord) :
  entry_view (resource_log h key records) = (key_attributes key, [records]).
Proof. reflexivity. Qed.

(** X4: the [resourceLogs] entries of a request come in the order in which
    their grouping keys first occur in the batch, one entry for each
    distinct key.  The entry of a key carries the first two lines of the key
    as [service.name] and [service.version], and one scope whose
    [logRecords] are the records of the logs with that key, in input order.
    The mapper returns a request whenever every log has a text for its
    service name and version and supported values only under the keys that
    go to the body. *)
Theorem entries_in_order_of_first_occurrence (h : Host) (observed : nat -> Q)
  (logs : list Log) :
  match logsToExportRequest h observed logs with
  | Normal (req, _) =>
      map entry_view (resourceLogs req)
      = map (fun k => (key_attributes k,
                       [map snd (filter (fun p => String.eqb (fst p) k)
                                        (keyed h observed 0 logs))]))
            (first_seen [] (map (key_text h) logs))
      /\ Forall (fun rl => Forall (fun sl => logRecords sl <> []) (scopeLogs rl))
                (resourceLogs req)
  | Throw _ => forallb (fun log => coerces log && fully_supported log) logs = false
  end.
Proof.
  destruct (logsToExportRequest h observed logs) as [[req calls]|t] eqn:E.
  - destruct (logsToExportRequest_spec h observed logs) as [[_ Heq] | [_ [t Ht]]];
      [|congruence].
    rewrite Heq in E. injection E as <- _. cbn [resourceLogs]. split.
    + rewrite map_map. apply map_ext. intros k. apply resource_log_view.
    + apply Forall_forall. intros rl Hrl. apply in_map_iff in Hrl.
      destruct Hrl as [k [<- Hk]]. cbn [resource_log scopeLogs].
      constructor; [|constructor]. cbn [logRecords].
      apply grouped_nonempty. rewrite keyed_keys. now apply first_keys_spec.
  - eapply mapper_throw_cause; eauto.
Qed.

(** *** Every converted attribute is kept or counted *)

Lemma entry_accounting (log : Log) (props : list (string * JsonValue)) :
  Forall (fun kv => forall t, ~ throws t kv) props ->
  length (flat_map body_entry props) + length (dropped_calls log props)
  = length (converted_props props).
Proof.
  unfold dropped_calls, converted_props.
  induction 1 as [|kv props Hkv _ IH]; [reflexivity|].
  cbn [flat_map filter]. rewrite !length_app.
  unfold body_entry at 1, dropped_entry at 1.
  destruct (skipped_key (fst kv)) eqn:Hs; cbn [negb length]; [lia|].
  destruct (toAnyValue (snd kv)) as [[a|e]|t] eqn:Hv; cbn [length]; try lia.
  exfalso. apply (Hkv t). split; assumption.
Qed.

(** X5: in the record built for a log, every property outside the seven
    reserved keys is either in the body or counted: the number of body
    entries plus [droppedAttributesCount] is the number of such properties;
    [localLogFn] is called once for each dropped property, always with the
    fatal severity.  The only throw is the [TypeError] of a [null]. *)
Theorem attributes_kept_or_counted (now_nanos : Q) (log : Log) :
  match log_record now_nanos log with
  | Normal (r, calls) =>
      (Z.of_nat (length (body_keys r)) + droppedAttributesCount r
       = Z.of_nat (length (converted_props log)))%Z
      /\ Z.of_nat (length calls) = droppedAttributesCount r
      /\ Forall (fun c => call_severityNumber c = LogValue.SeverityNumberFatal) calls
  | Throw t => t = null_to_object /\ null_free_log log = false
  end.
Proof.
  destruct (log_record_spec now_nanos log) as [H | [t [H Hex]]]; rewrite H.
  - assert (Hnt : Forall (fun kv => forall t, ~ throws t kv) log).
    { unfold log_record in H.
      destruct (body_loop log log {| dropped := 0; kvs := []; sunk := [] |}) as [st'|t] eqn:E;
        [|discriminate].
      eapply body_loop_no_throw; eauto. }
    pose proof (entry_accounting log log Hnt) as Hacc.
    unfold body_keys, record_of; cbn [body droppedAttributesCount].
    rewrite length_map. unfold body_of.
    split; [rewrite <- Hacc, Nat2Z.inj_add; reflexivity|]. split; [reflexivity|].
    unfold dropped_calls. apply Forall_forall. intros c Hc.
    apply in_flat_map in Hc. destruct Hc as [kv [_ Hc]].
    unfold dropped_entry in Hc. destruct (skipped_key (fst kv)); [destruct Hc|].
    destruct (toAnyValue (snd kv)) as [[a|e]|t]; try (now destruct Hc).
    destruct Hc as [<-|[]]. reflexivity.
  - rewrite Exists_exists in Hex. destruct Hex as [kv [Hkv [_ Ht]]].
    apply toAnyValue_throws in Ht. destruct Ht as [-> Hnf]. split; [reflexivity|].
    unfold null_free_log. destruct (forallb _ log) eqn:E; [|reflexivity].
    rewrite forallb_forall in E. rewrite (E kv Hkv) in Hnf. discriminate.
Qed.

(** *** The reserved keys are copied, not converted *)

(** X6: the values under the seven reserved keys are never converted.  A
    log whose other properties hold no [null] gives a record, whatever is
    under the reserved keys ([null] included); the five skeleton fields hold
    the values of the log as they are, or [undefined] when the key is
    absent, and no reserved key is in the body. *)
Theorem reserved_values_are_not_converted (now_nanos : Q) (log : Log) :
  null_free_log (converted_props log) = true ->
  exists r calls,
    log_record now_nanos log = Normal (r, calls)
    /\ timeUnixNano r = js_get log LogKey.TimestampUnixNano
    /\ severityNumber r = js_get log LogKey.SeverityNumber
    /\ severityText r = js_get log LogKey.SeverityText
    /\ traceId r = js_get log LogKey.TraceId
    /\ spanId r = js_get log LogKey.SpanId
    /\ observedTimeUnixNano r = now_nanos
    /\ (forall k, In k (body_keys r) -> skipped_key k = false).
Proof.
  intros Hnf. destruct (log_record_spec now_nanos log) as [H | [t [_ Hex]]].
  - exists (record_of now_nanos log), (dropped_calls log log).
    split; [exact H|]. repeat (split; [reflexivity|]).
    intros k Hk. unfold body_keys, record_of in Hk; cbn [body] in Hk.
    apply in_map_iff in Hk. destruct Hk as [[k' a] [<- Hin]].
    apply body_of_In in Hin. destruct Hin as [v (_ & Hs & _)]. exact Hs.
  - exfalso. rewrite Exists_exists in Hex. destruct Hex as [kv [Hkv [Hs Ht]]].
    apply toAnyValue_throws in Ht. destruct Ht as [_ Hn].
    unfold null_free_log in Hnf. rewrite forallb_forall in Hnf.
    assert (Hin : In kv (converted_props log)).
    { apply filter_In. split; [exact Hkv | now rewrite Hs]. }
    rewrite (Hnf kv Hin) in Hn. discriminate.
Qed.

Lemma reserved_values_are_not_converted_witness :
  let log : Log := [("traceId", JNull); ("service.name", JNull);
                    ("message", JString "hi")] in
  null_free_log (converted_props log) = true
  /\ exists r calls,
       log_record 0%Q log = Normal (r, calls)
       /\ traceId r = JNull
       /\ body r = kvlistValue [("message", stringValue "hi")].
Proof.
  cbv zeta. split; [reflexivity|].
  destruct (reserved_values_are_not_converted 0%Q
              [("traceId", JNull); ("service.name", JNull); ("message", JString "hi")]
              eq_refl)
    as (r & calls & Hrec & _ & _ & _ & Htrace & _).
  exists r, calls. split; [exact Hrec|]. split; [exact Htrace|].
  cbv in Hrec. injection Hrec as <- _. reflexivity.
Defined.


(** *** Entries and pairs *)

Lemma pair_eqb_eq (p q : string * string) : pair_eqb p q = true <-> p = q.
Proof.
  destruct p as [a b], q as [a' b']. unfold pair_eqb. cbn [fst snd].
  rewrite andb_true_iff, !String.eqb_eq. split; [intros [-> ->]; reflexivity|].
  intros [= -> ->]. auto.
Qed.

Lemma joined_pair_eqb (p q : string * string) :
  no_LF (fst p) = true -> no_LF (fst q) = true ->
  String.eqb (join_key (fst p) (snd p)) (join_key (fst q) (snd q)) = pair_eqb p q.
Proof.
  intros Hp Hq. apply eq_true_iff_eq. rewrite String.eqb_eq, pair_eqb_eq. split.
  - intros H. destruct (join_key_injective _ _ _ _ Hp Hq H) as [Ha Hb].
    destruct p, q; cbn [fst snd] in *. congruence.
  - now intros ->.
Qed.

Lemma first_seen_joined (l : list (string * string)) :
  forall seen : list (string * string),
  (forall p, In p seen \/ In p l -> no_LF (fst p) = true) ->
  first_seen (map (fun p => join_key (fst p) (snd p)) seen)
             (map (fun p => join_key (fst p) (snd p)) l)
  = map (fun p => join_key (fst p) (snd p)) (first_pairs seen l).
Proof.
  induction l as [|p l IH]; intros seen Hall; cbn [map first_seen first_pairs];
    [reflexivity|].
  assert (E : existsb (String.eqb (join_key (fst p) (snd p)))
                (map (fun q => join_key (fst q) (snd q)) seen)
              = existsb (pair_eqb p) seen).
  { assert (Hseen : forall q, In q seen -> no_LF (fst q) = true) by auto.
    clear IH. induction seen as [|q seen IHs]; [reflexivity|]. cbn [map existsb].
    rewrite joined_pair_eqb; [| apply Hall; right; now left | apply Hseen; now left].
    f_equal. apply IHs.
    - intros r [Hr|Hr]; apply Hall; [left; now right | now right].
    - intros r Hr. apply Hseen. now right. }
  rewrite E. destruct (existsb (pair_eqb p) seen).
  - apply IH. intros r [Hr|Hr]; apply Hall; [now left | right; now right].
  - cbn [map]. f_equal. apply (IH (p :: seen)).
    intros r [[<-|Hr]|Hr]; apply Hall; [right; now left | now left | right; now right].
Qed.

Lemma first_pairs_In (l : list (string * string)) :
  forall seen p, In p (first_pairs seen l) -> In p l.
Proof.
  induction l as [|q l IH]; intros seen p; cbn [first_pairs]; [tauto|].
  destruct (existsb (pair_eqb q) seen).
  - intros H. right. eapply IH; eauto.
  - intros [<-|H]; [now left | right; eapply IH; eauto].
Qed.

Lemma grouped_pair (h : Host) (observed : nat -> Q) (logs : list Log) (p : string * string) :
  no_LF (fst p) = true ->
  (forall log, In log logs -> no_LF (name_text h log) = true) ->
  forall i,
  grouped (keyed h observed i logs) (join_key (fst p) (snd p))
  = records_with_pair h observed i logs p.
Proof.
  intros Hp. unfold grouped.
  induction logs as [|log rest IH]; intros Hall i; cbn [keyed filter map records_with_pair];
    [reflexivity|].
  cbn [fst].
  change (key_text h log) with (join_key (fst (pair_text h log)) (snd (pair_text h log))).
  rewrite (joined_pair_eqb (pair_text h log) p); [| apply Hall; now left | exact Hp].
  destruct (pair_eqb (pair_text h log) p); cbn [map snd].
  - f_equal. apply IH. intros l Hl. apply Hall. now right.
  - apply IH. intros l Hl. apply Hall. now right.
Qed.

Lemma key_attributes_joined (a b : string) :
  no_LF a = true -> no_LF b = true ->
  key_attributes (join_key a b)
  = [("service.name", stringValue a); ("service.version", stringValue b)].
Proof.
  intros Ha Hb. unfold key_attributes, split_lines_limit.
  rewrite (split_lines_join_key a b Ha), (split_lines_no_LF b Hb). reflexivity.
Qed.

(** X18: when no service name and no service version of the batch holds a
    line feed, the request has exactly one [resourceLogs] entry for each
    distinct pair of service name and service version, in the order in which
    the pairs first occur; the entry carries the two texts of the pair as
    [service.name] and [service.version], and one scope whose [logRecords]
    are the records of the logs with that pair, in input order. *)
Theorem one_entry_per_pair (h : Host) (observed : nat -> Q) (logs : list Log) :
  forallb (single_line h) logs = true ->
  match logsToExportRequest h observed logs with
  | Normal (req, _) =>
      map entry_view (resourceLogs req)
      = map (fun p => ([("service.name", stringValue (fst p));
                        ("service.version", stringValue (snd p))],
                       [records_with_pair h observed 0 logs p]))
            (first_pairs [] (map (pair_text h) logs))
  | Throw _ => forallb (fun log => coerces log && fully_supported log) logs = false
  end.
Proof.
  intros Hsl. rewrite forallb_forall in Hsl.
  assert (Hname : forall log, In log logs -> no_LF (name_text h log) = true).
  { intros log Hlog. specialize (Hsl log Hlog). unfold single_line in Hsl.
    now apply andb_true_iff in Hsl. }
  destruct (logsToExportRequest h observed logs) as [[req calls]|t] eqn:E;
    [|eapply mapper_throw_cause; eauto].
  destruct (logsToExportRequest_spec h observed logs) as [[_ Heq] | [_ [t Ht]]];
    [|congruence].
  rewrite Heq in E. injection E as <- _. cbn [resourceLogs].
  rewrite map_map.
  assert (Hkeys : map (key_text h) logs
                  = map (fun p => join_key (fst p) (snd p)) (map (pair_text h) logs)).
  { rewrite map_map. reflexivity. }
  assert (Hfirst : first_seen [] (map (key_text h) logs)
                   = map (fun p => join_key (fst p) (snd p))
                         (first_pairs [] (map (pair_text h) logs))).
  { rewrite Hkeys. apply (first_seen_joined (map (pair_text h) logs) []).
    intros p [[]|Hp]. apply in_map_iff in Hp. destruct Hp as [log [<- Hlog]].
    now apply Hname. }
  rewrite Hfirst, map_map. apply map_ext_in. intros p Hp.
  apply first_pairs_In in Hp. apply in_map_iff in Hp. destruct Hp as [log [<- Hlog]].
  rewrite resource_log_view. f_equal.
  - specialize (Hsl log Hlog). unfold single_line in Hsl.
    apply andb_true_iff in Hsl. destruct Hsl as [Ha Hb].
    now apply key_attributes_joined.
  - f_equal. apply grouped_pair; [|exact Hname]. now apply Hname.
Qed.

Lemma one_entry_per_pair_witness :
  let log (name version : string) (k : Z) : Log :=
    [("service.name", JString name); ("service.version", JString version);
     ("k", JNumber (inject_Z k))] in
  let logs := [log "a" "1" 1%Z; log "b" "1" 2%Z; log "a" "1" 3%Z; log "a" "2" 4%Z] in
  forallb (single_line signal_host) logs = true
  /\ exists req calls,
       logsToExportRequest signal_host epoch logs = Normal (req, calls)
       /\ map (fun rl => (attributes (resource rl),
                          map (map body) (map logRecords (scopeLogs rl))))
              (resourceLogs req)
          = [([("service.name", stringValue "a"); ("service.version", stringValue "1")],
              [[kvlistValue [("k", intValue 1)]; kvlistValue [("k", intValue 3)]]]);
             ([("service.name", stringValue "b"); ("service.version", stringValue "1")],
              [[kvlistValue [("k", intValue 2)]]]);
             ([("service.name", stringValue "a"); ("service.version", stringValue "2")],
              [[kvlistValue [("k", intValue 4)]]])].
Proof.
  cbv zeta. split; [reflexivity|].
  pose proof (one_entry_per_pair signal_host epoch
    [[("service.name", JString "a"); ("service.version", JString "1");
      ("k", JNumber (inject_Z 1))];
     [("service.name", JString "b"); ("service.version", JString "1");
      ("k", JNumber (inject_Z 2))];
     [("service.name", JString "a"); ("service.version", JString "1");
      ("k", JNumber (inject_Z 3))];
     [("service.name", JString "a"); ("service.version", JString "2");
      ("k", JNumber (inject_Z 4))]] eq_refl) as H.
  destruct (logsToExportRequest signal_host epoch _) as [[req calls]|t] eqn:E;
    [|vm_compute in H; discriminate].
  exists req, calls. split; [reflexivity|].
  transitivity (map (fun v : list KeyValue * list (list LogRecord) =>
                       (fst v, map (map body) (snd v)))
                    (map entry_view (resourceLogs req))).
  - rewrite map_map. reflexivity.
  - rewrite H. reflexivity.
Defined.

End OtelFacts.

(* ================================================================== *)
(** ** Properties of the batching exporter *)
(* ================================================================== *)

Module ExporterFacts.
Import Js JsFacts Otel OtelFacts Exporter.

(** *** Facts on traces *)

Lemma app_split_not_in {A : Type} (x : A) (l l' pre post : list A) :
  ~ In x l -> l ++ l' = pre ++ x :: post ->
  exists pre', pre = l ++ pre' /\ l' = pre' ++ x :: post.
Proof.
  revert pre; induction l as [|a l IH]; intros pre Hnot Heq.
  - exists pre. auto.
  - destruct pre as [|b pre]; simpl in Heq.
    + injection Heq as -> _. exfalso. apply Hnot. now left.
    + injection Heq as -> Heq. destruct (IH pre) as [pre' [-> ->]]; auto.
      * intros H. apply Hnot. now right.
      * exists pre'. auto.
Qed.

Lemma snoc_split_not_in {A : Type} (x : A) (l pre post : list A) :
  ~ In x l -> l ++ [x] = pre ++ x :: post -> post = [].
Proof.
  intros Hnot Heq. destruct (app_split_not_in x l [x] pre post Hnot Heq) as [pre' [-> H]].
  destruct pre' as [|b pre']; simpl in H.
  - now injection H as <-.
  - injection H as _ H. destruct pre'; discriminate.
Qed.

(** [#exportBatch] calls the logger and posts once; it does nothing else. *)
Lemma exportBatch_actions (h : Host) (observed : nat -> Q) (outcome : FetchOutcome)
  (batch : list Log) (acts : list Action) :
  exportBatch h observed outcome batch = Normal acts ->
  exists request calls pre post,
    logsToExportRequest h observed batch = Normal (request, calls)
    /\ acts = pre ++ HttpPost request outcome :: post
    /\ forallb is_logger_call pre = true
    /\ forallb is_logger_call post = true.
Proof.
  unfold exportBatch.
  destruct (logsToExportRequest h observed batch) as [[request calls]|t]; cbn [bind];
    [|discriminate].
  intros [= <-]. exists request, calls.
  eexists (map CallLogger calls ++ [_]), (after_fetch request outcome).
  split; [reflexivity|]. split; [now rewrite <- app_assoc|]. split.
  - rewrite forallb_app. cbn. rewrite Bool.andb_true_r.
    induction calls; simpl; auto.
  - unfold after_fetch. destruct outcome as [[response|]|e d c|e]; try reflexivity.
    destruct (partialSuccess response) as [partial|]; try reflexivity.
    destruct (rejectedLogsRecords partial >? 0)%Z; reflexivity.
Qed.

(** Whether [#exportBatch] returns does not depend on what the POST meets. *)
Lemma exportBatch_returns_regardless (h : Host) (observed : nat -> Q)
  (outcome outcome' : FetchOutcome) (batch : list Log) :
  (exists acts, exportBatch h observed outcome batch = Normal acts)
  <-> (exists acts, exportBatch h observed outcome' batch = Normal acts).
Proof.
  unfold exportBatch.
  destruct (logsToExportRequest h observed batch) as [[request calls]|t]; cbn [bind].
  - split; intros _; eauto.
  - split; intros [acts H]; discriminate.
Qed.

Lemma logger_calls_only (acts : list Action) (a : Action) :
  forallb is_logger_call acts = true -> In a acts -> is_logger_call a = true.
Proof. intros H. rewrite forallb_forall in H. apply H. Qed.

Lemma exportBatch_action_kinds (h : Host) (observed : nat -> Q) (outcome : FetchOutcome)
  (batch : list Log) (acts : list Action) (a : Action) :
  exportBatch h observed outcome batch = Normal acts -> In a acts ->
  is_logger_call a = true \/ is_post a = true.
Proof.
  intros H Hin. apply exportBatch_actions in H.
  destruct H as (request & calls & pre & post & _ & -> & Hpre & Hpost).
  apply in_app_iff in Hin. destruct Hin as [Hin|[<-|Hin]].
  - left. now apply (logger_calls_only pre).
  - now right.
  - left. now apply (logger_calls_only post).
Qed.

(** The shape of one iteration. *)
Lemma iteration_cases (h : Host) (o : Options) (ctx : ContextId)
  (batch : list Log) (last : Z) (t : Tick) :
  let head := if softStop o then [] else [ObserveDone false] in
  let pre := head ++ [NewContext (timeout_parent o ctx); SetTimeout (receiveTimeout o);
                      QueueReceive (received t)] in
  (softStop o = false /\ done_at_head t = true
   /\ iteration h o ctx batch last t = (Exited batch, [ObserveDone true]))
  \/ (flush_due o batch last t = true
      /\ exists acts, exportBatch h (observed_nanos t) (fetch_outcome t) batch = Normal acts
         /\ iteration h o ctx batch last t
            = (Looping [] (now_after_flush t), head ++ CallExportBatch batch :: acts))
  \/ (flush_due o batch last t = true
      /\ exists e, exportBatch h (observed_nanos t) (fetch_outcome t) batch = Throw e
         /\ iteration h o ctx batch last t = (Aborted e, head ++ [CallExportBatch batch]))
  \/ (flush_due o batch last t = false
      /\ received t = RecvErr ContextCancelledError /\ done_after_cancel t = true
      /\ iteration h o ctx batch last t = (Exited batch, pre ++ [ObserveDone true]))
  \/ (flush_due o batch last t = false
      /\ received t = RecvErr ContextCancelledError /\ done_after_cancel t = false
      /\ iteration h o ctx batch last t = (Looping batch last, pre ++ [ObserveDone false]))
  \/ (flush_due o batch last t = false
      /\ exists e c, received t = RecvErr (QueueFailure e)
         /\ iteration h o ctx batch last t = (Looping batch last, pre ++ [CallLogger c]))
  \/ (flush_due o batch last t = false
      /\ received t = RecvNeither
      /\ exists e, iteration h o ctx batch last t = (Aborted e, pre))
  \/ (flush_due o batch last t = false
      /\ exists log, received t = RecvOk log
         /\ iteration h o ctx batch last t = (Looping (batch ++ [log]) last, pre)).
Proof.
  cbv zeta. unfold iteration.
  destruct (softStop o) eqn:Hs, (done_at_head t) eqn:Hd; cbn [negb andb];
    try (left; now auto); right;
    (destruct (flush_due o batch last t) eqn:Hf;
     [ destruct (exportBatch h (observed_nanos t) (fetch_outcome t) batch) as [acts|e] eqn:He;
       [ left; split; [reflexivity | eauto]
       | right; left; split; [reflexivity | eauto] ]
     | do 2 right;
       destruct (received t) as [log|[|e]|] eqn:Hr;
       [ do 4 right; split; [reflexivity | eauto]
       | destruct (done_after_cancel t) eqn:Hc;
         [ left; auto | right; left; auto ]
       | do 2 right; left; split; [reflexivity | eauto]
       | do 3 right; left; split; [reflexivity | eauto] ] ]).
Qed.

Lemma received_logs_app (l l' : list Action) :
  received_logs (l ++ l') = received_logs l ++ received_logs l'.
Proof. apply flat_map_app. Qed.

Lemma flushed_logs_app (l l' : list Action) :
  flushed_logs (l ++ l') = flushed_logs l ++ flushed_logs l'.
Proof. apply flat_map_app. Qed.

(** A list of logger calls and POSTs holds nothing else. *)
Lemma quiet_list_facts (l : list Action) :
  (forall a, In a l -> is_logger_call a = true \/ is_post a = true) ->
  received_logs l = [] /\ flushed_logs l = []
  /\ (forall p, ~ In (NewContext p) l) /\ (forall b, ~ In (ObserveDone b) l)
  /\ forallb (fun a => negb (is_queue_send a)) l = true
  /\ filter is_flush l = [].
Proof.
  induction l as [|a l IH]; intros H.
  - simpl. repeat split; auto.
  - destruct IH as (Hr & Hf & Hn & Ho & Hq & Hfl); [intros a' Ha'; apply H; now right|].
    assert (Ha : is_logger_call a = true \/ is_post a = true) by (apply H; now left).
    destruct a; simpl in Ha; try (destruct Ha; discriminate);
      simpl; rewrite ?Hr, ?Hf, ?Hq, ?Hfl; repeat split; auto;
      intros x [Hx|Hx]; try discriminate; firstorder.
Qed.

Lemma exportBatch_one_post (h : Host) (observed : nat -> Q) (outcome : FetchOutcome)
  (batch : list Log) (acts : list Action) :
  exportBatch h observed outcome batch = Normal acts ->
  length (filter is_post acts) = 1.
Proof.
  intros H. apply exportBatch_actions in H.
  destruct H as (request & calls & pre & post & _ & -> & Hpre & Hpost).
  assert (Hnone : forall l, forallb is_logger_call l = true -> filter is_post l = []).
  { induction l as [|a l IH]; simpl; [reflexivity|].
    destruct a; simpl; try discriminate. exact IH. }
  rewrite filter_app. cbn [filter is_post]. rewrite length_app. cbn [length].
  rewrite (Hnone pre Hpre), (Hnone post Hpost). reflexivity.
Qed.

(** What one iteration does to the trace and to the batch. *)
Lemma iteration_summary (h : Host) (o : Options) (ctx : ContextId)
  (batch : list Log) (last : Z) (t : Tick) (st : LoopState) (acts : list Action) :
  iteration h o ctx batch last t = (st, acts) ->
  (forall p, In (NewContext p) acts -> p = timeout_parent o ctx)
  /\ forallb (fun a => negb (is_queue_send a)) acts = true
  /\ (exists lost, batch ++ received_logs acts = flushed_logs acts ++ lost
                   /\ (is_aborted st = false -> lost = held st))
  /\ length (filter is_post acts) <= length (filter is_flush acts)
  /\ match st with
     | Exited _ =>
         exists pre, acts = pre ++ [ObserveDone true] /\ ~ In (ObserveDone true) pre
           /\ (softStop o = true ->
               exists pre', pre = pre' ++ [QueueReceive (RecvErr ContextCancelledError)])
     | _ => ~ In (ObserveDone true) acts
     end.
Proof.
  intros Hit.
  pose proof (iteration_cases h o ctx batch last t) as Hc. cbv zeta in Hc.
  destruct Hc as [(Hs & Hd & He)
                 |[(Hf & acts' & Hx & He)
                 |[(Hf & e & Hx & He)
                 |[(Hf & Hr & Hd & He)
                 |[(Hf & Hr & Hd & He)
                 |[(Hf & e & c & Hr & He)
                 |[(Hf & Hr & e & He)
                 |(Hf & log & Hr & He)]]]]]]];
    rewrite He in Hit; injection Hit as <- <-.
  - (* the condition of the loop fails *)
    repeat split.
    + intros p [H|[]]; discriminate.
    + exists batch. simpl. rewrite app_nil_r. auto.
    + simpl; lia.
    + exists []. repeat split; auto. intros Hs'. congruence.
  - (* flush *)
    destruct (quiet_list_facts acts' (fun a => exportBatch_action_kinds _ _ _ _ _ a Hx))
      as (Hrl & Hfl & Hn & Ho & Hq & Hff).
    pose proof (exportBatch_one_post _ _ _ _ _ Hx) as Hone.
    destruct (softStop o); cbn [app]; repeat split.
    + intros p [H|H]; [discriminate | now apply Hn in H].
    + exact Hq.
    + exists []. cbn [received_logs flushed_logs flat_map]. fold (received_logs acts').
      fold (flushed_logs acts'). rewrite Hrl, Hfl, !app_nil_r. auto.
    + cbn [filter is_post is_flush length]. rewrite Hone, Hff. simpl; lia.
    + intros [H|H]; [discriminate | now apply Ho in H].
    + intros p [H|[H|H]]; [discriminate | discriminate | now apply Hn in H].
    + exact Hq.
    + exists []. cbn [received_logs flushed_logs flat_map]. fold (received_logs acts').
      fold (flushed_logs acts'). rewrite Hrl, Hfl, !app_nil_r. auto.
    + cbn [filter is_post is_flush length]. rewrite Hone, Hff. simpl; lia.
    + intros [H|[H|H]]; [discriminate | discriminate | now apply Ho in H].
  - (* flush, the mapper throws *)
    destruct (softStop o); cbn [app]; repeat split.
    + intros p [H|[]]; discriminate.
    + exists []. simpl. now rewrite !app_nil_r.
    + simpl; lia.
    + intros [H|[]]; discriminate.
    + intros p [H|[H|[]]]; discriminate.
    + exists []. simpl. now rewrite !app_nil_r.
    + simpl; lia.
    + intros [H|[H|[]]]; discriminate.
  - (* the receive is cancelled and the outer context is done *)
    rewrite Hr. destruct (softStop o) eqn:Hs; cbn [app]; repeat split.
    + intros p [H|[H|[H|[H|[]]]]]; try discriminate. now injection H as <-.
    + exists batch. simpl. rewrite app_nil_r. auto.
    + simpl; lia.
    + eexists [_; _; _]. split; [reflexivity|]. split.
      * intros [H|[H|[H|[]]]]; discriminate.
      * intros _. now eexists [_; _].
    + intros p [H|[H|[H|[H|[H|[]]]]]]; try discriminate. now injection H as <-.
    + exists batch. simpl. rewrite app_nil_r. auto.
    + simpl; lia.
    + eexists [_; _; _; _]. split; [reflexivity|]. split.
      * intros [H|[H|[H|[H|[]]]]]; discriminate.
      * discriminate.
  - (* the receive is cancelled and the outer context is not done *)
    rewrite Hr. destruct (softStop o) eqn:Hs; cbn [app]; repeat split.
    + intros p [H|[H|[H|[H|[]]]]]; try discriminate. now injection H as <-.
    + exists batch. simpl. rewrite app_nil_r. auto.
    + simpl; lia.
    + intros [H|[H|[H|[H|[]]]]]; discriminate.
    + intros p [H|[H|[H|[H|[H|[]]]]]]; try discriminate. now injection H as <-.
    + exists batch. simpl. rewrite app_nil_r. auto.
    + simpl; lia.
    + intros [H|[H|[H|[H|[H|[]]]]]]; discriminate.
  - (* the receive fails *)
    rewrite Hr. destruct (softStop o) eqn:Hs; cbn [app]; repeat split.
    + intros p [H|[H|[H|[H|[]]]]]; try discriminate. now injection H as <-.
    + exists batch. simpl. rewrite app_nil_r. auto.
    + simpl; lia.
    + intros [H|[H|[H|[H|[]]]]]; discriminate.
    + intros p [H|[H|[H|[H|[H|[]]]]]]; try discriminate. now injection H as <-.
    + exists batch. simpl. rewrite app_nil_r. auto.
    + simpl; lia.
    + intros [H|[H|[H|[H|[H|[]]]]]]; discriminate.
  - (* neither a message nor an error *)
    rewrite Hr. destruct (softStop o) eqn:Hs; cbn [app]; repeat split.
    + intros p [H|[H|[H|[]]]]; try discriminate. now injection H as <-.
    + exists batch. simpl. rewrite app_nil_r. split; [reflexivity | discriminate].
    + simpl; lia.
    + intros [H|[H|[H|[]]]]; discriminate.
    + intros p [H|[H|[H|[H|[]]]]]; try discriminate. now injection H as <-.
    + exists batch. simpl. rewrite app_nil_r. split; [reflexivity | discriminate].
    + simpl; lia.
    + intros [H|[H|[H|[H|[]]]]]; discriminate.
  - (* a message *)
    rewrite Hr. destruct (softStop o) eqn:Hs; cbn [app]; repeat split.
    + intros p [H|[H|[H|[]]]]; try discriminate. now injection H as <-.
    + exists (batch ++ [log]). simpl. auto.
    + simpl; lia.
    + intros [H|[H|[H|[]]]]; discriminate.
    + intros p [H|[H|[H|[H|[]]]]]; try discriminate. now injection H as <-.
    + exists (batch ++ [log]). simpl. auto.
    + simpl; lia.
    + intros [H|[H|[H|[H|[]]]]]; discriminate.
Qed.

(** The same over a whole run of the loop. *)
Lemma run_summary (h : Host) (o : Options) (ctx : ContextId) (ticks : list Tick) :
  forall (batch : list Log) (last : Z) (st : LoopState) (acts : list Action),
  run h o ctx ticks batch last = (st, acts) ->
  (forall p, In (NewContext p) acts -> p = timeout_parent o ctx)
  /\ forallb (fun a => negb (is_queue_send a)) acts = true
  /\ (exists lost, batch ++ received_logs acts = flushed_logs acts ++ lost
                   /\ (is_aborted st = false -> lost = held st))
  /\ length (filter is_post acts) <= length (filter is_flush acts)
  /\ match st with
     | Exited _ =>
         exists pre, acts = pre ++ [ObserveDone true] /\ ~ In (ObserveDone true) pre
           /\ (softStop o = true ->
               exists pre', pre = pre' ++ [QueueReceive (RecvErr ContextCancelledError)])
     | _ => ~ In (ObserveDone true) acts
     end.
Proof.
  induction ticks as [|t rest IH]; intros batch last st acts Hrun.
  - simpl in Hrun. injection Hrun as <- <-. repeat split; simpl; auto; try tauto.
    exists batch. rewrite app_nil_r. auto.
  - cbn [run] in Hrun.
    destruct (iteration h o ctx batch last t) as [st1 acts1] eqn:Hit.
    pose proof (iteration_summary _ _ _ _ _ _ _ _ Hit) as (Hn1 & Hq1 & Hl1 & Hc1 & Ho1).
    destruct st1 as [batch' last'| batch' | e];
      [| injection Hrun as <- <-; repeat split; auto
       | injection Hrun as <- <-; repeat split; auto ].
    destruct (run h o ctx rest batch' last') as [st2 acts2] eqn:Hrest.
    injection Hrun as <- <-.
    destruct (IH _ _ _ _ Hrest) as (Hn2 & Hq2 & Hl2 & Hc2 & Ho2).
    repeat split.
    + intros p Hp. apply in_app_iff in Hp. destruct Hp; auto.
    + rewrite forallb_app, Hq1, Hq2. reflexivity.
    + destruct Hl1 as (lost1 & He1 & Hh1), Hl2 as (lost2 & He2 & Hh2).
      exists lost2. split; [|exact Hh2].
      rewrite received_logs_app, flushed_logs_app, app_assoc, He1.
      rewrite (Hh1 eq_refl). cbn [held]. rewrite <- !app_assoc. now rewrite He2.
    + rewrite !filter_app, !length_app. lia.
    + destruct st2 as [b2 l2 | b2 | e2].
      * intros H. apply in_app_iff in H. tauto.
      * destruct Ho2 as (pre & -> & Hnot & Hsoft).
        exists (acts1 ++ pre). split; [now rewrite app_assoc|]. split.
        -- intros H. apply in_app_iff in H. tauto.
        -- intros Hs. destruct (Hsoft Hs) as [pre' ->].
           exists (acts1 ++ pre'). now rewrite app_assoc.
      * intros H. apply in_app_iff in H. tauto.
Qed.

(** *** The claims on the exporter *)

(** C3: in a run of the loop, the loop has exited exactly when a reading of
    the outer [ctx.done()] gave [true], and that reading is the last action.
    With [softStop] every receive-timeout context is created without a
    parent, and a run that has exited ends with a receive that returned the
    cancellation sentinel followed by the reading [true].  Without
    [softStop] the contexts are children of the outer one and the condition
    of the loop reads [ctx.done()] at the head of every iteration, leaving
    at once when it gives [true]. *)
Theorem soft_stop_exit_condition (h : Host) (o : Options) (ctx : ContextId)
  (ticks : list Tick) (batch : list Log) (last : Z) :
  let st := fst (run h o ctx ticks batch last) in
  let acts := snd (run h o ctx ticks batch last) in
  (has_exited st <-> In (ObserveDone true) acts)
  /\ (forall pre post, acts = pre ++ ObserveDone true :: post -> post = [])
  /\ (softStop o = true ->
        (forall p, In (NewContext p) acts -> p = None)
        /\ (has_exited st ->
            exists pre, acts = pre ++ [QueueReceive (RecvErr ContextCancelledError);
                                       ObserveDone true]))
  /\ (softStop o = false ->
        (forall p, In (NewContext p) acts -> p = Some ctx)
        /\ (forall b l t, done_at_head t = true ->
                          iteration h o ctx b l t = (Exited b, [ObserveDone true]))).
Proof.
  cbv zeta. destruct (run h o ctx ticks batch last) as [st acts] eqn:Hrun. cbn [fst snd].
  destruct (run_summary _ _ _ _ _ _ _ _ Hrun) as (Hn & _ & _ & _ & Ho).
  split; [|split; [|split]].
  - split.
    + intros [b ->]. destruct Ho as (pre & -> & _). apply in_app_iff. right. now left.
    + intros Hin. destruct st as [b l | b | e]; [contradiction | now exists b | contradiction].
  - intros pre post Heq. destruct st as [b l | b | e].
    + exfalso. apply Ho. rewrite Heq. apply in_app_iff. right. now left.
    + destruct Ho as (pre0 & -> & Hnot & _). now apply (snoc_split_not_in _ _ _ _ Hnot Heq).
    + exfalso. apply Ho. rewrite Heq. apply in_app_iff. right. now left.
  - intros Hs. split.
    + intros p Hp. rewrite (Hn p Hp). unfold timeout_parent. now rewrite Hs.
    + intros [b ->]. destruct Ho as (pre & -> & _ & Hsoft).
      destruct (Hsoft Hs) as [pre' ->]. exists pre'. now rewrite <- app_assoc.
  - intros Hs. split.
    + intros p Hp. rewrite (Hn p Hp). unfold timeout_parent. now rewrite Hs.
    + intros b l t Hd. unfold iteration. now rewrite Hs, Hd.
Qed.

(** C6: [#exportBatch] calls the logger and posts exactly once, whatever the
    POST meets, and whether it returns does not depend on that outcome.  An
    iteration that flushes leaves an empty batch.  In a run of the loop no
    action is a [queue.send], there is at most one POST for each flush, and
    the batches flushed so far, joined in order, followed by the batch still
    held, are the logs received so far in order: a log received once is
    handed to one flush only.  When [export] returns, the logs flushed are
    the logs received. *)
Theorem flush_drops_batch (h : Host) (o : Options) (ctx : ContextId)
  (ticks : list Tick) (last : Z) :
  let st := fst (run h o ctx ticks [] last) in
  let acts := snd (run h o ctx ticks [] last) in
  (forall observed outcome outcome' b,
      ((exists acts', exportBatch h observed outcome b = Normal acts')
       <-> (exists acts', exportBatch h observed outcome' b = Normal acts'))
      /\ forall acts', exportBatch h observed outcome b = Normal acts' ->
           length (filter is_post acts') = 1
           /\ forall a, In a acts' -> is_logger_call a = true \/ is_post a = true)
  /\ (forall b l t st' acts', iteration h o ctx b l t = (st', acts') ->
        forall b', In (CallExportBatch b') acts' -> held st' = [])
  /\ forallb (fun a => negb (is_queue_send a)) acts = true
  /\ length (filter is_post acts) <= length (filter is_flush acts)
  /\ (exists lost, received_logs acts = flushed_logs acts ++ lost
                   /\ (is_aborted st = false -> lost = held st))
  /\ (forall last_observed last_outcome acts',
        export h o ctx last ticks last_observed last_outcome = Some (Normal (Ok tt), acts') ->
        flushed_logs acts' = received_logs acts'
        /\ forallb (fun a => negb (is_queue_send a)) acts' = true).
Proof.
  cbv zeta. unfold export.
  destruct (run h o ctx ticks [] last) as [st acts] eqn:Hrun. cbn [fst snd].
  destruct (run_summary _ _ _ _ _ _ _ _ Hrun) as (_ & Hq & (lost & Hl & Hh) & Hc & _).
  cbn [app] in Hl.
  split; [|split; [|split; [|split; [|split]]]]; auto.
  - intros observed outcome outcome' b. split.
    + apply exportBatch_returns_regardless.
    + intros acts' Hx. split.
      * eapply exportBatch_one_post; eauto.
      * intros a. eapply exportBatch_action_kinds; eauto.
  - intros b l t st' acts' Hit b' Hin.
    pose proof (iteration_cases h o ctx b l t) as Hcases. cbv zeta in Hcases.
    destruct Hcases as [(_ & _ & He)
                       |[(_ & x & _ & He)
                       |[(_ & e & _ & He)
                       |[(_ & _ & _ & He)
                       |[(_ & _ & _ & He)
                       |[(_ & e & c & _ & He)
                       |[(_ & _ & e & He)
                       |(_ & log & _ & He)]]]]]]];
      rewrite He in Hit; injection Hit as <- <-; try reflexivity;
      exfalso; destruct (softStop o); cbn [app] in Hin;
      repeat (destruct Hin as [Hin|Hin]; [discriminate|]); exact Hin.
  - eauto.
  - intros last_observed last_outcome acts'.
    destruct st as [b l | b | e]; try discriminate.
    rewrite (Hh eq_refl) in Hl. cbn [held] in Hl.
    destruct (0 <? length b)%nat eqn:Hlen.
    + destruct (exportBatch h last_observed last_outcome b) as [acts2|e] eqn:Hx;
        [|discriminate].
      intros [= <-].
      destruct (quiet_list_facts acts2 (fun a => exportBatch_action_kinds _ _ _ _ _ a Hx))
        as (Hrl & Hfl & _ & _ & Hq2 & _).
      rewrite !flushed_logs_app, !received_logs_app, !forallb_app.
      cbn [flushed_logs received_logs flat_map forallb is_queue_send negb].
      fold (flushed_logs (acts2 ++ [CallLogger (debug_call "stopping exporter, context cancelled" [FError cancelled_error])])).
      fold (received_logs (acts2 ++ [CallLogger (debug_call "stopping exporter, context cancelled" [FError cancelled_error])])).
      rewrite !flushed_logs_app, !received_logs_app, !forallb_app, Hrl, Hfl, Hq, Hq2, Hl.
      simpl. rewrite !app_nil_r. auto.
    + intros [= <-]. apply Nat.ltb_ge in Hlen.
      assert (b = []) by (destruct b; [reflexivity | simpl in Hlen; lia]). subst b.
      rewrite !flushed_logs_app, !received_logs_app, !forallb_app, Hq, Hl.
      simpl. rewrite !app_nil_r. auto.
Qed.

(** The soft-stop scenario of the spec: batch size 10, three logs in the
    queue, the outer context cancelled at once.  The loop takes the three
    logs, leaves on the first receive that times out, and [export] posts one
    request with the three records. *)
Example soft_stop_drain_scenario :
  let o := {| batchSize := 10; fullBatchTimeout := 2000; receiveTimeout := 1500;
              softStop := true |} in
  let log (i : Z) : Log :=
    [("service.name", JString "svc"); ("service.version", JString "1");
     ("i", JNumber (inject_Z i))] in
  let tick (r : Received) : Tick :=
    {| done_at_head := true; now_at_check := 0; observed_nanos := epoch;
       fetch_outcome := Resolved None; now_after_flush := 0;
       received := r; done_after_cancel := true |} in
  let ticks := [tick (RecvOk (log 1%Z)); tick (RecvOk (log 2%Z)); tick (RecvOk (log 3%Z));
                tick (RecvErr ContextCancelledError)] in
  exists acts,
    export signal_host o 0 0 ticks epoch (Resolved None) = Some (Normal (Ok tt), acts)
    /\ flushed_logs acts = [log 1%Z; log 2%Z; log 3%Z]
    /\ flat_map (fun a => match a with
                          | HttpPost req _ => [length (request_records req)]
                          | _ => []
                          end) acts = [3].
Proof. cbv zeta. eexists. split; [reflexivity|]. split; reflexivity. Qed.

(** *** The size of what is posted *)

Lemma exportBatch_post (h : Host) (observed : nat -> Q) (outcome : FetchOutcome)
  (batch : list Log) (acts : list Action) (req : ExportLogsServiceRequest)
  (out : FetchOutcome) :
  exportBatch h observed outcome batch = Normal acts ->
  In (HttpPost req out) acts ->
  exists calls, logsToExportRequest h observed batch = Normal (req, calls).
Proof.
  intros H Hin. apply exportBatch_actions in H.
  destruct H as (request & calls & pre & post & Hm & -> & Hpre & Hpost).
  apply in_app_iff in Hin. destruct Hin as [Hin|[Hin|Hin]].
  - apply (logger_calls_only pre) in Hin; [discriminate | exact Hpre].
  - injection Hin as <- _. eauto.
  - apply (logger_calls_only post) in Hin; [discriminate | exact Hpost].
Qed.

Lemma iteration_bound (h : Host) (o : Options) (ctx : ContextId)
  (batch : list Log) (last : Z) (t : Tick) (st : LoopState) (acts : list Action) :
  iteration h o ctx batch last t = (st, acts) ->
  (Z.of_nat (length batch) <= batch_bound o)%Z ->
  (Z.of_nat (length (held st)) <= batch_bound o)%Z
  /\ (forall req out, In (HttpPost req out) acts ->
        exists calls, logsToExportRequest h (observed_nanos t) batch = Normal (req, calls)).
Proof.
  intros Hit Hb.
  pose proof (iteration_cases h o ctx batch last t) as Hc. cbv zeta in Hc.
  assert (Hhead : forall req out,
            ~ In (HttpPost req out) (if softStop o then [] else [ObserveDone false])).
  { intros req out. destruct (softStop o); simpl; [tauto|]. intros [H|[]]. discriminate. }
  assert (Hpre : forall req out,
            ~ In (HttpPost req out)
                 ((if softStop o then [] else [ObserveDone false])
                  ++ [NewContext (timeout_parent o ctx); SetTimeout (receiveTimeout o);
                      QueueReceive (received t)])).
  { intros req out H. apply in_app_iff in H. destruct H as [H|H]; [now apply Hhead in H|].
    repeat (destruct H as [H|H]; [discriminate|]). exact H. }
  unfold batch_bound in *.
  destruct Hc as [(Hs & Hd & He)
                 |[(Hf & acts' & Hx & He)
                 |[(Hf & e & Hx & He)
                 |[(Hf & Hr & Hd & He)
                 |[(Hf & Hr & Hd & He)
                 |[(Hf & e & c & Hr & He)
                 |[(Hf & Hr & e & He)
                 |(Hf & log & Hr & He)]]]]]]];
    rewrite He in Hit; injection Hit as <- <-; cbn [held length].
  - split; [exact Hb|].
    intros req out [H|[]]. discriminate.
  - split; [lia|].
    intros req out H. apply in_app_iff in H. destruct H as [H|[H|H]].
    + now apply Hhead in H.
    + discriminate.
    + eapply exportBatch_post; eauto.
  - split; [lia|].
    intros req out H. apply in_app_iff in H. destruct H as [H|[H|[]]].
    + now apply Hhead in H.
    + discriminate.
  - split; [exact Hb|].
    intros req out H. apply in_app_iff in H. destruct H as [H|[H|[]]].
    + now apply Hpre in H.
    + discriminate.
  - split; [exact Hb|].
    intros req out H. apply in_app_iff in H. destruct H as [H|[H|[]]].
    + now apply Hpre in H.
    + discriminate.
  - split; [exact Hb|].
    intros req out H. apply in_app_iff in H. destruct H as [H|[H|[]]].
    + now apply Hpre in H.
    + discriminate.
  - split; [lia|].
    intros req out H. now apply Hpre in H.
  - split.
    + rewrite length_app. cbn [length]. unfold flush_due in Hf.
      apply orb_false_iff in Hf. destruct Hf as [Hf _].
      rewrite Z.geb_leb in Hf. apply Z.leb_gt in Hf. lia.
    + intros req out H. now apply Hpre in H.
Qed.

Lemma run_bound (h : Host) (o : Options) (ctx : ContextId) (ticks : list Tick) :
  forall (batch : list Log) (last : Z) (st : LoopState) (acts : list Action),
  run h o ctx ticks batch last = (st, acts) ->
  (Z.of_nat (length batch) <= batch_bound o)%Z ->
  (Z.of_nat (length (held st)) <= batch_bound o)%Z
  /\ (forall req out, In (HttpPost req out) acts ->
        (Z.of_nat (length (request_records req)) <= batch_bound o)%Z).
Proof.
  induction ticks as [|t rest IH]; intros batch last st acts Hrun Hb.
  - simpl in Hrun. injection Hrun as <- <-. cbn [held]. split; [exact Hb|].
    intros req out [].
  - cbn [run] in Hrun.
    destruct (iteration h o ctx batch last t) as [st1 acts1] eqn:Hit.
    destruct (iteration_bound _ _ _ _ _ _ _ _ Hit Hb) as (Hh1 & Hp1).
    assert (Hposts1 : forall req out, In (HttpPost req out) acts1 ->
               (Z.of_nat (length (request_records req)) <= batch_bound o)%Z).
    { intros req out Hin. destruct (Hp1 req out Hin) as [calls Hm].
      now rewrite (mapper_record_count _ _ _ _ _ Hm). }
    destruct st1 as [batch' last'| batch' | e];
      [| injection Hrun as <- <-; auto | injection Hrun as <- <-; auto ].
    destruct (run h o ctx rest batch' last') as [st2 acts2] eqn:Hrest.
    injection Hrun as <- <-.
    destruct (IH _ _ _ _ Hrest Hh1) as (Hh2 & Hp2).
    split; [exact Hh2|].
    intros req out Hin. apply in_app_iff in Hin. destruct Hin; eauto.
Qed.

(** X7: the loop of [export] never holds more than [batchSize] logs (none
    when [batchSize] is not positive), and no request that it posts, the last
    flush of [export] included, carries more records than that. *)
Theorem posts_within_batch_size (h : Host) (o : Options) (ctx : ContextId)
  (ticks : list Tick) (last : Z) (last_observed : nat -> Q) (last_outcome : FetchOutcome) :
  (Z.of_nat (length (held (fst (run h o ctx ticks [] last)))) <= batch_bound o)%Z
  /\ (forall req out, In (HttpPost req out) (snd (run h o ctx ticks [] last)) ->
        (Z.of_nat (length (request_records req)) <= batch_bound o)%Z)
  /\ match export h o ctx last ticks last_observed last_outcome with
     | Some (_, acts) =>
         forall req out, In (HttpPost req out) acts ->
           (Z.of_nat (length (request_records req)) <= batch_bound o)%Z
     | None => True
     end.
Proof.
  unfold export. destruct (run h o ctx ticks [] last) as [st acts] eqn:Hrun.
  assert (H0 : (Z.of_nat (length (@nil Log)) <= batch_bound o)%Z)
    by (unfold batch_bound; simpl; lia).
  destruct (run_bound _ _ _ _ _ _ _ _ Hrun H0) as (Hh & Hp).
  cbn [fst snd]. split; [exact Hh|]. split; [exact Hp|].
  destruct st as [b l | b | e]; [exact I | | exact Hp].
  cbn [held] in Hh.
  destruct (0 <? length b)%nat.
  - destruct (exportBatch h last_observed last_outcome b) as [acts'|e] eqn:Hx.
    + intros req out Hin. apply in_app_iff in Hin. destruct Hin as [Hin|[Hin|Hin]].
      * eauto.
      * discriminate.
      * apply in_app_iff in Hin. destruct Hin as [Hin|[Hin|[]]]; [|discriminate].
        destruct (exportBatch_post _ _ _ _ _ _ _ Hx Hin) as [calls Hm].
        now rewrite (mapper_record_count _ _ _ _ _ Hm).
    + intros req out Hin. apply in_app_iff in Hin. destruct Hin as [Hin|[Hin|[]]];
        [eauto | discriminate].
  - intros req out Hin. apply in_app_iff in Hin. destruct Hin as [Hin|[Hin|[]]];
      [eauto | discriminate].
Qed.

(** X9: the size of the batch plays no part in the flush on timeout: an
    iteration that starts with an empty batch more than [fullBatchTimeout]
    after the last flush calls [#exportBatch] on the empty batch and posts
    one request without any entry, then restarts the clock. *)
Theorem timeout_flushes_empty_batch (h : Host) (o : Options) (ctx : ContextId)
  (last : Z) (t : Tick) :
  (fullBatchTimeout o < now_at_check t - last)%Z ->
  negb (softStop o) && done_at_head t = false ->
  exists acts,
    iteration h o ctx [] last t = (Looping [] (now_after_flush t), acts)
    /\ In (CallExportBatch []) acts
    /\ In (HttpPost {| resourceLogs := [] |} (fetch_outcome t)) acts
    /\ length (filter is_post acts) = 1.
Proof.
  intros Ht Hhead. unfold iteration. rewrite Hhead.
  assert (Hf : flush_due o [] last t = true).
  { unfold flush_due. apply orb_true_iff. right. apply Z.gtb_lt. lia. }
  rewrite Hf. cbn. eexists. split; [reflexivity|].
  destruct (softStop o); cbn.
  - split; [now left|]. split; [right; right; now left|].
    destruct (fetch_outcome t) as [[r|]|e d c|e]; cbn; try reflexivity.
    destruct (partialSuccess r) as [p|]; cbn; try reflexivity.
    destruct (rejectedLogsRecords p >? 0)%Z; reflexivity.
  - split; [right; now left|]. split; [right; right; right; now left|].
    destruct (fetch_outcome t) as [[r|]|e d c|e]; cbn; try reflexivity.
    destruct (partialSuccess r) as [p|]; cbn; try reflexivity.
    destruct (rejectedLogsRecords p >? 0)%Z; reflexivity.
Qed.

Lemma timeout_flushes_empty_batch_witness :
  let o := {| batchSize := 10; fullBatchTimeout := 1000; receiveTimeout := 1000;
              softStop := true |} in
  let t := {| done_at_head := false; now_at_check := 1500; observed_nanos := epoch;
              fetch_outcome := Resolved None; now_after_flush := 1501;
              received := RecvErr ContextCancelledError; done_after_cancel := false |} in
  (fullBatchTimeout o < now_at_check t - 0)%Z
  /\ negb (softStop o) && done_at_head t = false
  /\ exists acts,
       iteration signal_host o 0 [] 0 t = (Looping [] 1501, acts)
       /\ In (CallExportBatch []) acts
       /\ In (HttpPost {| resourceLogs := [] |} (Resolved None)) acts
       /\ length (filter is_post acts) = 1.
Proof.
  cbv zeta. split; [cbn; lia|]. split; [reflexivity|].
  apply (timeout_flushes_empty_batch signal_host
           {| batchSize := 10; fullBatchTimeout := 1000; receiveTimeout := 1000;
              softStop := true |} 0 0
           {| done_at_head := false; now_at_check := 1500; observed_nanos := epoch;
              fetch_outcome := Resolved None; now_after_flush := 1501;
              received := RecvErr ContextCancelledError; done_after_cancel := false |}).
  - cbn. lia.
  - reflexivity.
Defined.

End ExporterFacts.

(* ================================================================== *)
(** ** Properties of the dispatch handler *)
(* ================================================================== *)

Module DispatchFacts.
Import Js Otel Exporter Dispatch.

(** *** The claim on the dispatch handler *)

Ltac settle_attempts :=
  let i := fresh "i" in let Hi := fresh "Hi" in
  intros i Hi;
  repeat (destruct i as [|i]; [unfold failed; eauto; fail | ]);
  exfalso; simpl in Hi; lia.

(** C7: for a URL that classifies to a content type the handler returns
    after [n] sends, [1 <= n <= 5], the same request each time, with one
    sleep of 500 ms between two consecutive sends and none elsewhere.  The
    sends before the last one all failed.  Either the last send succeeded
    and the response is 200, or [n = 5], the fifth send failed and the
    handler throws an HTTP 500 whose cause is the error of that fifth
    send. *)
Theorem dispatch_retries (url ct : string) (send : nat -> Result unit) :
  exists n acts res,
    dispatchPostHandler url (Some ct) send = Some (acts, res)
    /\ 1 <= n <= 5
    /\ pacing acts = paced_sends n (fetchRequest_of url ct) 500
    /\ (forall i, i < n - 1 -> failed (send i))
    /\ ((send (n - 1) = Ok tt /\ res = Normal {| status := 200 |})
        \/ (n = 5 /\ exists err, send 4 = Err err
                                 /\ res = Throw (HTTPException 500 err))).
Proof.
  unfold dispatchPostHandler.
  destruct (send 0) as [[]|e0] eqn:E0.
  { exists 1. cbn. rewrite E0. cbn. do 2 eexists. split; [reflexivity|].
    split; [lia|]. split; [reflexivity|]. split; [settle_attempts|]. left.
    split; reflexivity. }
  destruct (send 1) as [[]|e1] eqn:E1.
  { exists 2. cbn. rewrite E0, E1. cbn. do 2 eexists. split; [reflexivity|].
    split; [lia|]. split; [reflexivity|]. split; [settle_attempts|]. left.
    split; reflexivity. }
  destruct (send 2) as [[]|e2] eqn:E2.
  { exists 3. cbn. rewrite E0, E1, E2. cbn. do 2 eexists. split; [reflexivity|].
    split; [lia|]. split; [reflexivity|]. split; [settle_attempts|]. left.
    split; reflexivity. }
  destruct (send 3) as [[]|e3] eqn:E3.
  { exists 4. cbn. rewrite E0, E1, E2, E3. cbn. do 2 eexists. split; [reflexivity|].
    split; [lia|]. split; [reflexivity|]. split; [settle_attempts|]. left.
    split; reflexivity. }
  destruct (send 4) as [[]|e4] eqn:E4.
  { exists 5. cbn. rewrite E0, E1, E2, E3, E4. cbn. do 2 eexists. split; [reflexivity|].
    split; [lia|]. split; [reflexivity|]. split; [settle_attempts|]. left.
    split; reflexivity. }
  exists 5. cbn. rewrite E0, E1, E2, E3, E4. cbn. do 2 eexists. split; [reflexivity|].
  split; [lia|]. split; [reflexivity|]. split; [settle_attempts|]. right.
  split; [reflexivity|]. eexists. split; reflexivity.
Qed.

(** Without a content type the handler throws an HTTP 400 and sends nothing. *)
Lemma dispatch_unknown_content_type (url : string) (send : nat -> Result unit) :
  exists cause, dispatchPostHandler url None send = Some ([], Throw (HTTPException 400 cause)).
Proof. eexists. reflexivity. Qed.

(** The exhaustion scenario of the spec: every send fails; five sends, four
    sleeps between them, an HTTP 500. *)
Example producer_exhaustion_scenario :
  let unavailable := newNamedError "QueueUnavailable" "disk error" in
  exists acts,
    dispatchPostHandler "https://example.org/feed" (Some "application/rss+xml")
      (fun _ => Err unavailable)
    = Some (acts, Throw (HTTPException 500 unavailable))
    /\ pacing acts
       = paced_sends 5 (fetchRequest_of "https://example.org/feed" "application/rss+xml") 500.
Proof. cbv zeta. eexists. split; reflexivity. Qed.

(** *** What the handler logs *)


End DispatchFacts.

(* ================================================================== *)
(** ** Properties of the log functions *)
(* ================================================================== *)

Module FnsFacts.
Import Js JsFacts Otel Fns.

(** *** Facts on [Object.assign] *)

Lemma assign_key_other (t : JsonObject * Prototype) (k : string) (v : JsonValue) (k' : string) :
  k' <> k -> obj_lookup (fst (assign_key t k v)) k' = obj_lookup (fst t) k'.
Proof.
  intros Hne. destruct t as [own p]. unfold assign_key. cbn [fst].
  assert (Hset : obj_lookup (obj_set own k v) k' = obj_lookup own k').
  { apply obj_lookup_set_other. congruence. }
  destruct (obj_lookup own k); [exact Hset|].
  destruct (String.eqb k "__proto__" && reaches_setter p); [reflexivity | exact Hset].
Qed.

Lemma assign_key_same (t : JsonObject * Prototype) (k : string) (v : JsonValue) :
  k <> "__proto__" \/ obj_lookup (fst t) k <> None ->
  obj_lookup (fst (assign_key t k v)) k = Some v.
Proof.
  intros H. destruct t as [own p]. unfold assign_key. cbn [fst] in *.
  destruct (obj_lookup own k) eqn:E; cbn [fst]; [apply obj_lookup_set_same|].
  destruct H as [H|H]; [|congruence].
  apply String.eqb_neq in H. rewrite H. cbn [andb fst]. apply obj_lookup_set_same.
Qed.

Lemma assign_key_proto (t : JsonObject * Prototype) (k : string) (v : JsonValue) :
  k <> "__proto__" -> snd (assign_key t k v) = snd t.
Proof.
  intros H. destruct t as [own p]. unfold assign_key. cbn [snd].
  apply String.eqb_neq in H. rewrite H. cbn [andb].
  now destruct (obj_lookup own k).
Qed.

Lemma assign_fold_frame (source : JsonObject) (keys : list string) (k : string) :
  ~ In k keys ->
  forall t : JsonObject * Prototype,
  obj_lookup (fst (fold_left (fun t k' => assign_key t k' (js_get source k')) keys t)) k
  = obj_lookup (fst t) k.
Proof.
  induction keys as [|k0 keys IH]; intros Hnot t; cbn [fold_left]; [reflexivity|].
  rewrite IH by (intros H; apply Hnot; now right).
  apply assign_key_other. intros ->. apply Hnot. now left.
Qed.

Lemma assign_fold_set (source : JsonObject) (keys : list string) (k : string) :
  In k keys ->
  forall t : JsonObject * Prototype,
  k <> "__proto__" \/ obj_lookup (fst t) k <> None ->
  obj_lookup (fst (fold_left (fun t k' => assign_key t k' (js_get source k')) keys t)) k
  = Some (js_get source k).
Proof.
  induction keys as [|k0 keys IH]; intros Hin t Hk; cbn [fold_left]; [destruct Hin|].
  destruct (in_dec string_dec k keys) as [Hlater|Hlast].
  - apply IH; [exact Hlater|].
    destruct Hk as [Hk|Hk]; [now left|]. right.
    destruct (string_dec k k0) as [->|Hne].
    + rewrite assign_key_same by now right. discriminate.
    + now rewrite assign_key_other.
  - destruct Hin as [->|Hin]; [|contradiction].
    rewrite assign_fold_frame by exact Hlast. now apply assign_key_same.
Qed.

Lemma assign_fold_proto (source : JsonObject) (keys : list string) :
  ~ In "__proto__" keys ->
  forall t : JsonObject * Prototype,
  snd (fold_left (fun t k' => assign_key t k' (js_get source k')) keys t) = snd t.
Proof.
  induction keys as [|k0 keys IH]; intros Hnot t; cbn [fold_left]; [reflexivity|].
  rewrite IH by (intros H; apply Hnot; now right).
  apply assign_key_proto. intros ->. apply Hnot. now left.
Qed.

(** After [Object.assign(target, source)] a key of [source] is an own
    property of the target with the value of [source], unless the key is
    [__proto__] and the target had no such property; any other key is as it
    was. *)
Lemma Object_assign_lookup (own : JsonObject) (p : Prototype) (source : JsonObject) (k : string) :
  k <> "__proto__" \/ obj_lookup own k <> None ->
  obj_lookup (fst (Object_assign own p source)) k
  = match obj_lookup source k with
    | Some v => Some v
    | None => obj_lookup own k
    end.
Proof.
  intros Hk. unfold Object_assign.
  destruct (in_dec string_dec k (obj_keys source)) as [Hin|Hnot].
  - rewrite assign_fold_set by assumption.
    unfold js_get. destruct (obj_lookup source k) as [v|] eqn:E; [reflexivity|].
    apply obj_lookup_None in E. contradiction.
  - rewrite assign_fold_frame by assumption.
    apply obj_lookup_None in Hnot. now rewrite Hnot.
Qed.

Lemma Object_assign_frame (own : JsonObject) (p : Prototype) (source : JsonObject) (k : string) :
  obj_lookup source k = None ->
  obj_lookup (fst (Object_assign own p source)) k = obj_lookup own k.
Proof.
  intros Hk. unfold Object_assign. apply assign_fold_frame.
  now apply obj_lookup_None.
Qed.

Lemma Object_assign_prototype (own : JsonObject) (p : Prototype) (source : JsonObject) :
  obj_lookup source "__proto__" = None -> snd (Object_assign own p source) = p.
Proof.
  intros Hk. unfold Object_assign. rewrite assign_fold_proto; [reflexivity|].
  now apply obj_lookup_None.
Qed.

(** An object whose prototype is [Object.prototype] reads its own
    properties only. *)
Lemma read_own (w : World) (r : Ref) (key : string) :
  prototypes w r = ProtoObject -> read w r key = js_get (heap w r) key.
Proof.
  intros Hp. unfold read, get, js_get. rewrite Hp. reflexivity.
Qed.

(** *** The claims on the log functions *)


(** C10: the function returned by [withProperties(injected, logfn)] calls
    [logfn] on the given reference, in a world where only the given object
    has changed.  A key that [injected] and the caller's log both hold reads
    there as in [injected], whatever the caller had put under it; so does
    every key of [injected] other than [__proto__], which [Object.assign]
    hands to the setter of [Object.prototype] when the log has no such
    property; every key that [injected] does not hold is as before, and
    without [__proto__] in [injected] the prototype is as before.  With the
    test double as [logfn], the call recorded carries the given reference
    and the changed object. *)
Theorem withProperties_injected_wins (injected : Ref) (logfn : StructuredLogFunction)
  (givenLog : Ref) (w : World) :
  let w' := store w givenLog
              (Object_assign (heap w givenLog) (prototypes w givenLog) (heap w injected)) in
  withProperties injected logfn givenLog w = logfn givenLog w'
  /\ (forall k v, obj_lookup (heap w injected) k = Some v ->
                  obj_lookup (heap w givenLog) k <> None ->
                  obj_lookup (heap w' givenLog) k = Some v)
  /\ (forall k v, obj_lookup (heap w injected) k = Some v -> k <> "__proto__" ->
                  obj_lookup (heap w' givenLog) k = Some v)
  /\ (forall k, obj_lookup (heap w injected) k = None ->
                obj_lookup (heap w' givenLog) k = obj_lookup (heap w givenLog) k)
  /\ (obj_lookup (heap w injected) "__proto__" = None ->
        prototypes w' givenLog = prototypes w givenLog)
  /\ (forall r, r <> givenLog -> heap w' r = heap w r /\ prototypes w' r = prototypes w r)
  /\ (exists w'', withProperties injected mock givenLog w = Normal w''
        /\ mock_calls w'' = mock_calls w ++ [(givenLog, heap w' givenLog)]
        /\ heap w'' = heap w').
Proof.
  cbv zeta. split; [reflexivity|].
  set (assigned := Object_assign (heap w givenLog) (prototypes w givenLog) (heap w injected)).
  assert (Hself : heap (store w givenLog assigned) givenLog = fst assigned).
  { cbn [store heap]. now rewrite Nat.eqb_refl. }
  assert (Hproto : prototypes (store w givenLog assigned) givenLog = snd assigned).
  { cbn [store prototypes]. now rewrite Nat.eqb_refl. }
  split; [|split; [|split; [|split; [|split]]]].
  - intros k v Hk Hown. rewrite Hself. unfold assigned.
    rewrite Object_assign_lookup by now right. now rewrite Hk.
  - intros k v Hk Hne. rewrite Hself. unfold assigned.
    rewrite Object_assign_lookup by now left. now rewrite Hk.
  - intros k Hk. rewrite Hself. now apply Object_assign_frame.
  - intros Hk. rewrite Hproto. now apply Object_assign_prototype.
  - intros r Hr. cbn [store heap prototypes]. apply Nat.eqb_neq in Hr. now rewrite Hr.
  - unfold withProperties, mock. eexists. split; [reflexivity|]. cbn [mock_calls heap].
    split; reflexivity.
Qed.

(** The unit test of [withProperties]: [{ a: "b" }] injected into
    [{ c: "d" }]; and a caller that sets [a] itself does not keep its value. *)
Example withProperties_scenario :
  let w : World :=
    {| heap := fun r => match r with
                        | 0 => [("a", JString "b")]
                        | 1 => [("c", JString "d")]
                        | _ => [("a", JString "mine")]
                        end;
       prototypes := fun _ => ProtoObject;
       console := []; sent := []; mock_calls := [] |} in
  exists w1 w2,
    withProperties 0 mock 1 w = Normal w1
    /\ mock_calls w1 = [(1, [("c", JString "d"); ("a", JString "b")])]
    /\ withProperties 0 mock 2 w = Normal w2
    /\ mock_calls w2 = [(2, [("a", JString "b")])].
Proof. cbv zeta. do 2 eexists. repeat split; reflexivity. Qed.

(** An injected object with an own key [__proto__] (as [JSON.parse] builds
    it): the log gets no property of that name; an object under the key
    becomes the prototype of the log, whose [severityNumber] then reads
    through it, and a text under the key is ignored. *)
Example injected_proto_key :
  let w : World :=
    {| heap := fun r => match r with
                        | 0 => [("__proto__", JObject [("severityNumber", JNumber 5)])]
                        | 1 => [("__proto__", JString "x")]
                        | _ => [("message", JString "hi")]
                        end;
       prototypes := fun _ => ProtoObject;
       console := []; sent := []; mock_calls := [] |} in
  exists w1 w2,
    withProperties 0 mock 2 w = Normal w1
    /\ heap w1 2 = [("message", JString "hi")]
    /\ prototypes w1 2 = ProtoPlain [("severityNumber", JNumber 5)]
    /\ read w1 2 "severityNumber" = JNumber 5
    /\ withProperties 0 (withDebug false mock) 2 w = Normal (store w 2 (heap w1 2, prototypes w1 2))
    /\ withProperties 1 mock 2 w = Normal w2
    /\ heap w2 2 = [("message", JString "hi")]
    /\ prototypes w2 2 = ProtoObject.
Proof. cbv zeta. do 2 eexists. repeat split; reflexivity. Qed.

(** *** The other combinators and the logger of a request *)

(** X10: [withTimestamps] sets [timeUnixNano] to the current time exactly
    when it reads [undefined] (absent, or present with the value
    [undefined]) and keeps any other value, [null] included; it changes no
    other key, no prototype and no other object; a key that was absent is
    added last.  The wrapped function is then called on the same object. *)
Theorem withTimestamps_fills_missing (now_nanos : Q) (logfn : StructuredLogFunction)
  (givenLog : Ref) (w : World) :
  exists w1,
    withTimestamps now_nanos logfn givenLog w = logfn givenLog w1
    /\ read w1 givenLog "timeUnixNano"
       = match read w givenLog "timeUnixNano" with
         | JUndefined => JNumber now_nanos
         | v => v
         end
    /\ (forall k, k <> "timeUnixNano" ->
          obj_lookup (heap w1 givenLog) k = obj_lookup (heap w givenLog) k)
    /\ (forall r, r <> givenLog -> heap w1 r = heap w r)
    /\ (forall r, prototypes w1 r = prototypes w r)
    /\ (prototypes w givenLog = ProtoObject ->
          read w givenLog "timeUnixNano" = js_get (heap w givenLog) "timeUnixNano")
    /\ (obj_lookup (heap w givenLog) "timeUnixNano" = None ->
          read w givenLog "timeUnixNano" = JUndefined ->
          obj_keys (heap w1 givenLog) = obj_keys (heap w givenLog) ++ ["timeUnixNano"]).
Proof.
  unfold withTimestamps. change LogKey.TimestampUnixNano with "timeUnixNano".
  assert (Hkeep : forall v, read w givenLog "timeUnixNano" = v -> v <> JUndefined ->
            exists w1, logfn givenLog w = logfn givenLog w1
              /\ read w1 givenLog "timeUnixNano"
                 = match v with JUndefined => JNumber now_nanos | _ => v end
              /\ (forall k, k <> "timeUnixNano" ->
                    obj_lookup (heap w1 givenLog) k = obj_lookup (heap w givenLog) k)
              /\ (forall r, r <> givenLog -> heap w1 r = heap w r)
              /\ (forall r, prototypes w1 r = prototypes w r)
              /\ (prototypes w givenLog = ProtoObject ->
                    read w givenLog "timeUnixNano"
                    = js_get (heap w givenLog) "timeUnixNano")
              /\ (obj_lookup (heap w givenLog) "timeUnixNano" = None ->
                    v = JUndefined ->
                    obj_keys (heap w1 givenLog)
                    = obj_keys (heap w givenLog) ++ ["timeUnixNano"])).
  { intros v Hv Hne. exists w. split; [reflexivity|]. split.
    - rewrite Hv. destruct v; congruence.
    - split; [auto|]. split; [auto|]. split; [auto|]. split; [apply read_own|].
      intros _ Hu. contradiction. }
  destruct (read w givenLog "timeUnixNano") eqn:E;
    try (apply (Hkeep _ eq_refl); discriminate).
  clear Hkeep. eexists. split; [reflexivity|].
  set (assigned := Object_assign (heap w givenLog) (prototypes w givenLog)
                     [("timeUnixNano", JNumber now_nanos)]).
  assert (Hlook : forall k,
            obj_lookup (fst assigned) k
            = if String.eqb "timeUnixNano" k then Some (JNumber now_nanos)
              else obj_lookup (heap w givenLog) k).
  { intros k. unfold assigned. destruct (String.eqb_spec "timeUnixNano" k) as [<-|Hne].
    - rewrite Object_assign_lookup by (left; discriminate). cbn [obj_lookup].
      now rewrite String.eqb_refl.
    - rewrite Object_assign_frame; [reflexivity|]. cbn [obj_lookup].
      apply String.eqb_neq in Hne. now rewrite Hne. }
  assert (Hp : snd assigned = prototypes w givenLog).
  { unfold assigned. now apply Object_assign_prototype. }
  split; [|split; [|split; [|split; [|split]]]].
  - unfold read, get. cbn [store heap prototypes]. rewrite Nat.eqb_refl.
    cbn [fst snd]. now rewrite Hlook.
  - intros k Hk. cbn [store heap]. rewrite Nat.eqb_refl. cbn [fst]. rewrite Hlook.
    destruct (String.eqb_spec "timeUnixNano" k); [congruence | reflexivity].
  - intros r Hr. cbn [store heap]. apply Nat.eqb_neq in Hr. now rewrite Hr.
  - intros r. cbn [store prototypes]. destruct (Nat.eqb_spec r givenLog) as [->|Hr];
      [exact Hp | reflexivity].
  - intros Hpo. rewrite <- E. now apply read_own.
  - intros Hnone _. cbn [store heap]. rewrite Nat.eqb_refl. unfold assigned, Object_assign.
    cbn [obj_keys map fst fold_left assign_key]. rewrite Hnone.
    cbn [String.eqb Ascii.eqb Bool.eqb andb fst]. unfold obj_set. rewrite Hnone.
    cbn [array_index]. cbn. unfold obj_keys. rewrite map_app. reflexivity.
Qed.

(** X11: a chain of log functions is the chain of its first functions
    followed by the chain of the others on the same log object, with the
    changes that the first made; a throw in the first part ends the chain and
    no later function is called. *)
Theorem withChain_sequences (first rest : list StructuredLogFunction)
  (givenLog : Ref) (w : World) :
  withChain (first ++ rest) givenLog w
  = match withChain first givenLog w with
    | Normal w' => withChain rest givenLog w'
    | Throw t => Throw t
    end.
Proof.
  revert w. induction first as [|f first IH]; intros w; cbn [app withChain].
  - reflexivity.
  - destruct (f givenLog w) as [w'|t]; cbn [bind]; [apply IH | reflexivity].
Qed.

(** X12: two nested [withDebug] filters let a debug log through exactly
    when both are enabled: nesting them is one filter with the conjunction of
    the two flags. *)
Theorem withDebug_twice (outer inner : bool) (logfn : StructuredLogFunction)
  (givenLog : Ref) (w : World) :
  withDebug outer (withDebug inner logfn) givenLog w
  = withDebug (outer && inner) logfn givenLog w.
Proof.
  destruct outer, inner; cbn [andb]; unfold withDebug; try reflexivity.
  now destruct (negb (is_debug w givenLog)).
Qed.

(** X13: with two nested [withProperties], the outer injection is applied
    first and the inner one last, so on a shared key the inner properties win
    over the outer ones, and both win over the caller's; no other object is
    changed.  This holds for every key other than [__proto__], and for
    [__proto__] too when the caller's log has a property of that name. *)
Theorem withProperties_nested (outer inner : Ref) (logfn : StructuredLogFunction)
  (givenLog : Ref) (w : World) :
  inner <> givenLog ->
  exists w2,
    withProperties outer (withProperties inner logfn) givenLog w = logfn givenLog w2
    /\ (forall k,
          k <> "__proto__" \/ obj_lookup (heap w givenLog) k <> None ->
          obj_lookup (heap w2 givenLog) k
          = match obj_lookup (heap w inner) k with
            | Some v => Some v
            | None =>
                match obj_lookup (heap w outer) k with
                | Some v => Some v
                | None => obj_lookup (heap w givenLog) k
                end
            end)
    /\ (forall r, r <> givenLog -> heap w2 r = heap w r /\ prototypes w2 r = prototypes w r).
Proof.
  intros Hne. unfold withProperties. eexists. split; [reflexivity|].
  cbn [store heap prototypes]. rewrite Nat.eqb_refl.
  apply Nat.eqb_neq in Hne. rewrite Hne. cbn [fst snd]. split.
  - intros k Hk.
    set (first := Object_assign (heap w givenLog) (prototypes w givenLog) (heap w outer)).
    assert (Hfirst : obj_lookup (fst first) k
                     = match obj_lookup (heap w outer) k with
                       | Some v => Some v
                       | None => obj_lookup (heap w givenLog) k
                       end)
      by now apply Object_assign_lookup.
    rewrite (Object_assign_lookup (fst first) (snd first) (heap w inner) k).
    + now rewrite Hfirst.
    + destruct Hk as [Hk|Hk]; [now left|]. right. rewrite Hfirst.
      now destruct (obj_lookup (heap w outer) k).
  - intros r Hr. apply Nat.eqb_neq in Hr. now rewrite Hr.
Qed.

Lemma withProperties_nested_witness :
  let w : World :=
    {| heap := fun r => match r with
                        | 0 => [("a", JString "outer"); ("b", JString "outer")]
                        | 1 => [("a", JString "inner")]
                        | _ => [("a", JString "mine"); ("c", JString "mine")]
                        end;
       prototypes := fun _ => ProtoObject;
       console := []; sent := []; mock_calls := [] |} in
  1 <> 2
  /\ exists w2,
       withProperties 0 (withProperties 1 mock) 2 w = mock 2 w2
       /\ obj_lookup (heap w2 2) "a" = Some (JString "inner")
       /\ obj_lookup (heap w2 2) "b" = Some (JString "outer")
       /\ obj_lookup (heap w2 2) "c" = Some (JString "mine").
Proof.
  cbv zeta. split; [discriminate|].
  destruct (withProperties_nested 0 1 mock 2
              {| heap := fun r => match r with
                                  | 0 => [("a", JString "outer"); ("b", JString "outer")]
                                  | 1 => [("a", JString "inner")]
                                  | _ => [("a", JString "mine"); ("c", JString "mine")]
                                  end;
                 prototypes := fun _ => ProtoObject;
                 console := []; sent := []; mock_calls := [] |})
    as (w2 & Hcall & Hkeys & _); [discriminate|].
  exists w2. split; [exact Hcall|].
  rewrite !Hkeys by (left; discriminate). repeat split; reflexivity.
Defined.

(** X14: the logger that the middleware sets when a log queue is bound tees
    each log: the console gets it unless it is a debug log and [LOG_DEBUG] is
    not [true]; the queue gets every log, debug logs included.  The one
    exception: when the console is to get a log that holds a bigint,
    [JSON.stringify] throws and the queue does not get the log. *)
Theorem request_logger_tees (env : SignalLogsBindings) (queue : nat)
  (givenLog : Ref) (w : World) :
  LOG_QUEUE env = Some queue ->
  let log := heap w givenLog in
  if reaches_console env w givenLog && has_bigint (JObject log) then
    exists t, request_logger env givenLog w = Throw t
  else
    exists w',
      request_logger env givenLog w = Normal w'
      /\ heap w' = heap w
      /\ prototypes w' = prototypes w
      /\ console w' = console w ++ (if reaches_console env w givenLog then [log] else [])
      /\ sent w' = sent w ++ [(queue, log)].
Proof.
  intros Hq. cbv zeta. unfold request_logger, reaches_console, baseLogger. rewrite Hq.
  cbn [withChain]. unfold withDebug.
  destruct (debug_enabled env); cbn [orb].
  - unfold consoleLogger.
    destruct (has_bigint (JObject (heap w givenLog))); cbn [andb bind].
    + eauto.
    + eexists. split; [reflexivity|]. cbn. rewrite ?app_nil_r. auto.
  - destruct (negb (is_debug w givenLog)); cbn [andb].
    + unfold consoleLogger.
      destruct (has_bigint (JObject (heap w givenLog))); cbn [bind].
      * eauto.
      * eexists. split; [reflexivity|]. cbn. auto.
    + cbn [bind]. eexists. split; [reflexivity|]. cbn. rewrite app_nil_r. auto.
Qed.

Lemma request_logger_tees_witness :
  let env := {| LOG_QUEUE := Some 7; LOG_DEBUG := None |} in
  let w : World :=
    {| heap := fun _ => [("severityNumber", JNumber 5); ("message", JString "hi")];
       prototypes := fun _ => ProtoObject;
       console := []; sent := []; mock_calls := [] |} in
  LOG_QUEUE env = Some 7
  /\ exists w',
       request_logger env 0 w = Normal w'
       /\ console w' = []
       /\ sent w' = [(7, [("severityNumber", JNumber 5); ("message", JString "hi")])].
Proof.
  cbv zeta. split; [reflexivity|].
  pose proof (request_logger_tees {| LOG_QUEUE := Some 7; LOG_DEBUG := None |} 7 0
                {| heap := fun _ => [("severityNumber", JNumber 5); ("message", JString "hi")];
                   prototypes := fun _ => ProtoObject;
                   console := []; sent := []; mock_calls := [] |} eq_refl) as H.
  cbv zeta in H.
  change (reaches_console {| LOG_QUEUE := Some 7; LOG_DEBUG := None |}
            {| heap := fun _ => [("severityNumber", JNumber 5); ("message", JString "hi")];
               prototypes := fun _ => ProtoObject;
               console := []; sent := []; mock_calls := [] |} 0)
    with false in H.
  cbn [andb] in H. destruct H as (w' & Hrun & _ & _ & Hconsole & Hsent).
  exists w'. split; [exact Hrun|]. split; [exact Hconsole | exact Hsent].
Defined.

End FnsFacts.

(* ================================================================== *)
(** ** Properties of the cancellation scope *)
(* ================================================================== *)

Module ScopeFacts.
Import Scope.

(** *** Facts on stores *)

Lemma nth_error_update (st : Store) (f : Node -> Node) :
  forall id j,
  nth_error (update st id f) j
  = if Nat.eqb j id then option_map f (nth_error st j) else nth_error st j.
Proof.
  induction st as [|n rest IH]; intros [|id] [|j]; simpl; try reflexivity.
  - now destruct (Nat.eqb j id).
  - apply IH.
Qed.

Lemma length_update (st : Store) (f : Node -> Node) :
  forall id, length (update st id f) = length st.
Proof.
  induction st as [|n rest IH]; intros [|id]; simpl; auto.
Qed.

Lemma marks_refl (st : Store) : marks st st.
Proof. constructor; auto. Qed.

Lemma marks_trans (a b c : Store) : marks a b -> marks b c -> marks a c.
Proof.
  intros [L1 C1 P1 D1] [L2 C2 P2 D2]. constructor.
  - congruence.
  - intros i. now rewrite C2, C1.
  - intros i. now rewrite P2, P1.
  - auto.
Qed.

Lemma mark_marks (st : Store) (id : nat) : marks st (mark st id).
Proof.
  unfold mark. constructor.
  - apply length_update.
  - intros i. unfold children_of. rewrite nth_error_update.
    destruct (Nat.eqb i id); [|reflexivity]. now destruct (nth_error st i).
  - intros i. unfold parent_of. rewrite nth_error_update.
    destruct (Nat.eqb i id); [|reflexivity]. now destruct (nth_error st i).
  - intros i. unfold done. rewrite nth_error_update.
    destruct (Nat.eqb i id); [|auto]. now destruct (nth_error st i).
Qed.

Lemma done_mark_same (st : Store) (id : nat) :
  id < length st -> done (mark st id) id = true.
Proof.
  intros H. unfold done, mark. rewrite nth_error_update, Nat.eqb_refl.
  destruct (nth_error st id) eqn:E; [reflexivity|].
  apply nth_error_None in E. lia.
Qed.

Lemma done_mark_inv (st : Store) (id j : nat) :
  done (mark st id) j = true -> j = id \/ done st j = true.
Proof.
  unfold done, mark. rewrite nth_error_update.
  destruct (Nat.eqb_spec j id); auto.
Qed.

Lemma fold_marks (f : Store -> nat -> Store) (l : list nat) :
  (forall st c, marks st (f st c)) -> forall st, marks st (fold_left f l st).
Proof.
  intros Hf. induction l as [|c l IH]; intros st; simpl.
  - apply marks_refl.
  - eapply marks_trans; [apply Hf | apply IH].
Qed.

Lemma walk_marks (fuel : nat) : forall st id, marks st (cancel_walk fuel st id).
Proof.
  induction fuel as [|fuel IH]; intros st id; simpl.
  - apply marks_refl.
  - eapply marks_trans; [apply mark_marks | apply fold_marks, IH].
Qed.

Lemma reach_marks (st st' : Store) (a b : nat) :
  marks st st' -> reach st a b -> reach st' a b.
Proof.
  intros Hm H. induction H as [s | s c d Hin _ IH].
  - constructor.
  - apply reach_child with c; [|exact IH]. now rewrite (marks_children _ _ Hm).
Qed.

Lemma reach_marks_back (st st' : Store) (a b : nat) :
  marks st st' -> reach st' a b -> reach st a b.
Proof.
  intros Hm H. induction H as [s | s c d Hin _ IH].
  - constructor.
  - apply reach_child with c; [|exact IH]. now rewrite <- (marks_children _ _ Hm).
Qed.

Lemma reach_snoc (st : Store) (s p i : nat) :
  reach st s p -> In i (children_of st p) -> reach st s i.
Proof.
  intros H Hin. induction H as [s | s c d Hc _ IH].
  - apply reach_child with i; [exact Hin | constructor].
  - apply reach_child with c; [exact Hc | now apply IH].
Qed.

Lemma walk_complete (fuel : nat) :
  forall st id d,
  (forall p c, In c (children_of st p) -> p < c) ->
  length st <= fuel + id -> reach st id d -> d < length st ->
  done (cancel_walk fuel st id) d = true.
Proof.
  induction fuel as [|fuel IH]; intros st id d Hwf Hfuel Hreach Hd.
  - exfalso. destruct Hreach as [s | s c d Hin _].
    + simpl in Hfuel. lia.
    + unfold children_of in Hin. destruct (nth_error st s) eqn:E; [|destruct Hin].
      assert (s < length st) by (apply nth_error_Some; congruence). simpl in Hfuel. lia.
  - cbn [cancel_walk].
    assert (Hm : marks st (mark st id)) by apply mark_marks.
    destruct Hreach as [s | s c d Hin Hreach].
    + apply (marks_done _ _ (fold_marks _ _ (walk_marks fuel) _)).
      now apply done_mark_same.
    + assert (Hgen : forall l st0, marks st st0 -> In c l ->
                done (fold_left (cancel_walk fuel) l st0) d = true).
      { induction l as [|c0 l IHl]; intros st0 Hm0 Hc; [destruct Hc|]. simpl.
        destruct Hc as [->|Hc].
        - apply (marks_done _ _ (fold_marks _ _ (walk_marks fuel) _)).
          apply IH.
          + intros p c'. rewrite (marks_children _ _ Hm0). apply Hwf.
          + rewrite (marks_length _ _ Hm0). apply Hwf in Hin. lia.
          + now apply (reach_marks st).
          + now rewrite (marks_length _ _ Hm0).
        - apply IHl; [|exact Hc]. eapply marks_trans; [exact Hm0 | apply walk_marks]. }
      now apply Hgen.
Qed.

Lemma walk_only (fuel : nat) :
  forall st id j,
  done (cancel_walk fuel st id) j = true -> done st j = true \/ reach st id j.
Proof.
  induction fuel as [|fuel IH]; intros st id j H; simpl in H; [now left|].
  assert (Hgen : forall l st0, marks st st0 -> incl l (children_of st id) ->
            done (fold_left (cancel_walk fuel) l st0) j = true ->
            done st0 j = true \/ reach st id j).
  { induction l as [|c l IHl]; intros st0 Hm0 Hincl Hj; simpl in Hj; [now left|].
    destruct (IHl (cancel_walk fuel st0 c)) as [Hd|Hr]; auto.
    - eapply marks_trans; [exact Hm0 | apply walk_marks].
    - intros x Hx. apply Hincl. now right.
    - destruct (IH _ _ _ Hd) as [Hd'|Hr]; [now left|]. right.
      apply reach_child with c; [apply Hincl; now left|].
      now apply (reach_marks_back st st0). }
  destruct (Hgen _ _ (mark_marks st id) (incl_refl _) H) as [Hd|Hr]; [|now right].
  destruct (done_mark_inv _ _ _ Hd) as [->|Hd']; [right; constructor | now left].
Qed.

Lemma nth_error_snoc (st : Store) (n : Node) (i : nat) :
  nth_error (st ++ [n]) i
  = if Nat.ltb i (length st) then nth_error st i
    else if Nat.eqb i (length st) then Some n else None.
Proof.
  destruct (Nat.ltb_spec i (length st)) as [Hlt|Hge].
  - now apply nth_error_app1.
  - rewrite nth_error_app2 by exact Hge.
    destruct (Nat.eqb_spec i (length st)) as [->|Hne].
    + now rewrite Nat.sub_diag.
    + destruct (i - length st) as [|[|k]] eqn:E; simpl; try reflexivity. lia.
Qed.

Lemma parent_known (st : Store) (i p : nat) :
  parent_of st i = Some p -> i < length st.
Proof.
  unfold parent_of. destruct (nth_error st i) eqn:E; [|discriminate].
  intros _. apply nth_error_Some. congruence.
Qed.

Lemma done_known (st : Store) (i : nat) : done st i = true -> i < length st.
Proof.
  unfold done. destruct (nth_error st i) eqn:E; [|discriminate].
  intros _. apply nth_error_Some. congruence.
Qed.

Lemma child_known (st : Store) (p c : nat) : In c (children_of st p) -> p < length st.
Proof.
  unfold children_of. destruct (nth_error st p) eqn:E; [|intros []].
  intros _. apply nth_error_Some. congruence.
Qed.

Lemma cancel_well_formed (st : Store) (s : nat) :
  well_formed st -> well_formed (cancel st s).
Proof.
  intros [Hc Hpc Hr Hd]. unfold cancel.
  pose proof (walk_marks (length st) st s) as Hm.
  constructor.
  - intros p c. rewrite (marks_children _ _ Hm). apply Hc.
  - intros p c. rewrite (marks_children _ _ Hm), (marks_parent _ _ Hm). apply Hpc.
  - intros i p. rewrite (marks_parent _ _ Hm), (marks_children _ _ Hm). apply Hr.
  - intros i p. rewrite (marks_parent _ _ Hm). intros Hp Hdone.
    destruct (walk_only _ _ _ _ Hdone) as [Hold|Hreach].
    + apply (marks_done _ _ Hm). now apply (Hd i p).
    + apply walk_complete.
      * exact Hc.
      * lia.
      * apply reach_snoc with p; [exact Hreach | now apply Hr].
      * now apply parent_known with p.
Qed.

Lemma new_well_formed (st st' : Store) (parent : option nat) (id : nat) :
  well_formed st -> new st parent = Some (st', id) -> well_formed st'.
Proof.
  intros [Hc Hpc Hr Hd]. unfold new. destruct parent as [p|].
  - destruct (Nat.ltb_spec p (length st)) as [Hp|]; [|discriminate].
    intros [= <- <-].
    assert (Hch : forall i, children_of
                    (register st p (length st)
                       ++ [{| cancelled := done st p; children := []; parent := Some p |}]) i
                  = if Nat.eqb i p then children_of st p ++ [length st] else children_of st i).
    { intros i. unfold children_of, register.
      rewrite nth_error_snoc, length_update, nth_error_update.
      destruct (Nat.ltb_spec i (length st)) as [Hi|Hi].
      - destruct (Nat.eqb_spec i p) as [->|]; [|reflexivity].
        now destruct (nth_error st p) eqn:E; [|apply nth_error_None in E; lia].
      - destruct (Nat.eqb_spec i p) as [->|]; [lia|].
        destruct (Nat.eqb_spec i (length st)) as [->|].
        + destruct (nth_error st (length st)) eqn:E; [|reflexivity].
          assert (length st < length st) by (apply nth_error_Some; congruence). lia.
        + destruct (nth_error st i) eqn:E; [|reflexivity].
          assert (i < length st) by (apply nth_error_Some; congruence). lia. }
    assert (Hpa : forall i, parent_of
                    (register st p (length st)
                       ++ [{| cancelled := done st p; children := []; parent := Some p |}]) i
                  = if Nat.eqb i (length st) then Some p else parent_of st i).
    { intros i. unfold parent_of, register.
      rewrite nth_error_snoc, length_update, nth_error_update.
      destruct (Nat.ltb_spec i (length st)) as [Hi|Hi].
      - destruct (Nat.eqb_spec i (length st)); [lia|].
        destruct (Nat.eqb_spec i p) as [->|]; [|reflexivity].
        now destruct (nth_error st p).
      - destruct (Nat.eqb_spec i (length st)) as [->|]; [reflexivity|].
        destruct (nth_error st i) eqn:E; [|reflexivity].
        assert (i < length st) by (apply nth_error_Some; congruence). lia. }
    assert (Hdn : forall i, done
                    (register st p (length st)
                       ++ [{| cancelled := done st p; children := []; parent := Some p |}]) i
                  = if Nat.eqb i (length st) then done st p else done st i).
    { intros i. unfold done at 1, register.
      rewrite nth_error_snoc, length_update, nth_error_update.
      destruct (Nat.ltb_spec i (length st)) as [Hi|Hi].
      - destruct (Nat.eqb_spec i (length st)); [lia|].
        destruct (Nat.eqb_spec i p) as [->|]; [|reflexivity].
        unfold done. now destruct (nth_error st p).
      - destruct (Nat.eqb_spec i (length st)) as [->|]; [reflexivity|].
        unfold done. destruct (nth_error st i) eqn:E; [|reflexivity].
        assert (i < length st) by (apply nth_error_Some; congruence). lia. }
    constructor.
    + intros q c. rewrite Hch. destruct (Nat.eqb_spec q p) as [->|]; [|apply Hc].
      intros Hin. apply in_app_iff in Hin. destruct Hin as [Hin|[<-|[]]]; [now apply Hc | exact Hp].
    + intros q c. rewrite Hch, Hpa. destruct (Nat.eqb_spec q p) as [->|Hq].
      * intros Hin. apply in_app_iff in Hin. destruct Hin as [Hin|[<-|[]]].
        -- pose proof (parent_known _ _ _ (Hpc _ _ Hin)).
           destruct (Nat.eqb_spec c (length st)); [lia | now apply Hpc].
        -- now rewrite Nat.eqb_refl.
      * intros Hin. pose proof (parent_known _ _ _ (Hpc _ _ Hin)).
        destruct (Nat.eqb_spec c (length st)); [lia | now apply Hpc].
    + intros i q. rewrite Hpa, Hch.
      destruct (Nat.eqb_spec i (length st)) as [->|Hi].
      * intros [= <-]. rewrite Nat.eqb_refl. apply in_app_iff. right. now left.
      * intros Hq. apply Hr in Hq.
        destruct (Nat.eqb_spec q p) as [->|]; [|exact Hq]. apply in_app_iff. now left.
    + intros i q. rewrite Hpa, !Hdn.
      destruct (Nat.eqb_spec i (length st)) as [->|Hi].
      * intros [= <-]. destruct (Nat.eqb_spec p (length st)); [lia | auto].
      * intros Hq. pose proof (Hr _ _ Hq) as Hin. pose proof (child_known _ _ _ Hin).
        destruct (Nat.eqb_spec q (length st)); [lia|]. now apply Hd.
  - intros [= <- <-].
    assert (Hold : forall i, i < length st ->
              nth_error (st ++ [{| cancelled := false; children := []; parent := None |}]) i
              = nth_error st i) by (intros; now apply nth_error_app1).
    assert (Hnew : forall i, length st <= i ->
              children_of (st ++ [{| cancelled := false; children := []; parent := None |}]) i = []
              /\ parent_of (st ++ [{| cancelled := false; children := []; parent := None |}]) i = None
              /\ done (st ++ [{| cancelled := false; children := []; parent := None |}]) i = false).
    { intros i Hi. unfold children_of, parent_of, done. rewrite nth_error_snoc.
      destruct (Nat.ltb_spec i (length st)); [lia|].
      destruct (Nat.eqb i (length st)); auto. }
    constructor.
    + intros p c Hin. destruct (Nat.lt_ge_cases p (length st)) as [Hp|Hp].
      * unfold children_of in Hin. rewrite Hold in Hin by exact Hp. now apply Hc.
      * destruct (Hnew p Hp) as (E & _ & _). rewrite E in Hin. destruct Hin.
    + intros p c Hin. destruct (Nat.lt_ge_cases p (length st)) as [Hp|Hp].
      * unfold children_of in Hin. rewrite Hold in Hin by exact Hp.
        pose proof (Hpc _ _ Hin) as Hpar. pose proof (parent_known _ _ _ Hpar) as Hc'.
        unfold parent_of. rewrite Hold by exact Hc'. exact Hpar.
      * destruct (Hnew p Hp) as (E & _ & _). rewrite E in Hin. destruct Hin.
    + intros i p Hpar. destruct (Nat.lt_ge_cases i (length st)) as [Hi|Hi].
      * unfold parent_of in Hpar. rewrite Hold in Hpar by exact Hi.
        pose proof (Hr _ _ Hpar) as Hin. pose proof (child_known _ _ _ Hin) as Hp.
        unfold children_of. rewrite Hold by exact Hp. exact Hin.
      * destruct (Hnew i Hi) as (_ & E & _). rewrite E in Hpar. discriminate.
    + intros i p Hpar Hdone. destruct (Nat.lt_ge_cases i (length st)) as [Hi|Hi].
      * unfold parent_of in Hpar. rewrite Hold in Hpar by exact Hi.
        pose proof (Hr _ _ Hpar) as Hin. pose proof (child_known _ _ _ Hin) as Hp.
        unfold done in *. rewrite Hold in Hdone by exact Hp. rewrite Hold by exact Hi.
        now apply (Hd i p).
      * destruct (Hnew i Hi) as (_ & E & _). rewrite E in Hpar. discriminate.
Qed.

Lemma step_well_formed (st : Store) (op : Op) : well_formed st -> well_formed (step st op).
Proof.
  intros H. destruct op as [parent|id]; simpl.
  - destruct (new st parent) as [[st' id]|] eqn:E; [|exact H].
    now apply (new_well_formed st st' parent id).
  - now apply cancel_well_formed.
Qed.

Lemma steps_well_formed (ops : list Op) :
  forall st, well_formed st -> well_formed (fold_left step ops st).
Proof.
  induction ops as [|op ops IH]; intros st H; simpl; [exact H|].
  apply IH. now apply step_well_formed.
Qed.

Lemma empty_well_formed : well_formed [].
Proof.
  constructor.
  - intros p c H. unfold children_of in H. now destruct p.
  - intros p c H. unfold children_of in H. now destruct p.
  - intros i p H. unfold parent_of in H. destruct i; discriminate.
  - intros i p H. unfold parent_of in H. destruct i; discriminate.
Qed.

Lemma step_keeps_done (st : Store) (op : Op) (i : nat) :
  done st i = true -> done (step st op) i = true.
Proof.
  intros H. destruct op as [parent|id]; simpl.
  - pose proof (done_known _ _ H) as Hi.
    unfold new. destruct parent as [p|].
    + destruct (Nat.ltb p (length st)); [|exact H].
      unfold done, register. rewrite nth_error_app1 by now rewrite length_update.
      rewrite nth_error_update. destruct (Nat.eqb_spec i p) as [->|]; [|exact H].
      unfold done in H. now destruct (nth_error st p).
    + unfold done. now rewrite nth_error_app1.
  - apply (marks_done _ _ (walk_marks _ _ _)). exact H.
Qed.

Lemma steps_keep_done (ops : list Op) (i : nat) :
  forall st, done st i = true -> done (fold_left step ops st) i = true.
Proof.
  induction ops as [|op ops IH]; intros st H; simpl; [exact H|].
  apply IH. now apply step_keeps_done.
Qed.

Lemma cancel_sets_own_flag (st : Store) (s : nat) :
  s < length st -> done (cancel st s) s = true.
Proof.
  intros H. unfold cancel.
  assert (Hm : marks st (mark st s)) by apply mark_marks.
  destruct (length st) as [|n] eqn:E; [lia|]. cbn [cancel_walk].
  apply (marks_done _ _ (fold_marks _ _ (walk_marks n) _)).
  apply done_mark_same. lia.
Qed.

Lemma descendant_under (st : Store) (s c d : nat) :
  parent_of st c = Some s -> descendant st c d -> descendant st s d.
Proof.
  intros Hc H. induction H as [d Hp | d p Hp _ IH].
  - apply descendant_more with c; [exact Hp | now apply descendant_child].
  - now apply descendant_more with p.
Qed.

Lemma reach_descendant (st : Store) (s d : nat) :
  well_formed st -> reach st s d -> d = s \/ descendant st s d.
Proof.
  intros Hwf H. induction H as [s | s c d Hin _ IH]; [now left|]. right.
  pose proof (wf_parent _ Hwf _ _ Hin) as Hc.
  destruct IH as [->|IH]; [now apply descendant_child | now apply descendant_under with c].
Qed.

(** [cancel] sets no flag outside the scope and its descendants; a scope
    without a parent is untouched by the cancellation of another scope. *)
Lemma cancel_spares_the_rest (st : Store) (s j : nat) :
  well_formed st -> done (cancel st s) j = true ->
  done st j = true \/ j = s \/ descendant st s j.
Proof.
  intros Hwf H. unfold cancel in H. apply walk_only in H.
  destruct H as [H|H]; [now left | right; now apply reach_descendant].
Qed.

Lemma cancel_spares_roots (ops : list Op) (s j : nat) :
  parent_of (replay ops) j = None -> j <> s -> done (replay ops) j = false ->
  done (cancel (replay ops) s) j = false.
Proof.
  intros Hroot Hne Hnot.
  destruct (done (cancel (replay ops) s) j) eqn:E; [|reflexivity].
  apply cancel_spares_the_rest in E;
    [|unfold replay; apply steps_well_formed, empty_well_formed].
  destruct E as [E|[E|E]]; [congruence | contradiction |].
  destruct E as [d Hp | d p Hp _]; congruence.
Qed.

(** C9: after any history of [new] and [cancel], once [cancel] has run on a
    scope [s] of the store, and after any further [new] and [cancel], the
    scope [s] and every transitive descendant [d] of [s] in the store are
    done; this covers the descendants created after the cancellation. *)
Theorem cancel_reaches_descendants (before after : list Op) (s d : nat) :
  let st := fold_left step after (cancel (replay before) s) in
  s < length (replay before) -> descendant st s d ->
  done st s = true /\ done st d = true.
Proof.
  cbv zeta. intros Hs Hdesc.
  assert (Hwf : well_formed (fold_left step after (cancel (replay before) s))).
  { apply steps_well_formed, cancel_well_formed. unfold replay.
    apply steps_well_formed, empty_well_formed. }
  assert (Hdone : done (fold_left step after (cancel (replay before) s)) s = true).
  { apply steps_keep_done. now apply cancel_sets_own_flag. }
  split; [exact Hdone|].
  induction Hdesc as [d Hp | d p Hp _ IH].
  - now apply (wf_closed _ Hwf d s).
  - now apply (wf_closed _ Hwf d p Hp).
Qed.

(** A grandparent, a parent and a child; the grandparent is cancelled; a
    scope created afterwards below the child is done as well. *)
Lemma cancel_reaches_descendants_witness :
  let before := [OpNew None; OpNew (Some 0); OpNew (Some 1)] in
  let after := [OpNew (Some 2)] in
  let st := fold_left step after (cancel (replay before) 0) in
  done st 0 = true /\ done st 3 = true.
Proof.
  cbv zeta.
  apply (cancel_reaches_descendants
           [OpNew None; OpNew (Some 0); OpNew (Some 1)] [OpNew (Some 2)] 0 3).
  - vm_compute. lia.
  - apply descendant_more with 2; [reflexivity|].
    apply descendant_more with 1; [reflexivity|].
    apply descendant_child. reflexivity.
Defined.

(** The scenario of the unit test: [gp.cancel()] is seen by [gp], [p], [c]. *)
Example hierarchical_cancel :
  let st := cancel (replay [OpNew None; OpNew (Some 0); OpNew (Some 1)]) 0 in
  (done st 0, done st 1, done st 2) = (true, true, true).
Proof. reflexivity. Qed.

End ScopeFacts.

(* ================================================================== *)
(** ** Properties of the compose handler *)
(* ================================================================== *)

Module ComposeFacts.
Import Compose.

(** *** Splitting and joining *)

Lemma split_on_nonempty (sep : ascii) (s : string) : split_on sep s <> [].
Proof.
  destruct s as [|c s]; simpl; [discriminate|].
  destruct (Ascii.eqb c sep); [discriminate|].
  destruct (split_on sep s); discriminate.
Qed.

Lemma join_cons (sep x : string) (rest : list string) :
  rest <> [] -> join sep (x :: rest) = (x ++ sep ++ join sep rest)%string.
Proof. destruct rest; [congruence | reflexivity]. Qed.

Lemma string_app_assoc (a b c : string) : ((a ++ b) ++ c)%string = (a ++ b ++ c)%string.
Proof. induction a as [|x a IH]; simpl; [reflexivity | now rewrite IH]. Qed.

Lemma string_app_nil_r (a : string) : (a ++ "")%string = a.
Proof. induction a as [|x a IH]; simpl; [reflexivity | now rewrite IH]. Qed.

(** Joining the pieces of a split with the separator gives the text back. *)
Lemma join_split_on (sep : ascii) (s : string) :
  join (String sep EmptyString) (split_on sep s) = s.
Proof.
  induction s as [|c s IH]; [reflexivity|]. cbn [split_on].
  destruct (Ascii.eqb_spec c sep) as [->|Hne].
  - rewrite join_cons by apply split_on_nonempty. cbn. now rewrite IH.
  - pose proof (split_on_nonempty sep s) as Hn.
    destruct (split_on sep s) as [|seg segs]; [contradiction|].
    destruct segs as [|seg' segs].
    + cbn in *. now rewrite IH.
    + rewrite join_cons by discriminate. rewrite join_cons in IH by discriminate.
      change (String c seg ++ String sep "" ++ join (String sep "") (seg' :: segs))%string
        with (String c (seg ++ String sep "" ++ join (String sep "") (seg' :: segs))%string).
      now f_equal.
Qed.

Lemma split_on_lacks (sep : ascii) (s : string) :
  Forall (fun piece => lacks sep piece = true) (split_on sep s).
Proof.
  induction s as [|c s IH]; cbn [split_on]; [repeat constructor|].
  destruct (Ascii.eqb c sep) eqn:E.
  - constructor; [reflexivity | exact IH].
  - destruct (split_on sep s) as [|seg segs]; [repeat constructor; cbn; now rewrite E|].
    inversion IH as [|? ? Hseg Hsegs]; subst. constructor; [|exact Hsegs].
    cbn. now rewrite E, Hseg.
Qed.

(** A text without the separator is one piece. *)
Lemma split_on_whole (sep : ascii) (s : string) :
  lacks sep s = true -> split_on sep s = [s].
Proof.
  induction s as [|c s IH]; [reflexivity|]. cbn [lacks split_on].
  intros H. apply andb_true_iff in H. destruct H as [Hc Hs].
  apply negb_true_iff in Hc. rewrite Hc, (IH Hs). reflexivity.
Qed.

(** Splitting distributes over a separator. *)
Lemma split_on_app (sep : ascii) (a b : string) :
  split_on sep (a ++ String sep b) = split_on sep a ++ split_on sep b.
Proof.
  induction a as [|c a IH]; cbn [append split_on].
  - now rewrite Ascii.eqb_refl.
  - destruct (Ascii.eqb c sep); [now rewrite IH|].
    rewrite IH. pose proof (split_on_nonempty sep a) as Hn.
    destruct (split_on sep a) as [|seg segs]; [contradiction | reflexivity].
Qed.

(** *** The handler *)

Lemma constructor_split (env : option string) (nanoid : string)
  (opts : ComposeHandlerOpts) :
  let h := new_ComposeHandler env nanoid opts in
  h_cmd h :: h_prefix h
  = split_on SPACE (command_line (h_composeCommand h) (h_id h) (h_composeFile h)).
Proof.
  cbv zeta. unfold new_ComposeHandler.
  cbn [h_cmd h_prefix h_composeCommand h_id h_composeFile].
  match goal with
  | |- context [split_on SPACE ?l] =>
      pose proof (split_on_nonempty SPACE l) as Hn; destruct (split_on SPACE l)
  end; [contradiction | reflexivity].
Qed.

Lemma command_line_pieces (command id file : string) :
  split_on SPACE (command_line command id file)
  = split_on SPACE command ++ ["-p"] ++ split_on SPACE id ++ ["-f"] ++ split_on SPACE file.
Proof.
  unfold command_line.
  change (command ++ " -p " ++ id ++ " -f " ++ file)%string
    with (command ++ String SPACE
            ("-p" ++ String SPACE (id ++ String SPACE ("-f" ++ String SPACE file))))%string.
  rewrite !split_on_app. reflexivity.
Qed.

(** X16: the constructor cuts the command line at every space: the command
    and its arguments are the words of the compose command, then [-p], the
    pieces of the project id, [-f] and the pieces of the compose file path.
    No piece holds a space; the project id is the test name, a dash and the
    random suffix; an id and a path without spaces are one argument each, a
    path with a space is cut in two or more.  Without [composeCommand] and
    without [COMPOSE_COMMAND] the command is [podman] and the first argument
    [compose]. *)
Theorem constructor_arguments (env : option string) (nanoid : string)
  (opts : ComposeHandlerOpts) :
  let h := new_ComposeHandler env nanoid opts in
  h_cmd h :: h_prefix h
  = split_on SPACE (h_composeCommand h) ++ ["-p"] ++ split_on SPACE (h_id h)
    ++ ["-f"] ++ split_on SPACE (h_composeFile h)
  /\ Forall (fun piece => lacks SPACE piece = true) (h_cmd h :: h_prefix h)
  /\ h_id h = (testName opts ++ "-" ++ nanoid)%string
  /\ (lacks SPACE (h_id h) = true -> split_on SPACE (h_id h) = [h_id h])
  /\ (lacks SPACE (h_composeFile h) = true ->
        split_on SPACE (h_composeFile h) = [h_composeFile h])
  /\ (lacks SPACE (h_composeFile h) = false ->
        2 <= length (split_on SPACE (h_composeFile h)))
  /\ (composeCommand opts = None -> env = None ->
        h_cmd h = "podman" /\ hd_error (h_prefix h) = Some "compose").
Proof.
  cbv zeta. pose proof (constructor_split env nanoid opts) as Hs. cbv zeta in Hs.
  assert (Hid : h_id (new_ComposeHandler env nanoid opts)
                = (testName opts ++ "-" ++ nanoid)%string) by reflexivity.
  assert (Hcmd : composeCommand opts = None -> env = None ->
                 h_composeCommand (new_ComposeHandler env nanoid opts) = "podman compose").
  { intros Hc He. unfold new_ComposeHandler. cbn [h_composeCommand]. now rewrite Hc, He. }
  set (h := new_ComposeHandler env nanoid opts) in *. clearbody h.
  rewrite command_line_pieces in Hs.
  split; [exact Hs|]. split; [rewrite Hs; repeat (apply Forall_app; split)|].
  - apply split_on_lacks.
  - repeat constructor.
  - apply split_on_lacks.
  - repeat constructor.
  - apply split_on_lacks.
  - split; [exact Hid|]. split; [apply split_on_whole|]. split; [apply split_on_whole|].
    split.
    + generalize (h_composeFile h).
      intros file. induction file as [|c file IH]; cbn [lacks split_on]; [discriminate|].
      destruct (Ascii.eqb c SPACE); cbn [negb andb].
      * intros _. pose proof (split_on_nonempty SPACE file).
        destruct (split_on SPACE file); [contradiction | simpl; lia].
      * intros H. specialize (IH H).
        destruct (split_on SPACE file) as [|seg segs]; simpl in *; lia.
    + intros Hc He. rewrite (Hcmd Hc He) in Hs.
      change (split_on SPACE "podman compose") with ["podman"; "compose"] in Hs.
      cbn [app] in Hs. injection Hs as Hcmd' Hprefix. rewrite Hcmd', Hprefix.
      split; reflexivity.
Qed.

(** X17: what [up], [down] and [saveLogs] print before running is the
    command line that the constructor cut, put together again with single
    spaces, followed by the sub-command and the services joined by spaces
    (and, for [saveLogs], the redirection to the log file named after the
    project id), after the mark [ + ]. *)
Theorem printed_commands (env : option string) (nanoid : string)
  (opts : ComposeHandlerOpts) (services : list string) :
  let h := new_ComposeHandler env nanoid opts in
  let line := command_line (h_composeCommand h) (h_id h) (h_composeFile h) in
  printed_up h services = (" + " ++ line ++ " up -d " ++ join " " services)%string
  /\ printed_down h services = (" + " ++ line ++ " down " ++ join " " services)%string
  /\ printed_saveLogs h services
     = (" + " ++ line ++ " logs -t -n " ++ join " " services
        ++ " &> " ++ h_id h ++ ".log")%string.
Proof.
  cbv zeta. pose proof (constructor_split env nanoid opts) as Hs. cbv zeta in Hs.
  set (h := new_ComposeHandler env nanoid opts) in *.
  set (line := command_line (h_composeCommand h) (h_id h) (h_composeFile h)) in *.
  assert (Hne : h_prefix h <> []).
  { intros E. pose proof (command_line_pieces (h_composeCommand h) (h_id h)
                            (h_composeFile h)) as Hp.
    fold line in Hp. rewrite <- Hs, E in Hp. apply (f_equal (@length string)) in Hp.
    rewrite !length_app in Hp. cbn [length] in Hp.
    pose proof (split_on_nonempty SPACE (h_composeCommand h)).
    destruct (split_on SPACE (h_composeCommand h)); [contradiction|].
    cbn [length] in Hp. lia. }
  assert (Hline : (h_cmd h ++ " " ++ join " " (h_prefix h))%string = line).
  { rewrite <- (join_cons " " (h_cmd h) (h_prefix h) Hne), Hs.
    apply (join_split_on SPACE). }
  unfold printed_up, printed_down, printed_saveLogs, printCommand.
  cbn [reduce_strings nth_error toAdd]. rewrite <- Hline.
  repeat split; cbn [append]; rewrite ?string_app_assoc, ?string_app_nil_r;
    cbn [append]; rewrite ?string_app_assoc; reflexivity.
Qed.

End ComposeFacts.
